(** * Params: a shallow embedding of [params.h]

    The header offers three entry points: the [addp] overloads, which
    register an option and bind it to a caller variable; [argparse], which
    re-tokenizes the argument vector and writes the bound variables; and
    [argdetails], which renders the help text.  This development embeds the
    three of them and the class [Param] they share, and states the
    properties of the specification about them.

    Conventions of the embedding.
    - [int] positions and counters are integers of [Z]; [std::string::npos]
      converted to [int] is [-1], as the source itself tests it.  Wrap-around
      of [int] is not modelled: a position needs a command line of 2^31
      characters to get there, and the counter of the reading loop as many
      value words, unless the arity it starts from is near [INT_MIN].
    - The working string [args] is a buffer of characters ([list ascii]),
      read and written by index; option names, values and messages are
      [string]s.
    - The caller variables reached through the [void*] destinations form a
      store from addresses to cells; two options may hold the same address.
    - [priv::params_map] is a [std::map]: an association list kept in
      ascending order of its keys.
    - [exit(1)] after a diagnostic, an exception that nobody catches, and a
      loop that never ends are outcomes of their own.  The word-boundary
      loop grows a vector in every turn: when it does not end by itself it
      ends in the exception of the allocation. *)

From Stdlib Require Import ZArith String Ascii List Lia QArith.
From Stdlib Require Import DecimalString Sorted OrderedTypeEx.
From stdpp Require Import gmap strings list fin_maps.

Open Scope Z_scope.

(** ** Characters and strings *)

Definition chr_space : ascii := " "%char.
Definition chr_equals : ascii := "="%char.
Definition chr_quote : ascii := Ascii.ascii_of_nat 34.
Definition chr_backslash : ascii := Ascii.ascii_of_nat 92.
Definition chr_nul : ascii := Ascii.ascii_of_nat 0.
Definition chr_tab : string := String (Ascii.ascii_of_nat 9) "".
Definition chr_nl : string := String (Ascii.ascii_of_nat 10) "".

(** [std::string::npos] once stored in an [int]. *)
Definition npos : Z := -1.

(** The least [int]. *)
Definition INT_MIN : Z := - 2 ^ 31.

(** [s.find(c, from)]: the index of the first [c] at or after [from]. A
    negative [from] is, as a [size_t], beyond every string. *)
Definition find (c : ascii) (from : Z) (s : list ascii) : Z :=
  if from <? 0 then npos
  else match list_find (λ x, x = c) (drop (Z.to_nat from) s) with
       | Some (i, _) => from + Z.of_nat i
       | None => npos
       end.

(** [s.find_first_not_of(c, from)]. *)
Definition find_first_not_of (c : ascii) (from : Z) (s : list ascii) : Z :=
  if from <? 0 then npos
  else match list_find (λ x, x ≠ c) (drop (Z.to_nat from) s) with
       | Some (i, _) => from + Z.of_nat i
       | None => npos
       end.

(** [s[i]] for reading; [s[s.size()]] is the terminating NUL. *)
Definition char_at (s : list ascii) (i : Z) : ascii :=
  default chr_nul (s !! Z.to_nat i).

(** [s.substr(beg, n)] with both arguments converted from [int] to
    [size_t]: a start beyond the string throws [std::out_of_range]
    ([None]); a negative count is a huge one and takes the rest. *)
Definition substr (s : list ascii) (beg n : Z) : option string :=
  if (beg <? 0) || (Z.of_nat (length s) <? beg) then None
  else
    let rest := drop (Z.to_nat beg) s in
    Some (string_of_list_ascii (if n <? 0 then rest else take (Z.to_nat n) rest)).

(** [tolower] in the "C" locale. *)
Definition tolower (c : ascii) : ascii :=
  let n := nat_of_ascii c in
  if ((65 <=? n) && (n <=? 90))%nat then ascii_of_nat (n + 32) else c.

Fixpoint lowercase_of (value : string) : string :=
  match value with
  | EmptyString => EmptyString
  | String ch rest => String (tolower ch) (lowercase_of rest)
  end.

(** [std::to_string] of an [int]. *)
Definition to_string (n : Z) : string := NilZero.string_of_int (Z.to_int n).

(** ** Outcomes

    What a call can end in: a normal return, [exit(1)] after writing
    [stderr], an exception that leaves [main] uncaught, a step the
    language gives no meaning to, or no end at all. *)

Inductive outcome (A : Type) : Type :=
| Ok (a : A)
| Exit (stderr : string)
| Uncaught
| Undefined
| Diverges.

Arguments Ok {A} a.
Arguments Exit {A} stderr.
Arguments Uncaught {A}.
Arguments Undefined {A}.
Arguments Diverges {A}.

Definition bind {A B : Type} (m : outcome A) (k : A → outcome B) : outcome B :=
  match m with
  | Ok a => k a
  | Exit e => Exit e
  | Uncaught => Uncaught
  | Undefined => Undefined
  | Diverges => Diverges
  end.

Notation "'call' x ':=' m 'in' k" := (bind m (λ x, k))
  (at level 10, x name, m at level 100, k at level 200, only parsing).

(** ** The numeric conversions of the standard library

    [std::stoi] and its siblings are not part of the header.  They are an
    interface here: each maps a string to a number, or throws
    ([std::invalid_argument], [std::out_of_range]), which is [None]. *)

Class StdConv : Type := {
  float : Type;
  double : Type;
  stoi : string → option Z;
  stoul : string → option Z;
  stol : string → option Z;
  stof : string → option float;
  stod : string → option double
}.

(** ** Data model *)

Inductive TYPE : Set := BOOL | INT | UINT | FLOAT | LONG | DOUBLE | CHAR | STRING.

#[global] Instance TYPE_eq_dec : EqDecision TYPE.
Proof. solve_decision. Defined.

(** A [void*] destination. *)
Definition addr : Set := N.

Record Param : Set := mkParam {
  type : TYPE;
  destination : addr;
  longPhrase : string;
  helpPhrase : string;
  xargs : Z;
  required : bool;
  set : bool;
  defaultValue : string
}.

Definition with_set (b : bool) (p : Param) : Param :=
  mkParam (type p) (destination p) (longPhrase p) (helpPhrase p) (xargs p)
          (required p) b (defaultValue p).

Definition with_required (b : bool) (p : Param) : Param :=
  mkParam (type p) (destination p) (longPhrase p) (helpPhrase p) (xargs p)
          b (set p) (defaultValue p).

(** [std::map<string, Param*>]: every [Param] is reached through one entry
    only, so an entry holds the object itself. Ascending in the keys. *)
Definition registry : Set := list (string * Param).

Fixpoint map_find (key : string) (m : registry) : option Param :=
  match m with
  | [] => None
  | (k, p) :: m' => if decide (k = key) then Some p else map_find key m'
  end.

(** [m[key] = p]. *)
Fixpoint map_assign (key : string) (p : Param) (m : registry) : registry :=
  match m with
  | [] => [(key, p)]
  | (k, q) :: m' =>
      match String.compare key k with
      | Lt => (key, p) :: (k, q) :: m'
      | Eq => (key, p) :: m'
      | Gt => (k, q) :: map_assign key p m'
      end
  end.

(** A write through the pointer stored under [key]. *)
Fixpoint map_update (key : string) (f : Param → Param) (m : registry) : registry :=
  match m with
  | [] => []
  | (k, p) :: m' =>
      if decide (k = key) then (k, f p) :: m' else (k, p) :: map_update key f m'
  end.

(** ** The tokenizer of [argparse]

    Both loops of the tokenizer are [while] loops; a loop is a function of
    the iterations it may still make, and [None] says it has not ended
    within them. *)

(** [args += string(argv[i]) + " "] for [i = 1, 2, ...]. *)
Fixpoint join_args (words : list string) : list ascii :=
  match words with
  | [] => []
  | w :: words' => list_ascii_of_string w ++ chr_space :: join_args words'
  end.

(** The loop that blanks the [=] signs, entered with [posequals] at the
    first space of [args]. *)
Fixpoint equals_loop (fuel : nat) (posequals : Z) (args : list ascii)
  : option (list ascii) :=
  if posequals =? npos then Some args
  else
    match fuel with
    | O => None
    | S fuel' =>
        let args' :=
          if (0 <? posequals)
             && bool_decide (char_at args (posequals - 1) ≠ chr_backslash)
          then <[Z.to_nat posequals := chr_space]> args
          else args in
        equals_loop fuel' (find chr_equals (posequals + 1) args') args'
    end.

(** The word-boundary loop. [pos] holds start and end alternately and is
    read two at a time, so a start is kept here with its end. *)
Fixpoint scan_loop (fuel : nat) (args : list ascii) (posspace : Z)
    (pos : list (Z * Z)) : option (list (Z * Z)) :=
  if bool_decide (posspace ≠ npos)
     && bool_decide (posspace ≠ Z.of_nat (length args) - 1)
  then
    match fuel with
    | O => None
    | S fuel' =>
        if bool_decide (char_at args posspace = chr_quote) then
          let posquote := posspace in
          let location := posquote in
          let posquote := find chr_quote (location + 1) args in
          let location := posquote in
          scan_loop fuel' args (find_first_not_of chr_space (location + 1) args)
                    (pos ++ [(posspace + 1, location)])
        else
          let location := posspace in
          let posspace' := find chr_space (location + 1) args in
          scan_loop fuel' args (find_first_not_of chr_space (posspace' + 1) args)
                    (pos ++ [(location, posspace')])
    end
  else Some pos.

(** The working string: joined, then with its [=] signs blanked. Neither
    loop needs more iterations than the string has characters. *)
Definition working_string (argv : list string) : option (list ascii) :=
  let args := join_args (tail argv) in
  equals_loop (S (length args)) (find chr_space 0 args) args.

Definition word_positions (args : list ascii) : option (list (Z * Z)) :=
  scan_loop (S (length args)) args (find_first_not_of chr_space 0 args) [].

(** ** The help text *)

Definition type_name (t : TYPE) : string :=
  match t with
  | BOOL => "bool."
  | INT => "int."
  | FLOAT => "float."
  | DOUBLE => "double."
  | UINT => "unsigned int."
  | LONG => "long."
  | CHAR => "char."
  | STRING => "string."
  end.

(** One turn of the loop of [argdetails]. *)
Definition details_entry (details : string) (p : Param) : string :=
  let details := details +:+ (chr_tab +:+ longPhrase p) in
  let details := details +:+ (chr_nl +:+ chr_tab +:+ chr_tab +:+ helpPhrase p) in
  let details :=
    if (0 <? xargs p) && bool_decide (type p ≠ BOOL) then
      let details :=
        details +:+ (chr_nl +:+ chr_tab +:+ chr_tab +:+ to_string (xargs p) +:+ " argument") in
      let details := details +:+ (if bool_decide (xargs p ≠ 1) then "s" else "") in
      let details := details +:+ " of type " in
      details +:+ type_name (type p)
    else details in
  let details :=
    if bool_decide (required p = false) then
      details +:+ (chr_nl +:+ chr_tab +:+ chr_tab +:+ "default: '" +:+ defaultValue p +:+ "'")
    else details in
  details +:+ chr_nl.

(** [argdetails]: the entries in the order of the map. *)
Definition argdetails (m : registry) : string :=
  fold_left (λ details entry, details_entry details entry.2) m "".

Section Embedding.

Context `{StdConv}.

(** What a caller variable holds. *)
Inductive datum : Type :=
| VBool (b : bool)
| VInt (n : Z)
| VUInt (n : Z)
| VFloat (x : float)
| VLong (n : Z)
| VDouble (x : double)
| VChar (c : ascii)
| VString (s : string).

(** A caller variable: a scalar, or a [std::vector]. *)
Inductive cell : Type :=
| Scalar (v : datum)
| Vector (l : list datum).

(** [*variable = v]. *)
Definition assign (d : addr) (v : datum) (st : gmap addr cell) : gmap addr cell :=
  <[d := Scalar v]> st.

(** [variable->push_back(v)]: the pointer has to address a vector. *)
Definition push_back (d : addr) (v : datum) (st : gmap addr cell)
  : outcome (gmap addr cell) :=
  match st !! d with
  | Some (Vector l) => Ok (<[d := Vector (l ++ [v])]> st)
  | _ => Undefined
  end.

(** The two lines every [catch (...)] of [Param::Set] prints. *)
Definition conversion_error (type_name value : string) : string :=
  "Error in argument (expected type " +:+ type_name +:+ "): " +:+ value +:+ chr_nl
  +:+ "Options which expect infinite arguments should be last." +:+ chr_nl.

(** The shape shared by the non-boolean cases of [Param::Set]: with
    [xargs == 1] the converted value is assigned with no handler around the
    conversion; otherwise conversion and [push_back] sit in a [try] whose
    handler prints and exits. *)
Definition set_converted (p : Param) (type_name value : string)
    (converted : option datum) (st : gmap addr cell) : outcome (gmap addr cell) :=
  if xargs p =? 1 then
    match converted with
    | Some v => Ok (assign (destination p) v st)
    | None => Uncaught
    end
  else
    match converted with
    | Some v => push_back (destination p) v st
    | None => Exit (conversion_error type_name value)
    end.

(** [Param::Set]. *)
Definition Param_Set (p : Param) (value : string) (st : gmap addr cell)
  : outcome (gmap addr cell) :=
  if decide (value = "") then Ok st
  else
    match type p with
    | BOOL =>
        let lowercase := lowercase_of value in
        if bool_decide (lowercase ≠ "false") && bool_decide (lowercase ≠ "true") then
          Exit ("Unrecognized default value for boolean option: '" +:+ value +:+ "'" +:+ chr_nl)
        else if bool_decide (lowercase = "true") then
          Ok (assign (destination p) (VBool true) st)
        else if bool_decide (lowercase = "false") then
          Ok (assign (destination p) (VBool false) st)
        else Ok st
    | INT => set_converted p "INT" value (VInt <$> stoi value) st
    | FLOAT => set_converted p "FLOAT" value (VFloat <$> stof value) st
    | DOUBLE => set_converted p "DOUBLE" value (VDouble <$> stod value) st
    | UINT =>
        set_converted p "UINT" value ((λ n, VUInt (n mod 2 ^ 32)) <$> stoul value) st
    | LONG => set_converted p "LONG" value (VLong <$> stol value) st
    | CHAR =>
        set_converted p "CHAR" value
          (Some (VChar (match value with String c _ => c | EmptyString => chr_nul end))) st
    | STRING => set_converted p "STRING" value (Some (VString value)) st
    end.

(** The constructor [Param::Param].  The member [set] is assigned in the
    boolean branch only; for every other type it keeps what the fresh
    allocation held, which is the argument [heap_set]. *)
Definition Param_new (heap_set : bool) (_type : TYPE) (_destination : addr)
    (_longPhrase _helpPhrase : string) (_xargs : Z) (_required : bool)
    (_defaultValue : string) (st : gmap addr cell)
  : outcome (Param * gmap addr cell) :=
  let this := mkParam _type _destination _longPhrase _helpPhrase _xargs
                      _required heap_set _defaultValue in
  if decide (_type = BOOL) then
    let this := with_required false (with_set true this) in
    call st' := (if decide (_defaultValue ≠ "") then Param_Set this _defaultValue st
                 else Param_Set this "false" st) in
    Ok (this, st')
  else if _xargs =? 1 then
    call st' := Param_Set this _defaultValue st in
    Ok (this, st')
  else Ok (this, st).

(** The state of the program: the registry and the caller variables. *)
Record world : Type := mkWorld {
  params_map : registry;
  memory : gmap addr cell
}.

(** The body common to the overloads of [addp]: construct, then store
    under the long phrase. *)
Definition addp_with (heap_set : bool) (_type : TYPE) (_destination : addr)
    (_longPhrase _helpPhrase : string) (_xargs : Z) (_required : bool)
    (_defaultValue : string) (w : world) : outcome world :=
  call made := Param_new heap_set _type _destination _longPhrase
                          _helpPhrase _xargs _required _defaultValue (memory w) in
  let '(addedparam, st') := made in
  Ok (mkWorld (map_assign _longPhrase addedparam (params_map w)) st').

(** The nine overloads, in the order of the header. *)
Definition addp_help heap_set _type _destination :=
  addp_with heap_set _type _destination "--help" "Prints this help message." 1 false "".

Definition addp heap_set _type _destination _longPhrase _helpPhrase :=
  addp_with heap_set _type _destination _longPhrase _helpPhrase 1 true "".

Definition addp_xargs heap_set _type _destination _xargs _longPhrase _helpPhrase :=
  addp_with heap_set _type _destination _longPhrase _helpPhrase _xargs true "".

Definition addp_default heap_set _type _destination _defaultValue _longPhrase _helpPhrase :=
  addp_with heap_set _type _destination _longPhrase _helpPhrase 1 false _defaultValue.

Definition addp_xargs_default heap_set _type _destination _xargs _defaultValue
    _longPhrase _helpPhrase :=
  addp_with heap_set _type _destination _longPhrase _helpPhrase _xargs false _defaultValue.

Definition addp_required heap_set _type _destination (_required : bool)
    _longPhrase _helpPhrase :=
  addp_with heap_set _type _destination _longPhrase _helpPhrase 1 _required "".

Definition addp_xargs_required heap_set _type _destination _xargs (_required : bool)
    _longPhrase _helpPhrase :=
  addp_with heap_set _type _destination _longPhrase _helpPhrase _xargs _required "".

Definition addp_default_required heap_set _type _destination _defaultValue
    (_required : bool) _longPhrase _helpPhrase :=
  addp_with heap_set _type _destination _longPhrase _helpPhrase 1 _required _defaultValue.

Definition addp_xargs_default_required heap_set _type _destination _xargs
    _defaultValue (_required : bool) _longPhrase _helpPhrase :=
  addp_with heap_set _type _destination _longPhrase _helpPhrase _xargs _required
            _defaultValue.

(** A program registers its options one call of [addp] after the other.
    A call is given by the arguments the constructor gets, held in a
    descriptor, with [set] for what the allocation holds. *)
Definition register (asked : Param) (w : world) : outcome world :=
  addp_with (set asked) (type asked) (destination asked) (longPhrase asked)
            (helpPhrase asked) (xargs asked) (required asked) (defaultValue asked) w.

Fixpoint register_all (calls : list Param) (w : world) : outcome world :=
  match calls with
  | [] => Ok w
  | first :: calls' =>
      call w' := register first w in
      register_all calls' w'
  end.

(** ** The reading loop of [argparse] *)

(** The variables of the loop; [parameter] points at the entry of the map
    under the key it holds ([None] is [nullptr]).  [parameter_counter] is
    an [int] that the loop only ever decrements: as an integer here it is
    the counter of the source as long as it stays at or above [INT_MIN],
    and the decrement below [INT_MIN], which the language gives no meaning
    to, is outside of what is modelled. *)
Record reader : Type := mkReader {
  readingAnOption : bool;
  parameter : option string;
  parameter_counter : Z;
  now : world
}.

(** How one turn ends: the loop goes on, or [argparse] returns. *)
Inductive flow : Type :=
| Next (r : reader)
| Return (w : world).

Definition unrecognized (key : string) : string :=
  "Unrecognized option '" +:+ key +:+ "' in invocation.".

(** One turn of the [for] loop over [pos]. *)
Definition read_word (args : list ascii) (range : Z * Z) (r : reader)
  : outcome flow :=
  let beg := range.1 in
  match substr args beg (range.2 - beg) with
  | None => Uncaught
  | Some key =>
      let w := now r in
      if readingAnOption r then
        match map_find key (params_map w) with
        | None => Exit (unrecognized key)
        | Some param =>
            if bool_decide (type param ≠ BOOL) then
              Ok (Next (mkReader false (Some key) (xargs param) w))
            else
              call st' := Param_Set param "true" (memory w) in
              let w' := mkWorld (params_map w) st' in
              if bool_decide (key = "--help") then Ok (Return w')
              else Ok (Next (mkReader true (Some key) (parameter_counter r) w'))
        end
      else
        match parameter r with
        | None => Undefined
        | Some at_key =>
            match map_find at_key (params_map w) with
            | None => Undefined
            | Some param =>
                call st' := Param_Set param key (memory w) in
                let counter := parameter_counter r - 1 in
                let marked := map_update at_key (with_set true) (params_map w) in
                if counter =? 0 then
                  Ok (Next (mkReader true (Some at_key) counter (mkWorld marked st')))
                else if counter <? 0 then
                  Ok (Next (mkReader false (Some at_key) counter (mkWorld marked st')))
                else
                  Ok (Next (mkReader false (Some at_key) counter
                                     (mkWorld (params_map w) st')))
            end
        end
  end.

Fixpoint read_words (args : list ascii) (pos : list (Z * Z)) (r : reader)
  : outcome flow :=
  match pos with
  | [] => Ok (Next r)
  | range :: pos' =>
      call f := read_word args range r in
      match f with
      | Next r' => read_words args pos' r'
      | Return w => Ok (Return w)
      end
  end.

Definition missing (p : Param) : string :=
  "Option '" +:+ longPhrase p +:+ "' required, and not found, or incomplete." +:+ chr_nl.

(** The closing loop over the map. *)
Fixpoint check_required (m : registry) : outcome unit :=
  match m with
  | [] => Ok tt
  | entry :: m' =>
      if required entry.2 && negb (set entry.2) then Exit (missing entry.2)
      else check_required m'
  end.

Definition start (w : world) : reader := mkReader true None 1 w.

(** The reading loop on the words of [argv].  The word-boundary loop
    pushes two positions onto [pos] in every turn, so when it does not end
    by itself [pos] grows until [push_back] throws ([std::bad_alloc] or
    [std::length_error]), and nothing in [argparse] catches that.  The
    blanking loop allocates nothing. *)
Definition word_pass (argv : list string) (w : world) : outcome flow :=
  match working_string argv with
  | None => Diverges
  | Some args =>
      match word_positions args with
      | None => Uncaught
      | Some pos => read_words args pos (start w)
      end
  end.

(** [argparse]; [argv] starts with the program name. *)
Definition argparse (argv : list string) (w : world) : outcome world :=
  call f := word_pass argv w in
  match f with
  | Return w' => Ok w'
  | Next r =>
      call checked := check_required (params_map (now r)) in
      Ok (now r)
  end.

End Embedding.

(** ** A table of conversions to run the code on

    Decimal numerals as [strtol], [strtoul] and [strtod] read them: blanks,
    a sign, digits, and for the floating types a fraction; what follows the
    numeral is ignored.  A floating value is the rational the numeral
    denotes: rounding, exponents, hexadecimal numerals, infinities and NaN
    are left out.  The theorems below hold for every table; this one gives
    them inputs to run on. *)

Module Decimal.

Definition is_space (c : ascii) : bool :=
  let n := nat_of_ascii c in
  ((n =? 32) || ((9 <=? n) && (n <=? 13)))%nat.

Fixpoint skip_spaces (s : string) : string :=
  match s with
  | String c rest => if is_space c then skip_spaces rest else s
  | EmptyString => s
  end.

Definition digit (c : ascii) : option Z :=
  let n := nat_of_ascii c in
  if ((48 <=? n) && (n <=? 57))%nat then Some (Z.of_nat n - 48) else None.

(** The digits in front of [s]: how many, their value, and the rest. *)
Fixpoint digits (s : string) (count : nat) (acc : Z) : nat * Z * string :=
  match s with
  | String c rest =>
      match digit c with
      | Some d => digits rest (S count) (10 * acc + d)
      | None => (count, acc, s)
      end
  | EmptyString => (count, acc, s)
  end.

Definition sign (s : string) : bool * string :=
  match s with
  | String "-" rest => (true, rest)
  | String "+" rest => (false, rest)
  | _ => (false, s)
  end.

(** Sign and magnitude of the integer numeral in front of [s]. *)
Definition integer (s : string) : option (bool * Z) :=
  let '(negative, s1) := sign (skip_spaces s) in
  let '(count, magnitude, _) := digits s1 0 0 in
  if (count =? 0)%nat then None else Some (negative, magnitude).

Definition signed (bits : Z) (s : string) : option Z :=
  match integer s with
  | Some (negative, magnitude) =>
      let n := if negative then - magnitude else magnitude in
      if (- 2 ^ (bits - 1) <=? n) && (n <? 2 ^ (bits - 1)) then Some n else None
  | None => None
  end.

Definition unsigned (bits : Z) (s : string) : option Z :=
  match integer s with
  | Some (negative, magnitude) =>
      if magnitude <? 2 ^ bits then
        Some (if negative then (- magnitude) mod 2 ^ bits else magnitude)
      else None
  | None => None
  end.

Definition fraction (s : string) : option Q :=
  let '(negative, s1) := sign (skip_spaces s) in
  let '(whole_count, whole, s2) := digits s1 0 0 in
  let '(part_count, part) :=
    match s2 with
    | String "." s3 => let '(c, v, _) := digits s3 0 0 in (c, v)
    | _ => (0%nat, 0)
    end in
  if (whole_count + part_count =? 0)%nat then None
  else
    let magnitude :=
      Qred (Qmake (whole * 10 ^ Z.of_nat part_count + part)
                  (Z.to_pos (10 ^ Z.of_nat part_count))) in
    Some (if negative then Qred (Qopp magnitude) else magnitude).

#[export] Instance table : StdConv := {|
  float := Q;
  double := Q;
  stoi := signed 32;
  stoul := unsigned 64;
  stol := signed 64;
  stof := fraction;
  stod := fraction
|}.

End Decimal.

#[global] Existing Instance Decimal.table.

(** Equality of what the code computes is decidable, which lets a run be
    compared with its expected outcome by evaluation. *)
#[global] Instance Q_eq_dec : EqDecision Q.
Proof. solve_decision. Defined.

#[global] Instance Param_eq_dec : EqDecision Param.
Proof. solve_decision. Defined.

#[global] Instance datum_eq_dec : EqDecision (@datum Decimal.table).
Proof. solve_decision. Defined.

#[global] Instance cell_eq_dec : EqDecision (@cell Decimal.table).
Proof. solve_decision. Defined.

#[global] Instance world_eq_dec : EqDecision (@world Decimal.table).
Proof. solve_decision. Defined.

#[global] Instance outcome_eq_dec {A : Type} `{EqDecision A} : EqDecision (outcome A).
Proof. solve_decision. Defined.

#[global] Instance reader_eq_dec : EqDecision (@reader Decimal.table).
Proof. solve_decision. Defined.

#[global] Instance flow_eq_dec : EqDecision (@flow Decimal.table).
Proof. solve_decision. Defined.

(** ** Vocabulary of the statements *)

Section Vocabulary.

Context `{StdConv}.

(** The per-type conversion of a value word, for the types other than
    [BOOL]. *)
Definition conversion (t : TYPE) (value : string) : option datum :=
  match t with
  | BOOL => None
  | INT => VInt <$> stoi value
  | UINT => (λ n, VUInt (n mod 2 ^ 32)) <$> stoul value
  | FLOAT => VFloat <$> stof value
  | LONG => VLong <$> stol value
  | DOUBLE => VDouble <$> stod value
  | CHAR => match value with
            | String c _ => Some (VChar c)
            | EmptyString => None
            end
  | STRING => Some (VString value)
  end.

(** The name of the type in the diagnostics of [Param::Set]. *)
Definition diagnostic_name (t : TYPE) : string :=
  match t with
  | BOOL => "BOOL"
  | INT => "INT"
  | UINT => "UINT"
  | FLOAT => "FLOAT"
  | LONG => "LONG"
  | DOUBLE => "DOUBLE"
  | CHAR => "CHAR"
  | STRING => "STRING"
  end.

Definition numeric (t : TYPE) : Prop :=
  t = INT ∨ t = UINT ∨ t = LONG ∨ t = FLOAT ∨ t = DOUBLE.

(** The words that [pos] cuts out of [args]. *)
Definition words_at (args : list ascii) (pos : list (Z * Z)) : list (option string) :=
  map (λ range, substr args range.1 (range.2 - range.1)) pos.

(** The value words that [Param::Set] acts on: the non-empty ones. *)
Definition bound_words (words : list string) : list string :=
  filter (λ word, word ≠ "") words.

(** The world a turn of the reading loop ends in. *)
Definition world_of (f : flow) : world :=
  match f with
  | Next r => now r
  | Return w => w
  end.

(** What a run leaves in a caller variable, and under a key of the map. *)
Definition cell_after (run : outcome world) (d : addr) : outcome (option cell) :=
  call w := run in Ok (memory w !! d).

Definition entry_after (run : outcome world) (key : string) : outcome (option Param) :=
  call w := run in Ok (map_find key (params_map w)).

(** The words [argparse] reads from [argv]. *)
Definition words_of (argv : list string) : option (list (option string)) :=
  args ← working_string argv; pos ← word_positions args; Some (words_at args pos).

End Vocabulary.

(** What reading may do to the map: mark entries as set, nothing else. *)
Definition evolves (m m' : registry) : Prop :=
  ∀ key, map_find key m' = map_find key m
         ∨ map_find key m' = with_set true <$> map_find key m.

(** A word that neither names the option under [key] nor an option bound
    to the address [d]. *)
Definition apart (m : registry) (key : string) (d : addr) (word : string) : Prop :=
  word ≠ key ∧ ∀ q, map_find word m = Some q → destination q ≠ d.

(** The positions that the blanking loop, entered at [p], turns into a
    space: [p] itself and every [=] after it, unless a backslash stands
    right before. *)
Definition blanked (s : list ascii) (p : Z) (i : nat) : Prop :=
  p ≠ npos ∧ p ≤ Z.of_nat i ∧ (Z.of_nat i = p ∨ s !! i = Some chr_equals)
  ∧ (0 < i)%nat ∧ s !! (i - 1)%nat ≠ Some chr_backslash.

#[global] Instance blanked_dec (s : list ascii) (p : Z) (i : nat) : Decision (blanked s p i).
Proof. unfold blanked. apply _. Defined.

(** The word-boundary loop at [posspace]: whether it takes another turn,
    where the word found there ends, and what the turn records. *)
Definition scanning (args : list ascii) (posspace : Z) : Prop :=
  posspace ≠ npos ∧ posspace ≠ Z.of_nat (length args) - 1.

Definition word_end (args : list ascii) (posspace : Z) : Z :=
  if bool_decide (char_at args posspace = chr_quote)
  then find chr_quote (posspace + 1) args
  else find chr_space (posspace + 1) args.

Definition word_range (args : list ascii) (posspace : Z) : Z * Z :=
  if bool_decide (char_at args posspace = chr_quote)
  then (posspace + 1, word_end args posspace)
  else (posspace, word_end args posspace).

Definition next_word (args : list ascii) (posspace : Z) : Z :=
  find_first_not_of chr_space (word_end args posspace + 1) args.

(** After [k] turns from [posspace] the loop meets a word with no end: the
    search answers [npos], and the next word is looked for from the start
    of the string again. *)
Fixpoint restarts (args : list ascii) (k : nat) (posspace : Z) : Prop :=
  scanning args posspace
  ∧ match k with
    | O => word_end args posspace = npos
    | S k' => restarts args k' (next_word args posspace)
    end.

Definition same_ignoring_case (a b : string) : Prop :=
  lowercase_of a = lowercase_of b.

(** [needle] occurs in [hay]. *)
Definition occurs (needle hay : string) : bool :=
  bool_decide (is_Some (String.index 0 needle hay)).

(** The entries of a [std::map] stand in strictly ascending order of their
    keys, and [addp] files every descriptor under its long phrase. *)
Definition ascending (m : registry) : Prop :=
  StronglySorted (λ a b, String.compare a b = Lt) (map fst m).

Definition keyed_by_phrase (m : registry) : Prop :=
  Forall (λ entry, entry.1 = longPhrase entry.2) m.

(** A block of the help text, part by part. *)
Definition arity_line (p : Param) : string :=
  chr_nl +:+ chr_tab +:+ chr_tab +:+ to_string (xargs p) +:+ " argument"
  +:+ (if bool_decide (xargs p = 1) then "" else "s")
  +:+ " of type " +:+ type_name (type p).

Definition default_line (p : Param) : string :=
  chr_nl +:+ chr_tab +:+ chr_tab +:+ "default: '" +:+ defaultValue p +:+ "'".

Definition block (p : Param) : string :=
  chr_tab +:+ longPhrase p
  +:+ chr_nl +:+ chr_tab +:+ chr_tab +:+ helpPhrase p
  +:+ (if bool_decide (type p ≠ BOOL ∧ 0 < xargs p) then arity_line p else "")
  +:+ (if bool_decide (required p = false) then default_line p else "")
  +:+ chr_nl.

(** The blocks of the entries of [m], in the order of [m]. *)
Definition blocks (m : registry) : string :=
  foldr (λ entry rest, block entry.2 +:+ rest) "" m.

(** The registries a program can reach: [addp] assigns a descriptor under
    its long phrase, and [argparse] writes the member [set] through a
    stored pointer. *)
Inductive reachable : registry → Prop :=
| reachable_empty : reachable []
| reachable_assign p m : reachable m → reachable (map_assign (longPhrase p) p m)
| reachable_update key b m : reachable m → reachable (map_update key (with_set b) m).

(** The calls of [addp] in which the constructor calls [Param::Set] with
    a value that is not empty: those for a boolean option, and those with
    the arity 1 and a default. *)
Definition writes_on_registration (asked : Param) : Prop :=
  type asked = BOOL ∨ (xargs asked = 1 ∧ defaultValue asked ≠ "").

(** ** Vocabulary of the further statements *)

(** A recorded word lies inside the working string. *)
Definition in_bounds (args : list ascii) (range : Z * Z) : Prop :=
  0 ≤ range.1 ∧ range.1 ≤ range.2 ∧ range.2 < Z.of_nat (length args).

(** Entry by entry, the map [m'] is the map [m] with some members [set]
    turned to true. *)
Definition marked (m m' : registry) : Prop :=
  Forall2 (λ entry entry', entry' = entry ∨ entry' = (entry.1, with_set true entry.2)) m m'.

(** An argument word free of spaces, quotes and [=] signs. *)
Definition plain (word : string) : Prop :=
  Forall (λ c, c ≠ chr_space ∧ c ≠ chr_quote ∧ c ≠ chr_equals)
         (list_ascii_of_string word).

(** A word that can stand between quotes: free of quotes and [=] signs;
    and the word with the quotes around it. *)
Definition quotable (body : string) : Prop :=
  Forall (λ c, c ≠ chr_quote ∧ c ≠ chr_equals) (list_ascii_of_string body).

Definition quoted (body : string) : string :=
  String chr_quote (body +:+ String chr_quote "").

(** Where the words that are not empty lie in the joined string of
    [words], when the joined string starts at [offset]. *)
Fixpoint ranges_of (offset : Z) (words : list string) : list (Z * Z) :=
  match words with
  | [] => []
  | word :: words' =>
      let stop := offset + Z.of_nat (String.length word) in
      if decide (word = "") then ranges_of (stop + 1) words'
      else (offset, stop) :: ranges_of (stop + 1) words'
  end.

(** ** Worlds to run the code on *)

Module Scenario.

Definition empty : world := mkWorld [] ∅.

Definition quote : string := String chr_quote "".
Definition backslash : string := String chr_backslash "".

(** [addp(TYPE::INT, &seed, "--seed", ...)], the allocation zeroed. *)
Definition seed : outcome world :=
  addp false INT 1%N "--seed" "The random seed." empty.

(** The same registration on an allocation whose [set] byte is not zero. *)
Definition seed_on_used_heap : outcome world :=
  addp true INT 1%N "--seed" "The random seed." empty.

(** [addp(TYPE::STRING, &name, "--name", ...)]. *)
Definition name : outcome world :=
  addp false STRING 1%N "--name" "The name of the run." empty.

(** A vector of strings bound to [--files] with the arity [-1]. *)
Definition files : outcome world :=
  addp_xargs false STRING 1%N (-1) "--files" "The files to read."
             (mkWorld [] (<[1%N := Vector []]> ∅)).

Definition name_world : world :=
  match name with
  | Ok w => w
  | _ => empty
  end.

Definition files_world : world :=
  match files with
  | Ok w => w
  | _ => empty
  end.

(** Two options bound to one variable, one of them with a default. *)
Definition synonyms : outcome world :=
  call w := addp_default false INT 1%N "5" "--count" "How many." empty in
  addp_required false INT 1%N false "-c" "How many, for short." w.

(** The four options of the header's example, with a required option
    next to [--help], registered with their arguments as [std::string]s.
    (Written with string literals as in the header, the call for [--name]
    selects the overload with [bool _required] in the place of the
    default; this world is not that program.) *)
Definition example : outcome world :=
  call w := addp false INT 1%N "--iterations" "The number of iterations to perform."
                 (mkWorld [] (<[2%N := Vector []]> ∅)) in
  call w := addp_xargs_required false FLOAT 2%N 3 false "--seeds"
                 "The seeds to begin simulation." w in
  call w := addp_default false STRING 3%N "simulation" "--name"
                 "The name for this simulation run." w in
  addp false BOOL 4%N "--help" "Shows this help message." w.

(** The world of [example], and the reader once [--name x] is read. *)
Definition example_world : world :=
  match example with
  | Ok w => w
  | _ => empty
  end.

Definition example_after_name : reader :=
  mkReader true (Some "--name") 0
    (mkWorld (map_update "--name" (with_set true) (params_map example_world))
             (<[3%N := Scalar (VString "x")]> (memory example_world))).

(** Two options with defaults bound to one variable. *)
Definition two_defaults : outcome world :=
  call w := addp_default false INT 1%N "5" "--count" "How many." empty in
  addp_default false INT 1%N "9" "--number" "How many, again." w.

(** Two required options. *)
Definition two_required : outcome world :=
  call w := addp false INT 1%N "--width" "The width." empty in
  addp false INT 2%N "--height" "The height." w.

End Scenario.

(** More worlds, for the further statements. *)
Module Sample.

Definition two_required_world : world :=
  match Scenario.two_required with
  | Ok w => w
  | _ => Scenario.empty
  end.

(** Three floats for [--seeds], a flag [--fast] and a name, on zeroed
    allocations. *)
Definition flags : outcome world :=
  call w := addp_xargs false FLOAT 2%N 3 "--seeds" "The seeds."
                 (mkWorld [] (<[2%N := Vector []]> ∅)) in
  call w := addp false BOOL 4%N "--fast" "Go fast." w in
  addp false STRING 3%N "--name" "The name." w.

Definition flags_world : world :=
  match flags with
  | Ok w => w
  | _ => Scenario.empty
  end.

(** A vector bound to [--rest] with the arity 0. *)
Definition rest_world : world :=
  match addp_xargs false STRING 1%N 0 "--rest" "The rest."
                   (mkWorld [] (<[1%N := Vector []]> ∅)) with
  | Ok w => w
  | _ => Scenario.empty
  end.

End Sample.

(** * Properties *)

(** ** Evaluations *)

Lemma by_evaluation {A : Type} `{EqDecision A} (x y : A) :
  bool_decide (x = y) = true → x = y.
Proof. apply bool_decide_eq_true_1. Qed.

Ltac run := apply by_evaluation; vm_compute; reflexivity.

Example run_example :
  let run := bind Scenario.example
               (argparse ["prog"; "--iterations"; "5"; "--seeds"; "1.0"; "2.0"; "3.0"]) in
  cell_after run 1%N = Ok (Some (Scalar (VInt 5)))
  ∧ cell_after run 2%N = Ok (Some (Vector [VFloat 1%Q; VFloat 2%Q; VFloat 3%Q]))
  ∧ cell_after run 3%N = Ok (Some (Scalar (VString "simulation")))
  ∧ cell_after run 4%N = Ok (Some (Scalar (VBool false))).
Proof. repeat split; run. Qed.

Example run_unknown_option :
  bind Scenario.example (argparse ["prog"; "--bogus"]) = Exit (unrecognized "--bogus").
Proof. run. Qed.

Example run_unterminated_quote :
  bind Scenario.name (argparse ["prog"; "--name"; Scenario.quote +:+ "ab"]) = Uncaught.
Proof. run. Qed.

Example run_equals_after_first_word :
  cell_after (bind Scenario.example (argparse ["prog"; "--name"; "x"; "--iterations=5"]))
             1%N = Ok (Some (Scalar (VInt 5))).
Proof. run. Qed.

Example run_quoted_value :
  cell_after (bind Scenario.name
                (argparse ["prog"; "--name"; Scenario.quote +:+ "Jane"; "Q" +:+ Scenario.quote]))
             1%N = Ok (Some (Scalar (VString "Jane Q"))).
Proof. run. Qed.

(** ** The [=] sign in the first word *)

(** C1, the code at the failing input: a first argument [--seed=3] keeps
    its [=] sign, since the blanking loop starts at the first space of the
    working string; the word read is [--seed=3], which is no option, while
    [--seed 3] binds 3. *)
Theorem equals_sign_in_first_word_is_kept :
  working_string ["prog"; "--seed=3"] = Some (list_ascii_of_string "--seed=3 ")
  ∧ bind Scenario.seed (argparse ["prog"; "--seed=3"]) = Exit (unrecognized "--seed=3")
  ∧ cell_after (bind Scenario.seed (argparse ["prog"; "--seed"; "3"])) 1%N
    = Ok (Some (Scalar (VInt 3))).
Proof. repeat split; run. Qed.

(** ** Quoted words *)

(** C2, the code at the failing input: the word opened by a quote ends at
    the next quote character, escaped or not.  The quoted value made of
    a, a backslash, a quote and b is cut after the backslash, and its
    remainder is read as an option. *)
Theorem escaped_quote_closes_the_word :
  let value := Scenario.quote +:+ "a" +:+ Scenario.backslash +:+ Scenario.quote
               +:+ "b" +:+ Scenario.quote in
  words_of ["prog"; "--name"; value]
  = Some [Some "--name"; Some ("a" +:+ Scenario.backslash); Some ("b" +:+ Scenario.quote)]
  ∧ bind Scenario.name (argparse ["prog"; "--name"; value])
    = Exit (unrecognized ("b" +:+ Scenario.quote)).
Proof. split; run. Qed.

(** ** Conversion failures *)

Section Conversions.

Context `{StdConv}.

Lemma Param_Set_converts (p : Param) (value : string) (st : gmap addr cell) :
  type p ≠ BOOL → value ≠ "" →
  Param_Set p value st
  = set_converted p (diagnostic_name (type p)) value (conversion (type p) value) st.
Proof.
  intros Htype Hvalue. unfold Param_Set.
  destruct (decide (value = "")) as [|_]; [done|].
  destruct (type p); try done.
  simpl. destruct value; done.
Qed.

(** With a vector destination the failure is caught: the diagnostic names
    the type, echoes the word and gives the hint. *)
Lemma vector_conversion_failure_exits (p : Param) (value : string) (st : gmap addr cell) :
  type p ≠ BOOL → xargs p ≠ 1 → value ≠ "" → conversion (type p) value = None →
  Param_Set p value st = Exit (conversion_error (diagnostic_name (type p)) value).
Proof.
  intros Htype Hx Hvalue Hnone. rewrite Param_Set_converts by done.
  unfold set_converted. rewrite Hnone.
  destruct (Z.eqb_spec (xargs p) 1); done.
Qed.

(** C3, the code on the scalar path: with [xargs == 1] the conversion is
    called outside any [try], so a word that does not convert ends the
    program through the uncaught exception and no diagnostic of
    [Param::Set] is written. *)
Theorem scalar_conversion_failure_is_uncaught (p : Param) (value : string)
    (st : gmap addr cell) :
  numeric (type p) → xargs p = 1 → value ≠ "" → conversion (type p) value = None →
  Param_Set p value st = Uncaught.
Proof.
  intros Hnum Hx Hvalue Hnone.
  rewrite Param_Set_converts; [|destruct Hnum as [?|[?|[?|[?|?]]]]; congruence|done].
  unfold set_converted. rewrite Hnone, Hx. reflexivity.
Qed.

End Conversions.

Lemma scalar_conversion_failure_is_uncaught_witness :
  let p := mkParam INT 1%N "--seed" "The random seed." 1 true false "" in
  (numeric (type p) ∧ xargs p = 1 ∧ "abc" ≠ "" ∧ conversion (type p) "abc" = None)
  ∧ Param_Set p "abc" ∅ = Uncaught.
Proof.
  split.
  - split; [left; reflexivity|]. split; [reflexivity|]. split; [discriminate | run].
  - apply scalar_conversion_failure_is_uncaught;
      [left; reflexivity | reflexivity | discriminate | run].
Defined.

Example run_scalar_conversion_failure :
  bind Scenario.seed (argparse ["prog"; "--seed"; "abc"]) = Uncaught.
Proof. run. Qed.

Example run_vector_conversion_failure :
  bind Scenario.example (argparse ["prog"; "--seeds"; "1.0"; "z"])
  = Exit (conversion_error "FLOAT" "z").
Proof. run. Qed.

(** ** The check of the required options *)

(** C4, the code at the failing input: the constructor gives [set] no value
    unless the type is [BOOL], and the closing loop reads the member as
    the allocation left it.  On an allocation whose byte is not zero the
    required [--seed], never supplied, passes the check and [argparse]
    returns; on a zeroed one the same call exits with the diagnostic. *)
Theorem required_check_reads_unassigned_member :
  entry_after Scenario.seed_on_used_heap "--seed"
  = Ok (Some (mkParam INT 1%N "--seed" "The random seed." 1 true true ""))
  ∧ bind Scenario.seed_on_used_heap (argparse ["prog"]) = Scenario.seed_on_used_heap
  ∧ bind Scenario.seed (argparse ["prog"])
    = Exit (missing (mkParam INT 1%N "--seed" "The random seed." 1 true false "")).
Proof. repeat split; run. Qed.

(** ** The map *)

Lemma compare_refl (k : string) : String.compare k k = Eq.
Proof.
  pose proof (String.compare_antisym k k) as Hanti.
  destruct (String.compare k k); simpl in Hanti; congruence.
Qed.

Lemma compare_Eq (a b : string) : String.compare a b = Eq ↔ a = b.
Proof.
  split; [apply String.compare_eq_iff | intros ->; apply compare_refl].
Qed.

Lemma compare_Lt_trans (a b c : string) :
  String.compare a b = Lt → String.compare b c = Lt → String.compare a c = Lt.
Proof.
  intros Hab Hbc. apply String_as_OT.cmp_lt.
  eapply String_as_OT.lt_trans; apply String_as_OT.cmp_lt; eassumption.
Qed.

Lemma compare_Gt (a b : string) : String.compare a b = Gt ↔ String.compare b a = Lt.
Proof.
  rewrite (String.compare_antisym b a).
  destruct (String.compare a b); simpl; split; congruence.
Qed.

Lemma map_find_assign (key k : string) (p : Param) (m : registry) :
  map_find k (map_assign key p m) = if decide (key = k) then Some p else map_find k m.
Proof.
  induction m as [|[k0 q] m IH]; simpl.
  - destruct (decide (key = k)); reflexivity.
  - destruct (String.compare key k0) eqn:Hcmp; simpl.
    + apply compare_Eq in Hcmp as ->.
      destruct (decide (k0 = k)); reflexivity.
    + destruct (decide (key = k)); reflexivity.
    + rewrite IH. destruct (decide (k0 = k)) as [->|]; [|reflexivity].
      destruct (decide (key = k)) as [->|]; [|reflexivity].
      rewrite compare_refl in Hcmp. discriminate.
Qed.

Lemma map_find_update (key k : string) (f : Param → Param) (m : registry) :
  map_find k (map_update key f m)
  = if decide (key = k) then f <$> map_find k m else map_find k m.
Proof.
  induction m as [|[k0 q] m IH]; simpl.
  - destruct (decide (key = k)); reflexivity.
  - destruct (decide (k0 = key)) as [->|Hne]; simpl.
    + destruct (decide (key = k)); reflexivity.
    + rewrite IH. destruct (decide (k0 = k)) as [->|]; [|reflexivity].
      destruct (decide (key = k)); congruence.
Qed.

(** ** Registration of a boolean option *)

Section Registration.

Context `{StdConv}.

Lemma Param_Set_bool (p : Param) (value : string) (st : gmap addr cell) :
  type p = BOOL → value ≠ "" →
  Param_Set p value st
  = if decide (lowercase_of value = "true") then Ok (assign (destination p) (VBool true) st)
    else if decide (lowercase_of value = "false")
         then Ok (assign (destination p) (VBool false) st)
         else Exit ("Unrecognized default value for boolean option: '" +:+ value
                    +:+ "'" +:+ chr_nl).
Proof.
  intros Htype Hvalue. unfold Param_Set. rewrite Htype.
  destruct (decide (value = "")); [done|].
  destruct (decide (lowercase_of value = "true")) as [->|Ht]; [reflexivity|].
  destruct (decide (lowercase_of value = "false")) as [->|Hf]; [reflexivity|].
  rewrite !bool_decide_eq_true_2 by done. reflexivity.
Qed.

(** C9: registering a boolean option stores a descriptor whose [required]
    is false whatever the caller passed, and writes the destination at
    once: true for a default that is [true] up to case, false for no
    default or one that is [false] up to case; any other default exits
    with the diagnostic, inside the registration call. *)
Theorem boolean_registration (heap_set : bool) (d : addr) (key help : string)
    (arity : Z) (req : bool) (default : string) (w : world) :
  let entry := mkParam BOOL d key help arity false true default in
  let stored b :=
    Ok (mkWorld (map_assign key entry (params_map w)) (<[d := Scalar (VBool b)]> (memory w))) in
  let registration := addp_with heap_set BOOL d key help arity req default w in
  (same_ignoring_case default "true" → registration = stored true)
  ∧ (default = "" ∨ same_ignoring_case default "false" → registration = stored false)
  ∧ (default ≠ "" → ¬ same_ignoring_case default "true"
     → ¬ same_ignoring_case default "false"
     → registration
       = Exit ("Unrecognized default value for boolean option: '" +:+ default
               +:+ "'" +:+ chr_nl))
  ∧ (∀ w', registration = Ok w'
     → ∃ p, map_find key (params_map w') = Some p ∧ required p = false).
Proof.
  intros entry stored registration.
  assert (Hempty : default = "" → registration = stored false).
  { intros ->. reflexivity. }
  assert (Hgiven : default ≠ "" →
            registration
            = if decide (lowercase_of default = "true") then stored true
              else if decide (lowercase_of default = "false") then stored false
                   else Exit ("Unrecognized default value for boolean option: '"
                              +:+ default +:+ "'" +:+ chr_nl)).
  { intros Hne. unfold registration, addp_with, Param_new. simpl.
    destruct (decide (default ≠ "")); [|done].
    rewrite Param_Set_bool by done. simpl.
    repeat case_decide; reflexivity. }
  unfold same_ignoring_case. simpl lowercase_of.
  split; [|split; [|split]].
  - intros Htrue. destruct (decide (default = "")) as [->|Hne]; [discriminate|].
    rewrite Hgiven by done. rewrite decide_True by done. reflexivity.
  - intros [->|Hfalse]; [auto|].
    destruct (decide (default = "")) as [->|Hne]; [auto|].
    rewrite Hgiven by done. rewrite decide_False by congruence.
    rewrite decide_True by done. reflexivity.
  - intros Hne Ht Hf. rewrite Hgiven by done.
    rewrite !decide_False by done. reflexivity.
  - intros w' Hok. exists entry. split; [|reflexivity].
    destruct (decide (default = "")) as [He|Hne].
    + rewrite Hempty in Hok by done. injection Hok as <-. simpl.
      rewrite map_find_assign, decide_True; done.
    + rewrite Hgiven in Hok by done.
      repeat case_decide; try discriminate; injection Hok as <-; simpl;
        rewrite map_find_assign, decide_True; done.
Qed.

End Registration.

Example run_boolean_defaults :
  cell_after (addp_default false BOOL 1%N "TRUE" "--fast" "Go fast." Scenario.empty) 1%N
  = Ok (Some (Scalar (VBool true)))
  ∧ cell_after (addp_required false BOOL 1%N true "--fast" "Go fast." Scenario.empty) 1%N
    = Ok (Some (Scalar (VBool false)))
  ∧ addp_default false BOOL 1%N "yes" "--fast" "Go fast." Scenario.empty
    = Exit ("Unrecognized default value for boolean option: 'yes'" +:+ chr_nl).
Proof. repeat split; run. Qed.

(** ** The help text *)

Lemma append_assoc (a b c : string) : (a +:+ b) +:+ c = a +:+ (b +:+ c).
Proof.
  induction a as [|x a IH]; [reflexivity|].
  change (String x ((a +:+ b) +:+ c) = String x (a +:+ (b +:+ c))).
  by rewrite IH.
Qed.

Lemma append_empty_r (a : string) : a +:+ "" = a.
Proof.
  induction a as [|x a IH]; [reflexivity|].
  change (String x (a +:+ "") = String x a). by rewrite IH.
Qed.

Lemma details_entry_block (details : string) (p : Param) :
  details_entry details p = details +:+ block p.
Proof.
  unfold details_entry, block, arity_line, default_line.
  assert (Hguard : (0 <? xargs p) && bool_decide (type p ≠ BOOL)
                   = bool_decide (type p ≠ BOOL ∧ 0 < xargs p)).
  { destruct (Z.ltb_spec 0 (xargs p)), (decide (type p ≠ BOOL)); simpl.
    - rewrite !bool_decide_eq_true_2; done.
    - rewrite !bool_decide_eq_false_2; [done | tauto | done].
    - symmetry. apply bool_decide_eq_false_2. lia.
    - symmetry. apply bool_decide_eq_false_2. lia. }
  rewrite Hguard.
  assert (Hplural : (if bool_decide (xargs p ≠ 1) then "s" else "")
                    = (if bool_decide (xargs p = 1) then "" else "s")).
  { destruct (decide (xargs p = 1)) as [Hx|Hx].
    - rewrite bool_decide_eq_false_2, bool_decide_eq_true_2; first [done | tauto].
    - rewrite bool_decide_eq_true_2, bool_decide_eq_false_2; done. }
  rewrite Hplural.
  destruct (bool_decide (type p ≠ BOOL ∧ 0 < xargs p)),
           (bool_decide (required p = false));
    rewrite ?append_assoc; simpl; rewrite ?append_assoc; reflexivity.
Qed.

Lemma argdetails_from (m : registry) (details : string) :
  fold_left (λ details entry, details_entry details entry.2) m details
  = details +:+ blocks m.
Proof.
  revert details. induction m as [|entry m IH]; intros details; simpl.
  - by rewrite append_empty_r.
  - rewrite IH, details_entry_block, append_assoc. reflexivity.
Qed.

Lemma ascending_bound_assign (k0 key : string) (p : Param) (m : registry) :
  String.compare k0 key = Lt →
  Forall (λ k, String.compare k0 k = Lt) (map fst m) →
  Forall (λ k, String.compare k0 k = Lt) (map fst (map_assign key p m)).
Proof.
  intros Hkey. induction m as [|[k q] m IH]; simpl; intros Hall.
  - by constructor.
  - apply Forall_cons in Hall as [Hk Hm].
    destruct (String.compare key k); simpl; repeat constructor; auto.
Qed.

Lemma ascending_assign (key : string) (p : Param) (m : registry) :
  ascending m → ascending (map_assign key p m).
Proof.
  unfold ascending. induction m as [|[k q] m IH]; simpl; intros Hsorted.
  - repeat constructor.
  - apply StronglySorted_inv in Hsorted as [Hm Hk].
    destruct (String.compare key k) eqn:Hcmp; simpl.
    + apply compare_Eq in Hcmp as ->. by constructor.
    + constructor; [by constructor|].
      constructor; [done|].
      eapply Forall_impl; [exact Hk|]. intros k' Hk'. simpl in Hk'.
      by eapply compare_Lt_trans.
    + constructor; [by apply IH|].
      apply ascending_bound_assign; [by apply compare_Gt | done].
Qed.

Lemma keys_update (key : string) (f : Param → Param) (m : registry) :
  map fst (map_update key f m) = map fst m.
Proof.
  induction m as [|[k q] m IH]; simpl; [reflexivity|].
  destruct (decide (k = key)); simpl; [reflexivity | by rewrite IH].
Qed.

Lemma reachable_ascending (m : registry) : reachable m → ascending m.
Proof.
  induction 1 as [|p m _ IH|key b m _ IH].
  - constructor.
  - by apply ascending_assign.
  - unfold ascending. by rewrite keys_update.
Qed.

Lemma reachable_keyed_by_phrase (m : registry) : reachable m → keyed_by_phrase m.
Proof.
  unfold keyed_by_phrase. induction 1 as [|p m _ IH|key b m _ IH].
  - constructor.
  - induction m as [|[k q] m IHm]; simpl; [by repeat constructor|].
    apply Forall_cons in IH as [Hq Hm].
    destruct (String.compare (longPhrase p) k); repeat constructor; auto.
  - induction m as [|[k q] m IHm]; simpl; [constructor|].
    apply Forall_cons in IH as [Hq Hm].
    destruct (decide (k = key)); constructor; auto.
Qed.

(** C8, as the code has it: the help text is the blocks of the entries in
    the order of the map, which is the strictly ascending order of the long
    phrases; a block holds the long phrase and the help phrase, the arity
    line exactly when the option is not boolean and its arity is positive,
    and the default line exactly when [required] is false.  [argdetails] is
    a function of the map and returns the text alone. *)
Theorem help_text_blocks (m : registry) :
  reachable m →
  StronglySorted (λ a b, String.compare a b = Lt) (map (λ entry, longPhrase entry.2) m)
  ∧ argdetails m = blocks m
  ∧ ∀ entry, entry ∈ m →
      let p := entry.2 in
      block p
      = chr_tab +:+ longPhrase p +:+ chr_nl +:+ chr_tab +:+ chr_tab +:+ helpPhrase p
        +:+ (if bool_decide (type p ≠ BOOL ∧ 0 < xargs p) then arity_line p else "")
        +:+ (if bool_decide (required p = false) then default_line p else "")
        +:+ chr_nl.
Proof.
  intros Hreach. split; [|split].
  - pose proof (reachable_ascending m Hreach) as Hasc.
    pose proof (reachable_keyed_by_phrase m Hreach) as Hkeys.
    unfold ascending in Hasc.
    replace (map (λ entry, longPhrase entry.2) m) with (map fst m); [done|].
    apply map_ext_Forall. eapply Forall_impl; [exact Hkeys|]. by intros [k q].
  - unfold argdetails. by rewrite argdetails_from.
  - reflexivity.
Qed.

Lemma help_text_blocks_witness :
  let name := mkParam STRING 3%N "--name" "The name." 1 false false "run" in
  let help := mkParam BOOL 4%N "--help" "Shows help." 1 false true "" in
  let m := map_assign (longPhrase name) name (map_assign (longPhrase help) help []) in
  reachable m
  ∧ StronglySorted (λ a b, String.compare a b = Lt) (map (λ entry, longPhrase entry.2) m)
  ∧ argdetails m = blocks m.
Proof.
  intros name help m.
  assert (Hreach : reachable m) by (repeat constructor).
  split; [exact Hreach|].
  destruct (help_text_blocks m Hreach) as (Hasc & Htext & _).
  split; assumption.
Defined.

(** C8, the claim at an option of unbounded arity: [--files] is not
    boolean, and its block has no arity line. *)
Lemma unbounded_arity_has_no_arity_line :
  entry_after Scenario.files "--files"
  = Ok (Some (mkParam STRING 1%N "--files" "The files to read." (-1) true false ""))
  ∧ (call w := Scenario.files in Ok (argdetails (params_map w)))
    = Ok (chr_tab +:+ "--files" +:+ chr_nl +:+ chr_tab +:+ chr_tab
          +:+ "The files to read." +:+ chr_nl)
  ∧ (call w := Scenario.files in Ok (occurs "argument" (argdetails (params_map w))))
    = Ok false.
Proof. repeat split; run. Qed.

(** ** The reading loop *)

Lemma evolves_refl (m : registry) : evolves m m.
Proof. intros key. by left. Qed.

Lemma evolves_trans (m1 m2 m3 : registry) :
  evolves m1 m2 → evolves m2 m3 → evolves m1 m3.
Proof.
  intros H12 H23 key.
  destruct (H12 key) as [E12|E12], (H23 key) as [E23|E23];
    rewrite E23, E12; auto.
  right. by destruct (map_find key m1).
Qed.

Lemma evolves_update (key : string) (m : registry) :
  evolves m (map_update key (with_set true) m).
Proof.
  intros k. rewrite map_find_update. destruct (decide (key = k)); auto.
Qed.

Lemma evolves_find (m m' : registry) (key : string) (p : Param) :
  evolves m m' → map_find key m = Some p →
  ∃ p', map_find key m' = Some p' ∧ type p' = type p
        ∧ destination p' = destination p ∧ xargs p' = xargs p
        ∧ required p' = required p ∧ (set p = true → set p' = true).
Proof.
  intros Hev Hfind. destruct (Hev key) as [E|E]; rewrite Hfind in E.
  - exists p. done.
  - exists (with_set true p). done.
Qed.

Lemma evolves_find_inv (m m' : registry) (key : string) (p' : Param) :
  evolves m m' → map_find key m' = Some p' →
  ∃ p, map_find key m = Some p ∧ type p' = type p
       ∧ destination p' = destination p ∧ xargs p' = xargs p.
Proof.
  intros Hev Hfind. destruct (Hev key) as [E|E]; rewrite Hfind in E.
  - exists p'. done.
  - destruct (map_find key m) as [p|]; [|done]. exists p.
    injection E as ->. done.
Qed.

Section Reading.

Context `{StdConv}.

Lemma read_words_app (args : list ascii) (pre post : list (Z * Z)) (r : reader) :
  read_words args (pre ++ post) r
  = call f := read_words args pre r in
    match f with
    | Next r' => read_words args post r'
    | Return w => Ok (Return w)
    end.
Proof.
  revert r. induction pre as [|range pre IH]; intros r; simpl; [reflexivity|].
  destruct (read_word args range r) as [[r'|w']| | | |]; simpl; auto.
Qed.

Lemma read_word_evolves (args : list ascii) (range : Z * Z) (r : reader) (f : flow) :
  read_word args range r = Ok f →
  evolves (params_map (now r)) (params_map (world_of f)).
Proof.
  unfold read_word. intros Hread.
  destruct (substr args range.1 (range.2 - range.1)) as [key|]; [|done].
  destruct (readingAnOption r).
  - destruct (map_find key (params_map (now r))) as [param|]; [|done].
    case_bool_decide.
    + injection Hread as <-. apply evolves_refl.
    + destruct (Param_Set param "true" (memory (now r))); simpl in Hread; try done.
      case_bool_decide; injection Hread as <-; apply evolves_refl.
  - destruct (parameter r) as [at_key|]; [|done].
    destruct (map_find at_key (params_map (now r))) as [param|]; [|done].
    destruct (Param_Set param key (memory (now r))); simpl in Hread; try done.
    destruct (parameter_counter r - 1 =? 0);
      [|destruct (parameter_counter r - 1 <? 0)];
      injection Hread as <-; simpl;
      auto using evolves_refl, evolves_update.
Qed.

Lemma read_words_evolves (args : list ascii) (pos : list (Z * Z)) (r : reader) (f : flow) :
  read_words args pos r = Ok f →
  evolves (params_map (now r)) (params_map (world_of f)).
Proof.
  revert r. induction pos as [|range pos IH]; intros r; simpl.
  - intros [= <-]. apply evolves_refl.
  - destruct (read_word args range r) as [g| | | |] eqn:Hword; simpl; try done.
    apply read_word_evolves in Hword.
    destruct g as [r'|w']; simpl in *.
    + intros Hrest. eapply evolves_trans; [exact Hword | by apply IH].
    + by intros [= <-].
Qed.

(** C5, as the code has it: the whole line is cut into words before any
    word is read.  When that scan has ended, the words hold [--help] where
    an option is read, and [--help] is registered as a boolean option,
    [argparse] returns normally with the world as the words before
    [--help] left it and the destination of [--help] set to true: the
    words after it are not read, and no entry is checked for being
    required. *)
Theorem help_returns_at_once (argv : list string) (w : world) (args : list ascii)
    (pre post : list (Z * Z)) (range : Z * Z) (r : reader) (help : Param) :
  map_find "--help" (params_map w) = Some help →
  type help = BOOL →
  working_string argv = Some args →
  word_positions args = Some (pre ++ range :: post) →
  read_words args pre (start w) = Ok (Next r) →
  readingAnOption r = true →
  substr args range.1 (range.2 - range.1) = Some "--help" →
  argparse argv w
  = Ok (mkWorld (params_map (now r))
                (<[destination help := Scalar (VBool true)]> (memory (now r)))).
Proof.
  intros Hhelp Hbool Hargs Hpos Hpre Hmode Hword.
  apply read_words_evolves in Hpre as Hev. simpl in Hev.
  destruct (evolves_find _ _ _ _ Hev Hhelp) as (help' & Hfind & Htype & Hdest & _).
  unfold argparse, word_pass. rewrite Hargs, Hpos, read_words_app, Hpre. simpl.
  unfold read_word. rewrite Hword, Hmode, Hfind.
  rewrite bool_decide_eq_false_2 by (rewrite Htype, Hbool; tauto).
  rewrite Param_Set_bool by (congruence || done). simpl.
  rewrite Hdest. reflexivity.
Qed.

End Reading.

Lemma help_returns_at_once_witness :
  let argv := ["prog"; "--name"; "x"; "--help"; "--bogus"] in
  let w := Scenario.example_world in
  let args := list_ascii_of_string "--name x --help --bogus " in
  let r := Scenario.example_after_name in
  let help := mkParam BOOL 4%N "--help" "Shows this help message." 1 false true "" in
  (map_find "--help" (params_map w) = Some help
   ∧ type help = BOOL
   ∧ working_string argv = Some args
   ∧ word_positions args = Some ([(0, 6); (7, 8)] ++ (9, 15) :: [(16, 23)])
   ∧ read_words args [(0, 6); (7, 8)] (start w) = Ok (Next r)
   ∧ readingAnOption r = true
   ∧ substr args (9, 15).1 ((9, 15).2 - (9, 15).1) = Some "--help")
  ∧ entry_after (Ok (now r)) "--iterations"
    = Ok (Some (mkParam INT 1%N "--iterations" "The number of iterations to perform."
                        1 true false ""))
  ∧ argparse argv w
    = Ok (mkWorld (params_map (now r))
                  (<[destination help := Scalar (VBool true)]> (memory (now r)))).
Proof.
  intros argv w args r help.
  assert (H1 : map_find "--help" (params_map w) = Some help) by run.
  assert (H2 : type help = BOOL) by reflexivity.
  assert (H3 : working_string argv = Some args) by run.
  assert (H4 : word_positions args = Some ([(0, 6); (7, 8)] ++ (9, 15) :: [(16, 23)]))
    by run.
  assert (H5 : read_words args [(0, 6); (7, 8)] (start w) = Ok (Next r)) by run.
  assert (H6 : readingAnOption r = true) by reflexivity.
  assert (H7 : substr args (9, 15).1 ((9, 15).2 - (9, 15).1) = Some "--help") by run.
  split; [by repeat split|]. split; [run|].
  exact (help_returns_at_once argv w args _ _ _ r help H1 H2 H3 H4 H5 H6 H7).
Defined.

(** C5, the claim at a quote that is never closed: [--help] is registered
    as a boolean option and is the first word of the line, but the scan of
    the line comes before the reading of its first word and does not end
    on the quote: one turn after its start it stands at a word with no
    end.  [argparse] is left by the exception of [push_back]; it does not
    return, and the destination of [--help] is never written. *)
Lemma help_is_not_reached_before_an_unclosed_quote :
  let argv := ["prog"; "--help"; Scenario.quote +:+ "x"] in
  let w := Scenario.example_world in
  let args := list_ascii_of_string ("--help " +:+ Scenario.quote +:+ "x ") in
  map_find "--help" (params_map w)
  = Some (mkParam BOOL 4%N "--help" "Shows this help message." 1 false true "")
  ∧ memory w !! 4%N = Some (Scalar (VBool false))
  ∧ working_string argv = Some args
  ∧ substr args 0 6 = Some "--help"
  ∧ restarts args 1 (find_first_not_of chr_space 0 args)
  ∧ word_positions args = None
  ∧ argparse argv w = Uncaught.
Proof.
  intros argv w args.
  split; [run|]. split; [run|]. split; [run|]. split; [run|].
  split; [|split; run].
  repeat split; vm_compute; congruence.
Qed.

(** ** What a value word writes *)

Section Binding.

Context `{StdConv}.

Lemma Param_Set_with_set (b : bool) (p : Param) (value : string) (st : gmap addr cell) :
  Param_Set (with_set b p) value st = Param_Set p value st.
Proof. reflexivity. Qed.

Lemma Param_Set_empty (p : Param) (st : gmap addr cell) : Param_Set p "" st = Ok st.
Proof. reflexivity. Qed.

Lemma set_converted_other (p : Param) (name value : string) (converted : option datum)
    (st st' : gmap addr cell) (d : addr) :
  set_converted p name value converted st = Ok st' → d ≠ destination p →
  st' !! d = st !! d.
Proof.
  unfold set_converted, assign, push_back. intros Hset Hd.
  destruct (xargs p =? 1), converted as [v|]; try done.
  - injection Hset as <-. by rewrite lookup_insert_ne.
  - destruct (st !! destination p) as [[|l]|]; try done.
    injection Hset as <-. by rewrite lookup_insert_ne.
Qed.

(** [Param::Set] writes the destination of its descriptor and no other
    variable. *)
Lemma Param_Set_other (p : Param) (value : string) (st st' : gmap addr cell) (d : addr) :
  Param_Set p value st = Ok st' → d ≠ destination p → st' !! d = st !! d.
Proof.
  intros Hset Hd. destruct (decide (value = "")) as [->|Hvalue].
  - rewrite Param_Set_empty in Hset. by injection Hset as <-.
  - destruct (decide (type p = BOOL)) as [Hbool|Hbool].
    + rewrite Param_Set_bool in Hset by done. unfold assign in Hset.
      repeat case_decide; try done; injection Hset as <-;
        by rewrite lookup_insert_ne.
    + rewrite Param_Set_converts in Hset by done.
      by eapply set_converted_other.
Qed.

(** A word bound through a vector destination is appended. *)
Lemma Param_Set_appends (p : Param) (value : string) (v : datum) (l : list datum)
    (st : gmap addr cell) :
  type p ≠ BOOL → xargs p ≠ 1 → value ≠ "" → conversion (type p) value = Some v →
  st !! destination p = Some (Vector l) →
  Param_Set p value st = Ok (<[destination p := Vector (l ++ [v])]> st).
Proof.
  intros Hbool Hx Hvalue Hconv Hcell. rewrite Param_Set_converts by done.
  unfold set_converted, push_back. rewrite Hconv, Hcell.
  destruct (Z.eqb_spec (xargs p) 1); done.
Qed.

End Binding.

(** ** An option of unbounded arity *)

Section Unbounded.

Context `{StdConv}.

Lemma words_at_cons_inv (args : list ascii) (range : Z * Z) (rest : list (Z * Z))
    (words : list string) :
  words_at args (range :: rest) = Some <$> words →
  ∃ word words', words = word :: words'
    ∧ substr args range.1 (range.2 - range.1) = Some word
    ∧ words_at args rest = Some <$> words'.
Proof.
  destruct words as [|word words']; simpl; [done|].
  intros [= Hword Hrest]. eauto.
Qed.

(** Once set, an entry stays set through the reading loop. *)
Lemma read_words_keeps_set (args : list ascii) (pos : list (Z * Z)) (r : reader)
    (f : flow) (key : string) (q : Param) :
  read_words args pos r = Ok f →
  map_find key (params_map (now r)) = Some q → set q = true →
  ∃ q', map_find key (params_map (world_of f)) = Some q' ∧ set q' = true.
Proof.
  intros Hread Hfind Hset. apply read_words_evolves in Hread.
  destruct (evolves_find _ _ _ _ Hread Hfind) as (q' & Hq' & _ & _ & _ & _ & Hkeep).
  eauto.
Qed.

Lemma unbounded_reads_on (args : list ascii) (key : string) (p : Param) :
  type p ≠ BOOL → xargs p = -1 →
  ∀ (rest : list (Z * Z)) (words : list string) (values : list datum)
    (r : reader) (q : Param) (l : list datum),
    readingAnOption r = false → parameter r = Some key → parameter_counter r < 0 →
    map_find key (params_map (now r)) = Some q → q = p ∨ q = with_set true p →
    memory (now r) !! destination p = Some (Vector l) →
    words_at args rest = Some <$> words →
    Forall2 (λ word v, conversion (type p) word = Some v) (bound_words words) values →
    ∃ r', read_words args rest r = Ok (Next r')
      ∧ readingAnOption r' = false ∧ parameter r' = Some key
      ∧ memory (now r') = <[destination p := Vector (l ++ values)]> (memory (now r))
      ∧ map_find key (params_map (now r'))
        = Some (match rest with [] => q | _ => with_set true p end).
Proof.
  intros Hbool Hx. induction rest as [|range rest IH];
    intros words values r q l Hmode Hparam Hcount Hfind Hq Hcell Hwords Hvalues.
  - destruct words; [|done]. apply Forall2_nil_inv_l in Hvalues as ->.
    exists r. simpl. rewrite app_nil_r, insert_id by done. done.
  - apply words_at_cons_inv in Hwords as (word & words' & -> & Hword & Hwords).
    assert (Hsame : ∀ value st, Param_Set q value st = Param_Set p value st).
    { intros value st. destruct Hq as [->| ->]; reflexivity. }
    assert (Hstep : ∀ st', Param_Set q word (memory (now r)) = Ok st' →
              read_word args range r
              = Ok (Next (mkReader false (Some key) (parameter_counter r - 1)
                            (mkWorld (map_update key (with_set true) (params_map (now r)))
                                     st')))).
    { intros st' Hset. unfold read_word. rewrite Hword, Hmode, Hparam, Hfind, Hset. simpl.
      destruct (Z.eqb_spec (parameter_counter r - 1) 0); [lia|].
      destruct (Z.ltb_spec (parameter_counter r - 1) 0); [done|lia]. }
    assert (Hmarked : map_find key (map_update key (with_set true) (params_map (now r)))
                      = Some (with_set true p)).
    { rewrite map_find_update, decide_True, Hfind by done.
      destruct Hq as [->| ->]; reflexivity. }
    destruct (decide (word = "")) as [->|Hne].
    + unfold bound_words in Hvalues. rewrite filter_cons_False in Hvalues by tauto.
      specialize (Hstep (memory (now r)) (Param_Set_empty _ _)).
      match type of Hstep with _ = Ok (Next ?r1) =>
        destruct (IH words' values r1 (with_set true p) l)
          as (r' & Hr' & Hmode' & Hparam' & Hmem & Hkey)
      end; simpl; try done; [lia | by right |].
      exists r'. simpl. rewrite Hstep. simpl. rewrite Hr'.
      repeat split; try done.
      rewrite Hkey. by destruct rest.
    + unfold bound_words in Hvalues. rewrite filter_cons_True in Hvalues by done.
      apply Forall2_cons_inv_l in Hvalues as (v & values' & Hv & Hvalues & ->).
      assert (Hset : Param_Set q word (memory (now r))
                     = Ok (<[destination p := Vector (l ++ [v])]> (memory (now r)))).
      { rewrite Hsame. apply Param_Set_appends; try done. lia. }
      specialize (Hstep _ Hset).
      match type of Hstep with _ = Ok (Next ?r1) =>
        destruct (IH words' values' r1 (with_set true p) (l ++ [v]))
          as (r' & Hr' & Hmode' & Hparam' & Hmem & Hkey)
      end; simpl; try done; [lia | by right | by rewrite lookup_insert_eq |].
      exists r'. simpl. rewrite Hstep. simpl. rewrite Hr'.
      repeat split; try done.
      * rewrite Hmem. simpl. by rewrite insert_insert_eq, <- app_assoc.
      * rewrite Hkey. by destruct rest.
Qed.

(** C7, as the code has it: an option registered with the arity [-1] and
    met where an option is read takes every word up to the end of the
    input; the reader is still reading values for it at the end; its entry
    is set as soon as one word has followed; and every word that is not
    empty is appended, in order, to the vector it is bound to, so that the
    vector grows by the number of the non-empty words. *)
Theorem unbounded_option_reads_to_the_end (args : list ascii) (r : reader)
    (range : Z * Z) (rest : list (Z * Z)) (key : string) (p : Param)
    (l : list datum) (words : list string) (values : list datum) :
  readingAnOption r = true →
  substr args range.1 (range.2 - range.1) = Some key →
  map_find key (params_map (now r)) = Some p →
  type p ≠ BOOL → xargs p = -1 →
  memory (now r) !! destination p = Some (Vector l) →
  words_at args rest = Some <$> words →
  Forall2 (λ word v, conversion (type p) word = Some v) (bound_words words) values →
  ∃ r', read_words args (range :: rest) r = Ok (Next r')
    ∧ readingAnOption r' = false ∧ parameter r' = Some key
    ∧ memory (now r') !! destination p = Some (Vector (l ++ values))
    ∧ length values = length (bound_words words)
    ∧ (rest ≠ [] → ∃ q, map_find key (params_map (now r')) = Some q ∧ set q = true).
Proof.
  intros Hmode Hword Hfind Hbool Hx Hcell Hwords Hvalues.
  pose (r1 := mkReader false (Some key) (xargs p) (now r)).
  assert (Hfirst : read_word args range r = Ok (Next r1)).
  { unfold read_word. rewrite Hword, Hmode, Hfind.
    by rewrite bool_decide_eq_true_2. }
  destruct (unbounded_reads_on args key p Hbool Hx rest words values r1 p l)
    as (r' & Hr' & Hmode' & Hparam' & Hmem & Hkey); simpl; try done; [lia | by left |].
  exists r'. simpl. rewrite Hfirst. simpl. rewrite Hr'.
  repeat split; try done.
  - rewrite Hmem. simpl. by rewrite lookup_insert_eq.
  - symmetry. by eapply Forall2_length.
  - intros Hrest. rewrite Hkey. destruct rest; [done|]. eauto.
Qed.

End Unbounded.

Lemma unbounded_option_reads_to_the_end_witness :
  let args := list_ascii_of_string ("--files a " +:+ Scenario.quote +:+ Scenario.quote
                                    +:+ " b ") in
  let r := start Scenario.files_world in
  let p := mkParam STRING 1%N "--files" "The files to read." (-1) true false "" in
  let words := ["a"; ""; "b"] in
  let values := [VString "a"; VString "b"] in
  (readingAnOption r = true
   ∧ substr args (0, 7).1 ((0, 7).2 - (0, 7).1) = Some "--files"
   ∧ map_find "--files" (params_map (now r)) = Some p
   ∧ type p ≠ BOOL ∧ xargs p = -1
   ∧ memory (now r) !! destination p = Some (Vector [])
   ∧ words_at args [(8, 9); (11, 11); (13, 14)] = Some <$> words
   ∧ Forall2 (λ word v, conversion (type p) word = Some v) (bound_words words) values)
  ∧ ∃ r', read_words args [(0, 7); (8, 9); (11, 11); (13, 14)] r = Ok (Next r')
      ∧ readingAnOption r' = false ∧ parameter r' = Some "--files"
      ∧ memory (now r') !! destination p = Some (Vector ([] ++ values))
      ∧ length values = length (bound_words words)
      ∧ ([(8, 9); (11, 11); (13, 14)] ≠ []
         → ∃ q, map_find "--files" (params_map (now r')) = Some q ∧ set q = true).
Proof.
  intros args r p words values.
  assert (H1 : readingAnOption r = true) by reflexivity.
  assert (H2 : substr args (0, 7).1 ((0, 7).2 - (0, 7).1) = Some "--files") by run.
  assert (H3 : map_find "--files" (params_map (now r)) = Some p) by run.
  assert (H4 : type p ≠ BOOL) by discriminate.
  assert (H5 : xargs p = -1) by reflexivity.
  assert (H6 : memory (now r) !! destination p = Some (Vector [])) by run.
  assert (H7 : words_at args [(8, 9); (11, 11); (13, 14)] = Some <$> words) by run.
  assert (H8 : Forall2 (λ word v, conversion (type p) word = Some v)
                       (bound_words words) values)
    by (repeat constructor).
  split; [by repeat split|].
  exact (unbounded_option_reads_to_the_end args r (0, 7) _ "--files" p [] words values
           H1 H2 H3 H4 H5 H6 H7 H8).
Defined.

(** C7, the claim at an empty word: of the three words that follow
    [--files], the empty one in quotes is not appended, and the vector ends
    with two elements. *)
Lemma empty_word_is_not_appended :
  let argv := ["prog"; "--files"; "a"; Scenario.quote +:+ Scenario.quote; "b"] in
  words_of argv = Some [Some "--files"; Some "a"; Some ""; Some "b"]
  ∧ cell_after (bind Scenario.files (argparse argv)) 1%N
    = Ok (Some (Vector [VString "a"; VString "b"])).
Proof. split; run. Qed.

(** ** A default and the parse *)

Section Defaults.

Context `{StdConv}.

Lemma Param_new_default (heap_set : bool) (t : TYPE) (d : addr) (key help : string)
    (req : bool) (default : string) (v : datum) (st : gmap addr cell) :
  t ≠ BOOL → default ≠ "" → conversion t default = Some v →
  Param_new heap_set t d key help 1 req default st
  = Ok (mkParam t d key help 1 req heap_set default, <[d := Scalar v]> st).
Proof.
  intros Hbool Hdefault Hconv. unfold Param_new.
  destruct (decide (t = BOOL)); [done|]. simpl.
  rewrite Param_Set_converts by done. unfold set_converted. simpl.
  by rewrite Hconv.
Qed.

(** The invariant of the reading loop for an option that no word names
    and whose variable no named option shares. *)
Lemma read_word_apart (args : list ascii) (range : Z * Z) (r : reader) (f : flow)
    (m : registry) (key word : string) (entry : Param) (c : cell) :
  evolves m (params_map (now r)) →
  map_find key (params_map (now r)) = Some entry →
  memory (now r) !! destination entry = Some c →
  (∀ k, readingAnOption r = false → parameter r = Some k → apart m key (destination entry) k) →
  substr args range.1 (range.2 - range.1) = Some word →
  (readingAnOption r = true → apart m key (destination entry) word) →
  read_word args range r = Ok f →
  map_find key (params_map (world_of f)) = Some entry
  ∧ memory (world_of f) !! destination entry = Some c
  ∧ ∀ r', f = Next r' →
      ∀ k, readingAnOption r' = false → parameter r' = Some k →
           apart m key (destination entry) k.
Proof.
  intros Hev Hkey Hcell Hparam Hword Hapart. unfold read_word. rewrite Hword.
  destruct (readingAnOption r) eqn:Hmode.
  - specialize (Hapart eq_refl).
    destruct (map_find word (params_map (now r))) as [param|] eqn:Hfind; [|done].
    case_bool_decide.
    + intros [= <-]. simpl. split; [done|]. split; [done|].
      intros r' [= <-] k _ [= <-]. done.
    + destruct (Param_Set param "true" (memory (now r))) as [st'| | | |] eqn:Hset;
        simpl; try done.
      destruct (evolves_find_inv _ _ _ _ Hev Hfind) as (q & Hq & _ & Hdest & _).
      assert (Hst' : st' !! destination entry = Some c).
      { erewrite Param_Set_other; [done..|]. rewrite Hdest.
        intros Heq. by apply (proj2 Hapart q). }
      case_bool_decide; intros [= <-]; simpl; (split; [done|]); (split; [done|]).
      * done.
      * intros r' [= <-]. simpl. done.
  - destruct (parameter r) as [at_key|] eqn:Hat; [|done].
    specialize (Hparam at_key eq_refl eq_refl). destruct Hparam as [Hne Hdst].
    destruct (map_find at_key (params_map (now r))) as [param|] eqn:Hfind; [|done].
    destruct (Param_Set param word (memory (now r))) as [st'| | | |] eqn:Hset;
      simpl; try done.
    destruct (evolves_find_inv _ _ _ _ Hev Hfind) as (q & Hq & _ & Hdest & _).
    assert (Hst' : st' !! destination entry = Some c).
    { erewrite Param_Set_other; [done..|]. rewrite Hdest.
      intros Heq. by apply (Hdst q). }
    assert (Hmarked : map_find key (map_update at_key (with_set true) (params_map (now r)))
                      = Some entry).
    { by rewrite map_find_update, decide_False. }
    destruct (parameter_counter r - 1 =? 0);
      [|destruct (parameter_counter r - 1 <? 0)];
      intros [= <-]; simpl; (split; [done|]); (split; [done|]);
      intros r' [= <-]; simpl; try done;
      intros k _ [= <-]; done.
Qed.

Lemma read_words_apart (args : list ascii) (m : registry) (key : string)
    (entry : Param) (c : cell) :
  ∀ (pos : list (Z * Z)) (words : list string) (r : reader) (f : flow),
    evolves m (params_map (now r)) →
    map_find key (params_map (now r)) = Some entry →
    memory (now r) !! destination entry = Some c →
    (∀ k, readingAnOption r = false → parameter r = Some k →
          apart m key (destination entry) k) →
    words_at args pos = Some <$> words →
    Forall (apart m key (destination entry)) words →
    read_words args pos r = Ok f →
    map_find key (params_map (world_of f)) = Some entry
    ∧ memory (world_of f) !! destination entry = Some c.
Proof.
  induction pos as [|range pos IH]; intros words r f Hev Hkey Hcell Hparam Hwords Hall.
  - simpl. by intros [= <-].
  - apply words_at_cons_inv in Hwords as (word & words' & -> & Hword & Hwords).
    apply Forall_cons in Hall as [Hword_apart Hall]. simpl.
    destruct (read_word args range r) as [g| | | |] eqn:Hstep; simpl; try done.
    pose proof (read_word_evolves _ _ _ _ Hstep) as Hev'.
    destruct (read_word_apart _ _ _ _ m key word entry c Hev Hkey Hcell Hparam Hword
                (λ _, Hword_apart) Hstep) as (Hkey' & Hcell' & Hparam').
    destruct g as [r'|w'].
    + intros Hrest. eapply (IH words' r'); try done.
      * eapply evolves_trans; [exact Hev | exact Hev'].
      * by apply Hparam'.
    + by intros [= <-].
Qed.

(** An option that no word of the invocation names, bound to a variable
    that no option named by a word shares, comes out of a parse that
    returns with its entry and its variable as they were. *)
Lemma untouched_option_keeps_its_variable (argv : list string) (w w' : world)
    (args : list ascii) (pos : list (Z * Z)) (words : list string)
    (key : string) (entry : Param) (c : cell) :
  map_find key (params_map w) = Some entry →
  memory w !! destination entry = Some c →
  working_string argv = Some args →
  word_positions args = Some pos →
  words_at args pos = Some <$> words →
  Forall (apart (params_map w) key (destination entry)) words →
  argparse argv w = Ok w' →
  map_find key (params_map w') = Some entry
  ∧ memory w' !! destination entry = Some c.
Proof.
  intros Hkey Hcell Hargs Hpos Hwords Hall. unfold argparse, word_pass.
  rewrite Hargs, Hpos.
  destruct (read_words args pos (start w)) as [f| | | |] eqn:Hread; simpl; try done.
  destruct (read_words_apart args (params_map w) key entry c pos words (start w) f)
    as [Hkey' Hcell']; try done; [apply evolves_refl|].
  destruct f as [r'|w'']; simpl in *.
  - destruct (check_required (params_map (now r'))); simpl; try done.
    by intros [= <-].
  - by intros [= <-].
Qed.

(** A registration that does not call [Param::Set] with a value, or is
    bound to another variable, leaves the variable as it is; one under
    another long phrase leaves the entry as it is. *)
Lemma register_keeps (asked : Param) (w w' : world) (key : string) (d : addr) :
  register asked w = Ok w' →
  longPhrase asked ≠ key →
  (writes_on_registration asked → destination asked ≠ d) →
  map_find key (params_map w') = map_find key (params_map w)
  ∧ memory w' !! d = memory w !! d.
Proof.
  unfold register, addp_with. intros Hreg Hkey Hquiet.
  destruct (Param_new _ _ _ _ _ _ _ _ _) as [[p st']| | | |] eqn:Hnew;
    simpl in Hreg; try done.
  injection Hreg as <-. simpl. split.
  { by rewrite map_find_assign, decide_False. }
  unfold Param_new in Hnew.
  destruct (decide (type asked = BOOL)) as [Hbool|Hbool].
  - assert (Hd : d ≠ destination asked).
    { intros ->. by apply Hquiet; [left|]. }
    destruct (decide (defaultValue asked ≠ "")).
    + destruct (Param_Set _ (defaultValue asked) _) as [st''| | | |] eqn:Hset;
        simpl in Hnew; try done.
      injection Hnew as _ <-. by apply (Param_Set_other _ _ _ _ d) in Hset.
    + destruct (Param_Set _ "false" _) as [st''| | | |] eqn:Hset;
        simpl in Hnew; try done.
      injection Hnew as _ <-. by apply (Param_Set_other _ _ _ _ d) in Hset.
  - destruct (Z.eqb_spec (xargs asked) 1) as [Hx|Hx]; [|by injection Hnew as _ <-].
    destruct (Param_Set _ (defaultValue asked) _) as [st''| | | |] eqn:Hset;
      simpl in Hnew; try done.
    injection Hnew as _ <-.
    destruct (decide (defaultValue asked = "")) as [Hdefault|Hdefault].
    + rewrite Hdefault, Param_Set_empty in Hset. by injection Hset as <-.
    + apply (Param_Set_other _ _ _ _ d) in Hset; [done|].
      intros ->. by apply Hquiet; [right|].
Qed.

Lemma register_all_keeps (later : list Param) (key : string) (d : addr) :
  ∀ w final : world,
    Forall (λ asked, longPhrase asked ≠ key
                     ∧ (writes_on_registration asked → destination asked ≠ d)) later →
    register_all later w = Ok final →
    map_find key (params_map final) = map_find key (params_map w)
    ∧ memory final !! d = memory w !! d.
Proof.
  induction later as [|asked later IH]; intros w final Hall; simpl.
  - by intros [= <-].
  - apply Forall_cons in Hall as [[Hkey Hquiet] Hall].
    destruct (register asked w) as [w1| | | |] eqn:Hreg; simpl; try done.
    intros Hrest.
    destruct (register_keeps asked w w1 key d Hreg Hkey Hquiet) as [E1 E2].
    rewrite <- E1, <- E2. by apply IH.
Qed.

(** C6, as the code has it: registering a non-boolean option of arity 1
    with a non-empty default that converts writes the converted default
    to the destination, at registration.  The default is still there, and
    the descriptor as registration made it, after any further
    registrations that use other long phrases and of which none that
    writes at registration (a boolean option, or one of arity 1 with a
    default) is bound to the same destination; and then also after a
    parse that returns, whose words neither name the option nor name an
    option bound to the same destination. *)
Theorem default_is_bound_at_registration (heap_set : bool) (t : TYPE) (d : addr)
    (key help : string) (req : bool) (default : string) (v : datum) (w : world)
    (later : list Param) (final : world) :
  t ≠ BOOL → default ≠ "" → conversion t default = Some v →
  let entry := mkParam t d key help 1 req heap_set default in
  let registered :=
    mkWorld (map_assign key entry (params_map w)) (<[d := Scalar v]> (memory w)) in
  Forall (λ asked, longPhrase asked ≠ key
                   ∧ (writes_on_registration asked → destination asked ≠ d)) later →
  register_all later registered = Ok final →
  addp_with heap_set t d key help 1 req default w = Ok registered
  ∧ memory final !! d = Some (Scalar v)
  ∧ map_find key (params_map final) = Some entry
  ∧ ∀ argv args pos words w',
      working_string argv = Some args →
      word_positions args = Some pos →
      words_at args pos = Some <$> words →
      Forall (apart (params_map final) key d) words →
      argparse argv final = Ok w' →
      memory w' !! d = Some (Scalar v)
      ∧ map_find key (params_map w') = Some entry.
Proof.
  intros Hbool Hdefault Hconv entry registered Hlater Hfinal.
  destruct (register_all_keeps later key d registered final Hlater Hfinal)
    as [Hentry Hcell].
  simpl in Hentry, Hcell.
  rewrite map_find_assign, decide_True in Hentry by done.
  rewrite lookup_insert_eq in Hcell.
  split; [|split; [done|split; [done|]]].
  - unfold addp_with. by erewrite Param_new_default.
  - intros argv args pos words w' Hargs Hpos Hwords Hall Hparse.
    by destruct (untouched_option_keeps_its_variable argv final w' args pos words
                   key entry (Scalar v)) as [Hkey' Hcell'].
Qed.

End Defaults.

Lemma default_is_bound_at_registration_witness :
  let w := Scenario.name_world in
  let entry := mkParam INT 2%N "--count" "How many." 1 false false "5" in
  let registered :=
    mkWorld (map_assign "--count" entry (params_map w))
            (<[2%N := Scalar (VInt 5)]> (memory w)) in
  let later := [mkParam BOOL 4%N "--fast" "Go fast." 1 true false "";
                mkParam INT 2%N "-n" "How many, for short." 1 false false ""] in
  let final :=
    mkWorld (map_assign "-n" (mkParam INT 2%N "-n" "How many, for short." 1 false false "")
               (map_assign "--fast" (mkParam BOOL 4%N "--fast" "Go fast." 1 false true "")
                  (params_map registered)))
            (<[4%N := Scalar (VBool false)]> (memory registered)) in
  let argv := ["prog"; "--fast"; "--name"; "x"] in
  let args := list_ascii_of_string "--fast --name x " in
  let w' := mkWorld (map_update "--name" (with_set true) (params_map final))
                    (<[1%N := Scalar (VString "x")]>
                       (<[4%N := Scalar (VBool true)]> (memory final))) in
  (INT ≠ BOOL ∧ "5" ≠ "" ∧ conversion INT "5" = Some (VInt 5)
   ∧ Forall (λ asked, longPhrase asked ≠ "--count"
                      ∧ (writes_on_registration asked → destination asked ≠ 2%N)) later
   ∧ register_all later registered = Ok final)
  ∧ (working_string argv = Some args
     ∧ word_positions args = Some [(0, 6); (7, 13); (14, 15)]
     ∧ words_at args [(0, 6); (7, 13); (14, 15)] = Some <$> ["--fast"; "--name"; "x"]
     ∧ Forall (apart (params_map final) "--count" 2%N) ["--fast"; "--name"; "x"]
     ∧ argparse argv final = Ok w')
  ∧ addp_with false INT 2%N "--count" "How many." 1 false "5" w = Ok registered
  ∧ memory final !! 2%N = Some (Scalar (VInt 5))
  ∧ map_find "--count" (params_map final) = Some entry
  ∧ memory w' !! 2%N = Some (Scalar (VInt 5))
  ∧ map_find "--count" (params_map w') = Some entry.
Proof.
  intros w entry registered later final argv args w'.
  assert (H1 : INT ≠ BOOL) by discriminate.
  assert (H2 : "5" ≠ "") by discriminate.
  assert (H3 : conversion INT "5" = Some (VInt 5)) by run.
  assert (H4 : Forall (λ asked, longPhrase asked ≠ "--count"
                                ∧ (writes_on_registration asked → destination asked ≠ 2%N))
                      later).
  { repeat constructor; try discriminate.
    intros [Hbool|[_ Hdefault]]; [discriminate | done]. }
  assert (H5 : register_all later registered = Ok final) by run.
  destruct (default_is_bound_at_registration false INT 2%N "--count" "How many." false
              "5" (VInt 5) w later final H1 H2 H3 H4 H5)
    as (Hreg & Hcell & Hentry & Hparse).
  assert (H6 : working_string argv = Some args) by run.
  assert (H7 : word_positions args = Some [(0, 6); (7, 13); (14, 15)]) by run.
  assert (H8 : words_at args [(0, 6); (7, 13); (14, 15)]
               = Some <$> ["--fast"; "--name"; "x"]) by run.
  assert (H9 : Forall (apart (params_map final) "--count" 2%N) ["--fast"; "--name"; "x"]).
  { repeat constructor; try discriminate;
      intros q Hq; vm_compute in Hq; try discriminate;
      injection Hq as <-; discriminate. }
  assert (H10 : argparse argv final = Ok w') by run.
  split; [by repeat split|]. split; [by repeat split|].
  split; [exact Hreg|]. split; [exact Hcell|]. split; [exact Hentry|].
  exact (Hparse argv _ _ _ _ H6 H7 H8 H9 H10).
Defined.

(** C6, the claim at two options bound to one variable.  [--count] has the
    default 5 and does not occur in the invocation; [-c] is bound to the
    same variable, and after [-c 7] the variable holds 7.  And when
    [--number], registered after [--count] on the same variable, has the
    default 9, the variable holds 9 from that registration on, also after
    a parse of no words at all. *)
Lemma default_is_overwritten_through_shared_destination :
  let argv := ["prog"; "-c"; "7"] in
  entry_after Scenario.synonyms "--count"
  = Ok (Some (mkParam INT 1%N "--count" "How many." 1 false false "5"))
  ∧ cell_after Scenario.synonyms 1%N = Ok (Some (Scalar (VInt 5)))
  ∧ words_of argv = Some [Some "-c"; Some "7"]
  ∧ cell_after (bind Scenario.synonyms (argparse argv)) 1%N
    = Ok (Some (Scalar (VInt 7)))
  ∧ entry_after Scenario.two_defaults "--count"
    = Ok (Some (mkParam INT 1%N "--count" "How many." 1 false false "5"))
  ∧ cell_after Scenario.two_defaults 1%N = Ok (Some (Scalar (VInt 9)))
  ∧ words_of ["prog"] = Some []
  ∧ cell_after (bind Scenario.two_defaults (argparse ["prog"])) 1%N
    = Ok (Some (Scalar (VInt 9))).
Proof. repeat split; run. Qed.

(** ** Searching the working string *)

Lemma find_found (c : ascii) (from : Z) (s : list ascii) (p : Z) :
  find c from s = p → p ≠ npos →
  from ≤ p < Z.of_nat (length s)
  ∧ s !! Z.to_nat p = Some c
  ∧ ∀ i : nat, from ≤ Z.of_nat i < p → s !! i ≠ Some c.
Proof.
  unfold find, npos. destruct (Z.ltb_spec from 0) as [|Hfrom]; [congruence|].
  destruct (list_find _ _) as [[i x]|] eqn:Hfind; [|congruence].
  intros <- _. apply list_find_Some in Hfind as (Hi & -> & Hbefore).
  rewrite lookup_drop in Hi.
  replace (Z.to_nat (from + Z.of_nat i)) with (Z.to_nat from + i)%nat by lia.
  split; [|split; [done|]].
  - apply lookup_lt_Some in Hi. lia.
  - intros j Hj Hc.
    apply (Hbefore (j - Z.to_nat from)%nat c); [|lia|done].
    rewrite lookup_drop. by replace (Z.to_nat from + (j - Z.to_nat from))%nat with j by lia.
Qed.

Lemma find_none (c : ascii) (from : Z) (s : list ascii) :
  find c from s = npos → 0 ≤ from →
  ∀ i : nat, from ≤ Z.of_nat i → s !! i ≠ Some c.
Proof.
  unfold find, npos. destruct (Z.ltb_spec from 0) as [|Hfrom]; [lia|].
  destruct (list_find _ _) as [[i x]|] eqn:Hfind; [lia|].
  intros _ _ j Hj Hc. apply list_find_None in Hfind.
  rewrite Forall_lookup in Hfind.
  apply (Hfind (j - Z.to_nat from)%nat c); [|done].
  rewrite lookup_drop. by replace (Z.to_nat from + (j - Z.to_nat from))%nat with j by lia.
Qed.

Lemma find_range (c : ascii) (from : Z) (s : list ascii) :
  find c from s = npos ∨ (from ≤ find c from s < Z.of_nat (length s) ∧ 0 ≤ from).
Proof.
  destruct (decide (find c from s = npos)) as [|Hne]; [by left|right].
  split; [by apply (find_found c from s)|].
  unfold find in Hne. destruct (Z.ltb_spec from 0); [done|lia].
Qed.

Lemma find_first_not_of_range (c : ascii) (from : Z) (s : list ascii) :
  find_first_not_of c from s = npos
  ∨ (from ≤ find_first_not_of c from s < Z.of_nat (length s) ∧ 0 ≤ from).
Proof.
  unfold find_first_not_of, npos. destruct (Z.ltb_spec from 0) as [|Hfrom]; [by left|].
  destruct (list_find _ _) as [[i x]|] eqn:Hfind; [right|by left].
  apply list_find_Some in Hfind as (Hi & _ & _).
  rewrite lookup_drop in Hi. apply lookup_lt_Some in Hi. lia.
Qed.

Lemma char_at_lookup (s : list ascii) (i : Z) (c : ascii) :
  c ≠ chr_nul → (char_at s i = c ↔ s !! Z.to_nat i = Some c).
Proof.
  unfold char_at. intros Hc. destruct (s !! Z.to_nat i) as [x|]; simpl; split; congruence.
Qed.

(** ** The loop that blanks the [=] signs *)

(** The loop ends within the length of the string. *)
Lemma equals_loop_ends (fuel : nat) (p : Z) (s : list ascii) :
  p = npos ∨ (0 ≤ p ≤ Z.of_nat (length s) ∧ Z.of_nat (length s) - p < Z.of_nat fuel) →
  ∃ r, equals_loop fuel p s = Some r.
Proof.
  revert p s. induction fuel as [|fuel IH]; intros p s Hp.
  - destruct Hp as [->|Hp]; [by exists s|lia].
  - simpl. destruct (Z.eqb_spec p npos) as [|Hne]; [by exists s|].
    destruct Hp as [|Hp]; [done|].
    match goal with |- ∃ r, equals_loop fuel (find _ _ ?s') ?s' = _ => set (s1 := s') end.
    assert (Hlen : length s1 = length s).
    { unfold s1. destruct (_ && _); [apply length_insert|done]. }
    apply IH.
    destruct (find_range chr_equals (p + 1) s1) as [Hnone|[Hfound _]]; [by left|right].
    lia.
Qed.

Lemma working_string_total (argv : list string) : is_Some (working_string argv).
Proof.
  unfold working_string.
  destruct (equals_loop_ends (S (length (join_args (tail argv))))
              (find chr_space 0 (join_args (tail argv))) (join_args (tail argv)))
    as [r Hr]; [|by rewrite Hr].
  destruct (find_range chr_space 0 (join_args (tail argv))) as [|[? _]]; [by left|right; lia].
Qed.

Lemma equals_loop_spec (fuel : nat) :
  ∀ (p : Z) (s r : list ascii),
    equals_loop fuel p s = Some r →
    p = npos ∨ 0 ≤ p →
    (p ≠ npos → s !! Z.to_nat p ≠ Some chr_backslash) →
    ∀ i : nat,
      (blanked s p i → (i < length s)%nat → r !! i = Some chr_space)
      ∧ (¬ blanked s p i → r !! i = s !! i).
Proof.
  induction fuel as [|fuel IH]; intros p s r Hloop Hp Hhere i.
  - simpl in Hloop. destruct (Z.eqb_spec p npos) as [->|]; [|done].
    injection Hloop as <-. split; [by intros [? _]|done].
  - simpl in Hloop. destruct (Z.eqb_spec p npos) as [->|Hne].
    { injection Hloop as <-. split; [by intros [? _]|done]. }
    destruct Hp as [|Hp]; [done|]. specialize (Hhere Hne).
    set (ip := Z.to_nat p) in *.
    assert (Hip : Z.of_nat ip = p) by (unfold ip; lia).
    set (cond := (0 <? p) && bool_decide (char_at s (p - 1) ≠ chr_backslash)) in *.
    assert (Hcond : cond = true ↔ (0 < ip)%nat ∧ s !! (ip - 1)%nat ≠ Some chr_backslash).
    { unfold cond. rewrite andb_true_iff, Z.ltb_lt, bool_decide_eq_true.
      rewrite char_at_lookup by done.
      replace (Z.to_nat (p - 1)) with (ip - 1)%nat by lia. split; intros [? ?]; split; try done; lia. }
    set (s1 := if cond then <[ip := chr_space]> s else s) in *.
    assert (Hlen : length s1 = length s).
    { unfold s1. destruct cond; [apply length_insert|done]. }
    assert (Hother : ∀ j : nat, j ≠ ip → s1 !! j = s !! j).
    { intros j Hj. unfold s1. destruct cond; [|done]. by rewrite list_lookup_insert_ne. }
    assert (Hat : s1 !! ip ≠ Some chr_backslash).
    { unfold s1. destruct cond; [|done].
      destruct (decide (ip < length s)%nat).
      - by rewrite list_lookup_insert_eq.
      - by rewrite list_insert_ge by lia. }
    set (p1 := find chr_equals (p + 1) s1) in *.
    assert (Hp1 : p1 = npos ∨ 0 ≤ p1).
    { destruct (find_range chr_equals (p + 1) s1) as [|[? ?]]; [by left|right; lia]. }
    assert (Hhere1 : p1 ≠ npos → s1 !! Z.to_nat p1 ≠ Some chr_backslash).
    { intros Hne1. destruct (find_found chr_equals (p + 1) s1 p1 eq_refl Hne1) as (_ & -> & _).
      done. }
    destruct (IH p1 s1 r Hloop Hp1 Hhere1 i) as [IHa IHb].
    assert (Hbefore : (i ≤ ip)%nat → ¬ blanked s1 p1 i).
    { intros Hi (Hne1 & Hle & _).
      destruct (find_found chr_equals (p + 1) s1 p1 eq_refl Hne1) as (? & _). lia. }
    destruct (Nat.lt_trichotomy i ip) as [Hlt|[->|Hgt]].
    + rewrite IHb, Hother by (auto with lia).
      split; [|done]. intros (_ & ? & _). lia.
    + rewrite IHb by auto. split.
      * intros (_ & _ & _ & Hpos & Hprev) Hin.
        unfold s1. rewrite (proj2 Hcond) by done. by rewrite list_lookup_insert_eq.
      * intros Hnot. unfold s1. destruct cond eqn:Hc; [|done].
        exfalso. apply Hnot. destruct (proj1 Hcond eq_refl).
        repeat split; try done; [lia | by left].
    + assert (Hprev : s1 !! (i - 1)%nat ≠ Some chr_backslash
                      ↔ s !! (i - 1)%nat ≠ Some chr_backslash).
      { destruct (decide (i - 1 = ip)%nat) as [->|Hn]; [tauto|]. by rewrite Hother. }
      assert (Hequiv : blanked s p i ↔ blanked s1 p1 i).
      { split.
        - intros (_ & _ & [Hi|Heq] & Hpos & Hback); [lia|].
          rewrite <- Hother in Heq by lia.
          assert (Hne1 : p1 ≠ npos).
          { intros Hnone. apply (find_none chr_equals (p + 1) s1 Hnone ltac:(lia) i); [lia|done]. }
          destruct (find_found chr_equals (p + 1) s1 p1 eq_refl Hne1) as (? & _ & Hfirst).
          repeat split; try done; [|by right|by apply Hprev].
          destruct (Z.le_gt_cases p1 (Z.of_nat i)) as [|Hgt1]; [done|].
          exfalso. apply (Hfirst i); [lia|done].
        - intros (Hne1 & Hle & Hor & Hpos & Hback).
          destruct (find_found chr_equals (p + 1) s1 p1 eq_refl Hne1) as (? & Hp1eq & _).
          assert (Heq : s1 !! i = Some chr_equals).
          { destruct Hor as [Hi|]; [|done]. by rewrite <- Hi, Nat2Z.id in Hp1eq. }
          rewrite Hother in Heq by lia.
          repeat split; try done; [lia | by right | by apply Hprev]. }
      split.
      * intros Hb Hin. apply IHa; [by apply Hequiv | by rewrite Hlen].
      * intros Hnot. rewrite IHb by (by rewrite <- Hequiv). apply Hother. lia.
Qed.

Lemma get_string_of_list_ascii (l : list ascii) (i : nat) :
  String.get i (string_of_list_ascii l) = l !! i.
Proof.
  revert i. induction l as [|c l IH]; intros [|i]; simpl; auto.
Qed.

(** C10: the [=] signs are blanked before the words are cut, so in every
    word that the scan records after the first space of the joined string,
    quoted ones included, a character that was an [=] with no backslash
    right before it is a space in the word that is bound. *)
Theorem equals_sign_in_later_word_is_blanked (argv : list string) (args : list ascii)
    (pos : list (Z * Z)) (range : Z * Z) (word : string) (i : nat) :
  let joined := join_args (tail argv) in
  working_string argv = Some args →
  word_positions args = Some pos → range ∈ pos →
  0 ≤ find chr_space 0 joined < range.1 →
  substr args range.1 (range.2 - range.1) = Some word →
  range.1 ≤ Z.of_nat i < range.2 →
  joined !! i = Some chr_equals →
  joined !! (i - 1)%nat ≠ Some chr_backslash →
  String.get (i - Z.to_nat range.1) word = Some chr_space.
Proof.
  intros joined Hargs _ _ Hfirst Hword Hi Heq Hback.
  unfold working_string in Hargs. fold joined in Hargs.
  set (p0 := find chr_space 0 joined) in *.
  assert (Hp0 : p0 ≠ npos) by (unfold npos; lia).
  destruct (find_found chr_space 0 joined p0 eq_refl Hp0) as (_ & Hspace & _).
  destruct (equals_loop_spec _ p0 joined args Hargs ltac:(right; lia)
              ltac:(intros _; by rewrite Hspace) i) as [Hblank _].
  assert (Hargs_i : args !! i = Some chr_space).
  { apply Hblank; [|by eapply lookup_lt_Some].
    repeat split; try done; [lia | by right | lia]. }
  unfold substr in Hword.
  destruct (_ || _); [done|]. injection Hword as <-.
  destruct (Z.ltb_spec (range.2 - range.1) 0); [lia|].
  rewrite get_string_of_list_ascii, lookup_take_lt, lookup_drop by lia.
  by replace (Z.to_nat range.1 + (i - Z.to_nat range.1))%nat with i by lia.
Qed.

Lemma equals_sign_in_later_word_is_blanked_witness :
  let argv := ["prog"; "--name"; Scenario.quote +:+ "a=b" +:+ Scenario.quote] in
  let args := list_ascii_of_string ("--name " +:+ Scenario.quote +:+ "a b"
                                    +:+ Scenario.quote +:+ " ") in
  (working_string argv = Some args
   ∧ word_positions args = Some [(0, 6); (8, 11)]
   ∧ (8, 11) ∈ [(0, 6); (8, 11)]
   ∧ 0 ≤ find chr_space 0 (join_args (tail argv)) < (8, 11).1
   ∧ substr args (8, 11).1 ((8, 11).2 - (8, 11).1) = Some "a b"
   ∧ (8, 11).1 ≤ Z.of_nat 9 < (8, 11).2
   ∧ join_args (tail argv) !! 9%nat = Some chr_equals
   ∧ join_args (tail argv) !! (9 - 1)%nat ≠ Some chr_backslash)
  ∧ String.get (9 - Z.to_nat (8, 11).1) "a b" = Some chr_space
  ∧ cell_after (bind Scenario.name (argparse argv)) 1%N
    = Ok (Some (Scalar (VString "a b"))).
Proof.
  intros argv args.
  assert (H1 : working_string argv = Some args) by run.
  assert (H2 : word_positions args = Some [(0, 6); (8, 11)]) by run.
  assert (H3 : (8, 11) ∈ [(0, 6); (8, 11)]) by (apply list_elem_of_In; right; by left).
  assert (H4 : 0 ≤ find chr_space 0 (join_args (tail argv)) < (8, 11).1)
    by (vm_compute; split; congruence).
  assert (H5 : substr args (8, 11).1 ((8, 11).2 - (8, 11).1) = Some "a b") by run.
  assert (H6 : (8, 11).1 ≤ Z.of_nat 9 < (8, 11).2) by (simpl; lia).
  assert (H7 : join_args (tail argv) !! 9%nat = Some chr_equals) by run.
  assert (H8 : join_args (tail argv) !! (9 - 1)%nat ≠ Some chr_backslash)
    by (vm_compute; congruence).
  split; [by repeat split|]. split; [|run].
  exact (equals_sign_in_later_word_is_blanked argv args _ (8, 11) "a b" 9
           H1 H2 H3 H4 H5 H6 H7 H8).
Defined.

(** ** The word-boundary loop *)

Lemma scan_loop_done (fuel : nat) (args : list ascii) (p : Z) (pos : list (Z * Z)) :
  ¬ scanning args p → scan_loop fuel args p pos = Some pos.
Proof.
  intros Hdone.
  assert (Hguard : bool_decide (p ≠ npos)
                   && bool_decide (p ≠ Z.of_nat (length args) - 1) = false).
  { apply andb_false_iff. unfold scanning in Hdone.
    destruct (decide (p ≠ npos)); [right|left]; apply bool_decide_eq_false_2; tauto. }
  destruct fuel; simpl; by rewrite Hguard.
Qed.

Lemma scan_loop_turn (fuel : nat) (args : list ascii) (p : Z) (pos : list (Z * Z)) :
  scanning args p →
  scan_loop (S fuel) args p pos
  = scan_loop fuel args (next_word args p) (pos ++ [word_range args p]).
Proof.
  intros [Hp Hlast]. simpl.
  rewrite !bool_decide_eq_true_2 by done. simpl.
  unfold next_word, word_range, word_end.
  destruct (bool_decide (char_at args p = chr_quote)); reflexivity.
Qed.

Lemma scan_loop_out_of_fuel (args : list ascii) (p : Z) (pos : list (Z * Z)) :
  scanning args p → scan_loop 0 args p pos = None.
Proof. intros [Hp Hlast]. simpl. by rewrite !bool_decide_eq_true_2. Qed.

(** From a word with no end the loop comes back to where it began. *)
Lemma restarts_back (args : list ascii) (k : nat) :
  ∀ (p : Z) (fuel : nat) (pos : list (Z * Z)),
    restarts args k p →
    ((fuel ≤ k)%nat → scan_loop fuel args p pos = None)
    ∧ ((k < fuel)%nat →
       ∃ pos', scan_loop fuel args p pos
               = scan_loop (fuel - k - 1) args (find_first_not_of chr_space 0 args) pos').
Proof.
  induction k as [|k IH]; intros p fuel pos [Hscan Hrest].
  - split.
    + intros Hfuel. replace fuel with 0%nat by lia. by apply scan_loop_out_of_fuel.
    + intros Hfuel. destruct fuel as [|fuel]; [lia|].
      rewrite scan_loop_turn by done. unfold next_word. rewrite Hrest.
      replace (S fuel - 0 - 1)%nat with fuel by lia. eauto.
  - destruct fuel as [|fuel].
    + split; [intros _; by apply scan_loop_out_of_fuel | lia].
    + rewrite scan_loop_turn by done.
      destruct (IH (next_word args p) fuel (pos ++ [word_range args p]) Hrest) as [IHa IHb].
      split; [intros ?; apply IHa; lia|].
      intros Hfuel. destruct IHb as [pos' Hpos']; [lia|].
      exists pos'. by replace (S fuel - S k - 1)%nat with (fuel - k - 1)%nat by lia.
Qed.

Lemma restarts_forever (args : list ascii) (k : nat) :
  restarts args k (find_first_not_of chr_space 0 args) →
  ∀ (fuel : nat) (pos : list (Z * Z)),
    scan_loop fuel args (find_first_not_of chr_space 0 args) pos = None.
Proof.
  intros Hrestarts fuel. induction (lt_wf fuel) as [fuel _ IH]. intros pos.
  destruct (restarts_back args k _ fuel pos Hrestarts) as [Hshort Hlong].
  destruct (le_lt_dec fuel k) as [|Hlt]; [by apply Hshort|].
  destruct (Hlong Hlt) as [pos' ->]. apply IH. lia.
Qed.

(** Within the length of the string the loop either ends or meets a word
    with no end. *)
Lemma scan_loop_ends_or_restarts (args : list ascii) (fuel : nat) :
  ∀ (p : Z) (pos : list (Z * Z)),
    p = npos
    ∨ (0 ≤ p < Z.of_nat (length args) ∧ Z.of_nat (length args) - 1 - p ≤ Z.of_nat fuel) →
    is_Some (scan_loop fuel args p pos) ∨ ∃ k, restarts args k p.
Proof.
  induction fuel as [|fuel IH]; intros p pos Hp.
  - left. rewrite scan_loop_done; [done|]. intros [Hne Hlast].
    destruct Hp as [|Hp]; [done|]. lia.
  - destruct (decide (scanning args p)) as [Hscan|Hdone];
      [|left; by rewrite scan_loop_done].
    destruct Hscan as [Hne Hlast]. destruct Hp as [|Hp]; [done|].
    destruct (decide (word_end args p = npos)) as [Hend|Hend].
    { right. by exists 0%nat. }
    assert (Hafter : p + 1 ≤ word_end args p).
    { unfold word_end in *. destruct (bool_decide _).
      - by apply (find_found chr_quote (p + 1) args).
      - by apply (find_found chr_space (p + 1) args). }
    rewrite scan_loop_turn by done.
    destruct (IH (next_word args p) (pos ++ [word_range args p])) as [Hsome|[k Hk]].
    + unfold next_word.
      destruct (find_first_not_of_range chr_space (word_end args p + 1) args)
        as [|[? _]]; [by left|right; lia].
    + by left.
    + right. by exists (S k).
Qed.

(** The iterations granted to the loop are enough: when [word_positions]
    has no answer, the loop has none however many turns it is given. *)
Theorem word_positions_none (args : list ascii) :
  word_positions args = None →
  ∀ (fuel : nat) (pos : list (Z * Z)),
    scan_loop fuel args (find_first_not_of chr_space 0 args) pos = None.
Proof.
  unfold word_positions. intros Hnone.
  destruct (scan_loop_ends_or_restarts args (S (length args))
              (find_first_not_of chr_space 0 args) [])
    as [Hsome|[k Hk]].
  - destruct (find_first_not_of_range chr_space 0 args) as [|[? _]]; [by left|right; lia].
  - rewrite Hnone in Hsome. by destruct Hsome.
  - by apply (restarts_forever args k).
Qed.

(** ** The closing loop *)

Section Closing.

Context `{StdConv}.

Lemma check_required_passes (m : registry) :
  check_required m = Ok tt
  ↔ ∀ entry, entry ∈ m → required entry.2 = true → set entry.2 = true.
Proof.
  induction m as [|entry m IH]; simpl.
  - split; [|done]. intros _ entry Hin. by apply elem_of_nil in Hin.
  - destruct (required entry.2) eqn:Hreq, (set entry.2) eqn:Hset; simpl;
      rewrite ?IH; split; try done.
    + intros Hall e [->|Hin]%elem_of_cons; auto.
    + intros Hall e Hin. apply Hall. by right.
    + intros Hall. specialize (Hall entry ltac:(by left) Hreq). congruence.
    + intros Hall e [->|Hin]%elem_of_cons; [congruence|auto].
    + intros Hall e Hin. apply Hall. by right.
    + intros Hall e [->|Hin]%elem_of_cons; [congruence|auto].
    + intros Hall e Hin. apply Hall. by right.
Qed.

(** The loop stops at the first entry, in the order of the keys, that is
    required and not set, and names it. *)
Lemma check_required_fails (m : registry) :
  check_required m = Ok tt
  ∨ ∃ before entry after,
      m = before ++ entry :: after
      ∧ required entry.2 = true ∧ set entry.2 = false
      ∧ Forall (λ e, required e.2 = true → set e.2 = true) before
      ∧ check_required m = Exit (missing entry.2).
Proof.
  induction m as [|entry m IH]; simpl; [by left|].
  destruct (required entry.2) eqn:Hreq, (set entry.2) eqn:Hset; simpl.
  2: { right. exists [], entry, m. by repeat split. }
  all: destruct IH as [IH|(before & e & after & -> & ? & ? & ? & IH)]; [by left|right];
    exists (entry :: before), e, after; repeat split; try done;
    constructor; [congruence | done].
Qed.

(** When the reading loop ends without the return at [--help], [argparse]
    returns normally exactly when every entry that is required is set, as
    the members stand then. *)
Lemma argparse_returns_iff (argv : list string) (w : world) (r : reader) :
  word_pass argv w = Ok (Next r) →
  (argparse argv w = Ok (now r)
   ↔ ∀ entry, entry ∈ params_map (now r) → required entry.2 = true → set entry.2 = true)
  ∧ (argparse argv w = Ok (now r)
     ∨ ∃ entry, entry ∈ params_map (now r) ∧ required entry.2 = true
                ∧ set entry.2 = false ∧ argparse argv w = Exit (missing entry.2)).
Proof.
  intros Hpass. unfold argparse. rewrite Hpass. simpl. split.
  - rewrite <- check_required_passes.
    destruct (check_required (params_map (now r))) as [[]| | | |]; simpl; split; done.
  - destruct (check_required_fails (params_map (now r)))
      as [->|(before & entry & after & Hm & Hreq & Hset & _ & ->)]; [by left|right].
    exists entry. rewrite Hm. repeat split; try done.
    apply elem_of_app. right. by left.
Qed.

End Closing.

Example run_two_missing_names_the_first :
  bind Scenario.two_required (argparse ["prog"])
  = Exit (missing (mkParam INT 2%N "--height" "The height." 1 true false "")).
Proof. run. Qed.

Lemma boolean_registration_witness :
  same_ignoring_case "TRUE" "true"
  ∧ addp_with false BOOL 1%N "--fast" "Go fast." 1 true "TRUE" Scenario.empty
    = Ok (mkWorld (map_assign "--fast"
                     (mkParam BOOL 1%N "--fast" "Go fast." 1 false true "TRUE") [])
                  (<[1%N := Scalar (VBool true)]> ∅)).
Proof.
  split; [reflexivity|].
  apply (boolean_registration false 1%N "--fast" "Go fast." 1 true "TRUE" Scenario.empty).
  reflexivity.
Defined.

(** ** The registries of a program are reachable *)

Section Reachability.

Context `{StdConv}.

Lemma Param_new_phrase (heap_set : bool) (t : TYPE) (d : addr) (key help : string)
    (arity : Z) (req : bool) (default : string) (st st' : gmap addr cell) (p : Param) :
  Param_new heap_set t d key help arity req default st = Ok (p, st') →
  longPhrase p = key.
Proof.
  unfold Param_new. destruct (decide (t = BOOL)).
  - destruct (if decide (default ≠ "") then _ else _); simpl; try done.
    by intros [= <- _].
  - destruct (arity =? 1); [|by intros [= <- _]].
    destruct (Param_Set _ _ _); simpl; try done. by intros [= <- _].
Qed.

Lemma addp_with_reachable (heap_set : bool) (t : TYPE) (d : addr) (key help : string)
    (arity : Z) (req : bool) (default : string) (w w' : world) :
  reachable (params_map w) →
  addp_with heap_set t d key help arity req default w = Ok w' →
  reachable (params_map w').
Proof.
  intros Hreach. unfold addp_with.
  destruct (Param_new _ _ _ _ _ _ _ _ _) as [[p st']| | | |] eqn:Hnew; simpl; try done.
  intros [= <-]. simpl. apply Param_new_phrase in Hnew as <-. by constructor.
Qed.

Lemma read_word_reachable (args : list ascii) (range : Z * Z) (r : reader) (f : flow) :
  reachable (params_map (now r)) →
  read_word args range r = Ok f →
  reachable (params_map (world_of f)).
Proof.
  intros Hreach. unfold read_word.
  destruct (substr _ _ _) as [key|]; [|done].
  destruct (readingAnOption r).
  - destruct (map_find key _) as [param|]; [|done].
    case_bool_decide; [by intros [= <-]|].
    destruct (Param_Set _ _ _); simpl; try done.
    case_bool_decide; by intros [= <-].
  - destruct (parameter r) as [at_key|]; [|done].
    destruct (map_find at_key _) as [param|]; [|done].
    destruct (Param_Set _ _ _); simpl; try done.
    destruct (_ =? 0); [|destruct (_ <? 0)]; intros [= <-]; simpl;
      try done; by constructor.
Qed.

Lemma read_words_reachable (args : list ascii) (pos : list (Z * Z)) (r : reader) (f : flow) :
  reachable (params_map (now r)) →
  read_words args pos r = Ok f →
  reachable (params_map (world_of f)).
Proof.
  revert r. induction pos as [|range pos IH]; intros r Hreach; simpl.
  - by intros [= <-].
  - destruct (read_word args range r) as [g| | | |] eqn:Hword; simpl; try done.
    apply read_word_reachable in Hword; [|done].
    destruct g as [r'|w']; [by apply IH | by intros [= <-]].
Qed.

Lemma argparse_reachable (argv : list string) (w w' : world) :
  reachable (params_map w) → argparse argv w = Ok w' → reachable (params_map w').
Proof.
  intros Hreach. unfold argparse, word_pass.
  destruct (working_string argv) as [args|]; [|done].
  destruct (word_positions args) as [pos|]; [|done].
  destruct (read_words args pos (start w)) as [f| | | |] eqn:Hread; simpl; try done.
  apply read_words_reachable in Hread; [|done].
  destruct f as [r'|w'']; simpl in *.
  - destruct (check_required _); simpl; try done. by intros [= <-].
  - by intros [= <-].
Qed.

End Reachability.

(** ** [--opt=value] after the first word *)

Lemma find_is (c : ascii) (from p : Z) (s : list ascii) :
  0 ≤ from ≤ p → s !! Z.to_nat p = Some c →
  (∀ i : nat, from ≤ Z.of_nat i < p → s !! i ≠ Some c) →
  find c from s = p.
Proof.
  intros Hp Hc Hfirst.
  destruct (decide (find c from s = npos)) as [Hnone|Hsome].
  - exfalso. apply (find_none c from s Hnone ltac:(lia) (Z.to_nat p)); [lia|done].
  - destruct (find_found c from s _ eq_refl Hsome) as (Hrange & Hq & Hmin).
    destruct (Z.lt_trichotomy (find c from s) p) as [Hlt|[Heq|Hgt]]; [|done|].
    + exfalso. apply (Hfirst (Z.to_nat (find c from s))); [lia|done].
    + exfalso. apply (Hmin (Z.to_nat p)); [lia|done].
Qed.

Lemma equals_loop_length (fuel : nat) (p : Z) (s r : list ascii) :
  equals_loop fuel p s = Some r → length r = length s.
Proof.
  revert p s. induction fuel as [|fuel IH]; intros p s; simpl;
    destruct (p =? npos); try done; try by intros [= <-].
  intros Hloop. apply IH in Hloop. rewrite Hloop.
  destruct (_ && _); [apply length_insert|done].
Qed.

(** The blanking loop makes an [=] and a space at the same place alike,
    when the place lies after the first space and no backslash is before
    it. *)
Lemma blanking_agrees (A B r1 r2 : list ascii) (k0 : nat) :
  A !! k0 = Some chr_space → last A ≠ Some chr_backslash →
  let s1 := A ++ chr_equals :: B in
  let s2 := A ++ chr_space :: B in
  equals_loop (S (length s1)) (find chr_space 0 s1) s1 = Some r1 →
  equals_loop (S (length s2)) (find chr_space 0 s2) s2 = Some r2 →
  r1 = r2.
Proof.
  intros Hk0 Hlast s1 s2 Hr1 Hr2.
  assert (HkA : (k0 < length A)%nat) by (by eapply lookup_lt_Some).
  assert (Hlook : ∀ j : nat, j ≠ length A → s1 !! j = s2 !! j).
  { intros j Hj. unfold s1, s2. destruct (decide (j < length A)%nat).
    - by rewrite !lookup_app_l.
    - rewrite !lookup_app_r by lia.
      destruct (j - length A)%nat eqn:Hd; [lia|done]. }
  assert (Hmid1 : s1 !! length A = Some chr_equals) by (by apply list_lookup_middle).
  assert (Hmid2 : s2 !! length A = Some chr_space) by (by apply list_lookup_middle).
  assert (Hback : ∀ j : nat, s1 !! j ≠ Some chr_backslash ↔ s2 !! j ≠ Some chr_backslash).
  { intros j. destruct (decide (j = length A)) as [->|Hj]; [|by rewrite Hlook].
    rewrite Hmid1, Hmid2. split; intros _; discriminate. }
  assert (Hlen : length s1 = length s2) by (unfold s1, s2; by rewrite !length_app).
  set (p1 := find chr_space 0 s1) in *.
  assert (Hp1 : p1 ≠ npos).
  { intros Hnone. apply (find_none chr_space 0 s1 Hnone ltac:(lia) k0); [lia|].
    unfold s1. by rewrite lookup_app_l. }
  destruct (find_found chr_space 0 s1 p1 eq_refl Hp1) as (Hrange & Hat & Hmin).
  assert (Hp1k : p1 ≤ Z.of_nat k0).
  { destruct (Z.le_gt_cases p1 (Z.of_nat k0)) as [|Hgt]; [done|].
    exfalso. apply (Hmin k0); [lia|]. unfold s1. by rewrite lookup_app_l. }
  assert (Hp2 : find chr_space 0 s2 = p1).
  { apply find_is; [lia| |].
    - rewrite <- Hlook by lia. done.
    - intros i Hi. rewrite <- Hlook by lia. by apply Hmin. }
  rewrite Hp2 in Hr2.
  pose proof (equals_loop_length _ _ _ _ Hr1) as Hlen1.
  pose proof (equals_loop_length _ _ _ _ Hr2) as Hlen2.
  assert (Hhere1 : p1 ≠ npos → s1 !! Z.to_nat p1 ≠ Some chr_backslash)
    by (intros _; by rewrite Hat).
  assert (Hhere2 : p1 ≠ npos → s2 !! Z.to_nat p1 ≠ Some chr_backslash).
  { intros _. apply Hback. by rewrite Hat. }
  pose proof (equals_loop_spec _ p1 s1 r1 Hr1 ltac:(right; lia) Hhere1) as Hspec1.
  pose proof (equals_loop_spec _ p1 s2 r2 Hr2 ltac:(right; lia) Hhere2) as Hspec2.
  assert (Hsame : ∀ i : nat, (blanked s1 p1 i ↔ blanked s2 p1 i) → s1 !! i = s2 !! i →
                             r1 !! i = r2 !! i).
  { intros i Hiff Heq. destruct (Hspec1 i) as [Ha1 Hb1], (Hspec2 i) as [Ha2 Hb2].
    destruct (decide (blanked s1 p1 i)) as [Hb|Hnb].
    - destruct (decide (i < length s1)%nat) as [Hin|Hout].
      + rewrite (Ha1 Hb Hin), (Ha2 (proj1 Hiff Hb) ltac:(lia)). done.
      + rewrite !lookup_ge_None_2; [done|lia..].
    - rewrite (Hb1 Hnb), (Hb2 (λ Hb, Hnb (proj2 Hiff Hb))). done. }
  apply list_eq. intros i.
  destruct (decide (i = length A)) as [->|Hi].
  - destruct (Hspec1 (length A)) as [Ha1 _], (Hspec2 (length A)) as [_ Hb2].
    rewrite Ha1, Hb2; [by rewrite Hmid2| |..].
    + intros (_ & _ & [Heq|Heq] & _); [lia|]. rewrite Hmid2 in Heq. discriminate.
    + repeat split; try done; [lia | by right | lia|].
      replace (length A - 1)%nat with (Init.Nat.pred (length A)) by lia.
      unfold s1. rewrite lookup_app_l by lia. by rewrite <- last_lookup.
    + unfold s1. rewrite length_app. simpl. lia.
  - apply Hsame; [|by apply Hlook].
    unfold blanked. rewrite (Hlook i Hi), (Hback (i - 1)%nat). done.
Qed.

Lemma join_args_app (l1 l2 : list string) :
  join_args (l1 ++ l2) = join_args l1 ++ join_args l2.
Proof.
  induction l1 as [|w l1 IH]; simpl; [done|].
  by rewrite IH, <- app_assoc.
Qed.

Lemma list_ascii_of_string_app (a b : string) :
  list_ascii_of_string (a +:+ b) = list_ascii_of_string a ++ list_ascii_of_string b.
Proof.
  induction a as [|c a IH]; [done|].
  change (c :: list_ascii_of_string (a +:+ b)
          = c :: (list_ascii_of_string a ++ list_ascii_of_string b)).
  by rewrite IH.
Qed.

Lemma last_join_args (l : list string) : last (chr_space :: join_args l) = Some chr_space.
Proof.
  induction l as [|w l IH]; [done|]. simpl join_args.
  rewrite app_comm_cons, last_app_cons. exact IH.
Qed.

Section Equivalence.

Context `{StdConv}.

(** X14: after the first argument word, [--opt=value] in one word and
    [--opt value] in two make the same working string, hence the same
    parse, whenever the option does not end in a backslash. *)
Lemma equals_sign_after_first_word (prog first opt value : string)
    (pre post : list string) (w : world) :
  last (list_ascii_of_string opt) ≠ Some chr_backslash →
  working_string (prog :: first :: pre ++ (opt +:+ "=" +:+ value) :: post)
  = working_string (prog :: first :: pre ++ opt :: value :: post)
  ∧ argparse (prog :: first :: pre ++ (opt +:+ "=" +:+ value) :: post) w
    = argparse (prog :: first :: pre ++ opt :: value :: post) w.
Proof.
  intros Hopt.
  assert (Hsame : working_string (prog :: first :: pre ++ (opt +:+ "=" +:+ value) :: post)
                  = working_string (prog :: first :: pre ++ opt :: value :: post)).
  { destruct (working_string_total (prog :: first :: pre ++ (opt +:+ "=" +:+ value) :: post))
      as [r1 Hr1].
    destruct (working_string_total (prog :: first :: pre ++ opt :: value :: post))
      as [r2 Hr2].
    rewrite Hr1, Hr2. f_equal. unfold working_string in Hr1, Hr2. simpl tail in Hr1, Hr2.
    set (A := list_ascii_of_string first ++ chr_space :: join_args pre
              ++ list_ascii_of_string opt).
    set (B := list_ascii_of_string value ++ chr_space :: join_args post).
    assert (H1 : join_args (first :: pre ++ (opt +:+ "=" +:+ value) :: post)
                 = A ++ chr_equals :: B).
    { unfold A, B. simpl. rewrite join_args_app. simpl.
      rewrite !list_ascii_of_string_app. simpl.
      repeat (rewrite <- app_assoc; simpl). done. }
    assert (H2 : join_args (first :: pre ++ opt :: value :: post) = A ++ chr_space :: B).
    { unfold A, B. simpl. rewrite join_args_app. simpl.
      repeat (rewrite <- app_assoc; simpl). done. }
    rewrite H1 in Hr1. rewrite H2 in Hr2.
    apply (blanking_agrees A B r1 r2 (length (list_ascii_of_string first))); try done.
    - unfold A. by apply list_lookup_middle.
    - replace A with ((list_ascii_of_string first ++ chr_space :: join_args pre)
                       ++ list_ascii_of_string opt)
        by (unfold A; by rewrite <- app_assoc).
      rewrite last_app.
      destruct (last (list_ascii_of_string opt)) as [c|] eqn:Hc; [done|].
      rewrite last_app_cons, last_join_args. discriminate. }
  split; [exact Hsame|].
  unfold argparse, word_pass. by rewrite Hsame.
Qed.

End Equivalence.

Lemma equals_sign_after_first_word_witness :
  last (list_ascii_of_string "--name") ≠ Some chr_backslash
  ∧ working_string ("prog" :: "--fast" :: [] ++ ("--name" +:+ "=" +:+ "x") :: [])
    = working_string ("prog" :: "--fast" :: [] ++ "--name" :: "x" :: [])
  ∧ argparse ("prog" :: "--fast" :: [] ++ ("--name" +:+ "=" +:+ "x") :: [])
             Sample.flags_world
    = argparse ("prog" :: "--fast" :: [] ++ "--name" :: "x" :: []) Sample.flags_world.
Proof.
  assert (Hopt : last (list_ascii_of_string "--name") ≠ Some chr_backslash)
    by (vm_compute; congruence).
  split; [exact Hopt|].
  exact (equals_sign_after_first_word "prog" "--fast" "--name" "x" [] []
           Sample.flags_world Hopt).
Defined.

(** ** The member [set] after construction *)

Section Unassigned.

Context `{StdConv}.

(** For a type other than [BOOL] the constructor leaves [set] as the
    allocation held it, and [required] as the caller passed it. *)
Lemma Param_new_set_unassigned (heap_set : bool) (t : TYPE) (d : addr)
    (key help : string) (arity : Z) (req : bool) (default : string)
    (st st' : gmap addr cell) (p : Param) :
  t ≠ BOOL →
  Param_new heap_set t d key help arity req default st = Ok (p, st') →
  set p = heap_set ∧ required p = req.
Proof.
  intros Hbool. unfold Param_new. destruct (decide (t = BOOL)); [done|].
  destruct (arity =? 1); [|by intros [= <- _]].
  destruct (Param_Set _ _ _); simpl; try done. by intros [= <- _].
Qed.

(** A required option that the invocation never names keeps its [set]
    through the reading loop: a parse of no words returns exactly when the
    unassigned members happen to be true. *)
Lemma argparse_no_words (prog : string) (w : world) :
  argparse [prog] w
  = call checked := check_required (params_map w) in Ok w.
Proof. reflexivity. Qed.

End Unassigned.

(** * Further properties *)

(** ** Reading an option name *)

Section Options.

Context `{StdConv}.

Lemma evolves_find_None (m m' : registry) (key : string) :
  evolves m m' → map_find key m = None → map_find key m' = None.
Proof. intros Hev Hnone. destruct (Hev key) as [E|E]; by rewrite E, Hnone. Qed.

(** X1: a word read where an option is expected and found under no key of
    the map ends [argparse] with the diagnostic that quotes the word; the
    words after it are not read and nothing is checked. *)
Theorem unknown_option_exits (argv : list string) (w : world) (args : list ascii)
    (pre post : list (Z * Z)) (range : Z * Z) (r : reader) (key : string) :
  working_string argv = Some args →
  word_positions args = Some (pre ++ range :: post) →
  read_words args pre (start w) = Ok (Next r) →
  readingAnOption r = true →
  substr args range.1 (range.2 - range.1) = Some key →
  map_find key (params_map w) = None →
  argparse argv w = Exit (unrecognized key).
Proof.
  intros Hargs Hpos Hpre Hmode Hword Hnone.
  apply read_words_evolves in Hpre as Hev. simpl in Hev.
  apply (evolves_find_None _ _ _ Hev) in Hnone.
  unfold argparse, word_pass. rewrite Hargs, Hpos, read_words_app, Hpre. simpl.
  unfold read_word. by rewrite Hword, Hmode, Hnone.
Qed.

(** X2: a boolean option other than [--help] takes no word: reading it
    writes true to its destination, leaves the map as it is, and the word
    after it is read as an option again. *)
Theorem boolean_option_takes_no_word (args : list ascii) (range : Z * Z)
    (rest : list (Z * Z)) (r : reader) (key : string) (p : Param) :
  readingAnOption r = true →
  substr args range.1 (range.2 - range.1) = Some key →
  map_find key (params_map (now r)) = Some p →
  type p = BOOL → key ≠ "--help" →
  read_words args (range :: rest) r
  = read_words args rest
      (mkReader true (Some key) (parameter_counter r)
         (mkWorld (params_map (now r))
                  (<[destination p := Scalar (VBool true)]> (memory (now r))))).
Proof.
  intros Hmode Hword Hfind Hbool Hkey. simpl. unfold read_word.
  rewrite Hword, Hmode, Hfind.
  rewrite bool_decide_eq_false_2 by (rewrite Hbool; tauto).
  rewrite Param_Set_bool by done. simpl.
  by rewrite bool_decide_eq_false_2.
Qed.

(** X3: when the reading loop has ended and some required entries are not
    set, the diagnostic names the first of them in the order of the map,
    that is the one with the least key, and no other. *)
Theorem first_missing_option_is_named (argv : list string) (w : world) (r : reader)
    (before after : registry) (entry : string * Param) :
  word_pass argv w = Ok (Next r) →
  params_map (now r) = before ++ entry :: after →
  Forall (λ e, required e.2 = true → set e.2 = true) before →
  required entry.2 = true → set entry.2 = false →
  argparse argv w = Exit (missing entry.2).
Proof.
  intros Hpass Hmap Hbefore Hreq Hset. unfold argparse. rewrite Hpass. simpl.
  rewrite Hmap. clear Hmap.
  induction Hbefore as [|e before He _ IH]; simpl.
  - by rewrite Hreq, Hset.
  - destruct (required e.2) eqn:Hr; [|exact IH].
    rewrite (He eq_refl). exact IH.
Qed.

End Options.

Lemma unknown_option_exits_witness :
  let argv := ["prog"; "--name"; "x"; "--bogus"] in
  let w := Scenario.example_world in
  let args := list_ascii_of_string "--name x --bogus " in
  let r := Scenario.example_after_name in
  (working_string argv = Some args
   ∧ word_positions args = Some ([(0, 6); (7, 8)] ++ (9, 16) :: [])
   ∧ read_words args [(0, 6); (7, 8)] (start w) = Ok (Next r)
   ∧ readingAnOption r = true
   ∧ substr args (9, 16).1 ((9, 16).2 - (9, 16).1) = Some "--bogus"
   ∧ map_find "--bogus" (params_map w) = None)
  ∧ argparse argv w = Exit (unrecognized "--bogus").
Proof.
  intros argv w args r.
  assert (H1 : working_string argv = Some args) by run.
  assert (H2 : word_positions args = Some ([(0, 6); (7, 8)] ++ (9, 16) :: [])) by run.
  assert (H3 : read_words args [(0, 6); (7, 8)] (start w) = Ok (Next r)) by run.
  assert (H4 : readingAnOption r = true) by reflexivity.
  assert (H5 : substr args (9, 16).1 ((9, 16).2 - (9, 16).1) = Some "--bogus") by run.
  assert (H6 : map_find "--bogus" (params_map w) = None) by run.
  split; [by repeat split|].
  exact (unknown_option_exits argv w args _ _ _ r "--bogus" H1 H2 H3 H4 H5 H6).
Defined.

Lemma boolean_option_takes_no_word_witness :
  let args := list_ascii_of_string "--fast --name x " in
  let r := start Sample.flags_world in
  let p := mkParam BOOL 4%N "--fast" "Go fast." 1 false true "" in
  (readingAnOption r = true
   ∧ substr args (0, 6).1 ((0, 6).2 - (0, 6).1) = Some "--fast"
   ∧ map_find "--fast" (params_map (now r)) = Some p
   ∧ type p = BOOL ∧ "--fast" ≠ "--help")
  ∧ read_words args ((0, 6) :: [(7, 13); (14, 15)]) r
    = read_words args [(7, 13); (14, 15)]
        (mkReader true (Some "--fast") (parameter_counter r)
           (mkWorld (params_map (now r))
                    (<[destination p := Scalar (VBool true)]> (memory (now r))))).
Proof.
  intros args r p.
  assert (H1 : readingAnOption r = true) by reflexivity.
  assert (H2 : substr args (0, 6).1 ((0, 6).2 - (0, 6).1) = Some "--fast") by run.
  assert (H3 : map_find "--fast" (params_map (now r)) = Some p) by run.
  assert (H4 : type p = BOOL) by reflexivity.
  assert (H5 : "--fast" ≠ "--help") by discriminate.
  split; [by repeat split|].
  exact (boolean_option_takes_no_word args (0, 6) _ r "--fast" p H1 H2 H3 H4 H5).
Defined.

Lemma first_missing_option_is_named_witness :
  let argv := ["prog"] in
  let w := Sample.two_required_world in
  let height := mkParam INT 2%N "--height" "The height." 1 true false "" in
  let width := mkParam INT 1%N "--width" "The width." 1 true false "" in
  (word_pass argv w = Ok (Next (start w))
   ∧ params_map (now (start w)) = [] ++ ("--height", height) :: [("--width", width)]
   ∧ Forall (λ e : string * Param, required e.2 = true → set e.2 = true) []
   ∧ required ("--height", height).2 = true ∧ set ("--height", height).2 = false)
  ∧ argparse argv w = Exit (missing height).
Proof.
  intros argv w height width.
  assert (H1 : word_pass argv w = Ok (Next (start w))) by run.
  assert (H2 : params_map (now (start w))
               = [] ++ ("--height", height) :: [("--width", width)]) by run.
  assert (H3 : Forall (λ e : string * Param, required e.2 = true → set e.2 = true) [])
    by constructor.
  split; [by repeat split|].
  exact (first_missing_option_is_named argv w (start w) [] _ ("--height", height)
           H1 H2 H3 eq_refl eq_refl).
Defined.

(** ** Registration *)

Section Registering.

Context `{StdConv}.

Lemma Param_new_fields (heap_set : bool) (t : TYPE) (d : addr) (key help : string)
    (arity : Z) (req : bool) (default : string) (st st' : gmap addr cell) (p : Param) :
  Param_new heap_set t d key help arity req default st = Ok (p, st') →
  p = mkParam t d key help arity
        (if decide (t = BOOL) then false else req)
        (if decide (t = BOOL) then true else heap_set) default
  ∧ ∀ a, a ≠ d → st' !! a = st !! a.
Proof.
  unfold Param_new. destruct (decide (t = BOOL)) as [->|Hbool].
  - destruct (if decide (default ≠ "") then _ else _) as [st1| | | |] eqn:Hset;
      simpl; try done.
    intros [= <- <-]. split; [done|]. intros a Ha.
    destruct (decide (default ≠ ""));
      by apply (Param_Set_other _ _ _ _ a) in Hset.
  - destruct (arity =? 1).
    + destruct (Param_Set _ _ _) as [st1| | | |] eqn:Hset; simpl; try done.
      intros [= <- <-]. split; [done|]. intros a Ha.
      by apply (Param_Set_other _ _ _ _ a) in Hset.
    + by intros [= <- <-].
Qed.

(** X4: a registration that returns files the descriptor under its long
    phrase with the fields the caller passed ([required] forced to false
    and [set] to true for a boolean), so that a later registration under
    the same phrase replaces an earlier one; the entries under other keys
    and the variables at other addresses are as before. *)
Theorem registration_is_found (heap_set : bool) (t : TYPE) (d : addr)
    (key help : string) (arity : Z) (req : bool) (default : string) (w w' : world) :
  addp_with heap_set t d key help arity req default w = Ok w' →
  map_find key (params_map w')
  = Some (mkParam t d key help arity
            (if decide (t = BOOL) then false else req)
            (if decide (t = BOOL) then true else heap_set) default)
  ∧ (∀ k, k ≠ key → map_find k (params_map w') = map_find k (params_map w))
  ∧ (∀ a, a ≠ d → memory w' !! a = memory w !! a).
Proof.
  unfold addp_with.
  destruct (Param_new _ _ _ _ _ _ _ _ _) as [[p st']| | | |] eqn:Hnew; simpl; try done.
  intros [= <-]. simpl. apply Param_new_fields in Hnew as [-> Hframe].
  split; [|split].
  - by rewrite map_find_assign, decide_True.
  - intros k Hk. by rewrite map_find_assign, decide_False.
  - exact Hframe.
Qed.

(** X5: registering an option that is not boolean.  With the arity 1 and a
    default that is not empty the default is converted and assigned, and
    a default that does not convert ends the program there through the
    uncaught exception; in every other case (no default, or an arity
    other than 1, whose default is kept for the help text only) no variable
    is written.  No registration of such an option exits with a
    diagnostic. *)
Theorem nonboolean_registration (heap_set : bool) (t : TYPE) (d : addr)
    (key help : string) (arity : Z) (req : bool) (default : string) (w : world) :
  t ≠ BOOL →
  addp_with heap_set t d key help arity req default w
  = let entry := mkParam t d key help arity req heap_set default in
    let filed := map_assign key entry (params_map w) in
    if bool_decide (arity = 1 ∧ default ≠ "") then
      match conversion t default with
      | Some v => Ok (mkWorld filed (<[d := Scalar v]> (memory w)))
      | None => Uncaught
      end
    else Ok (mkWorld filed (memory w)).
Proof.
  intros Hbool. unfold addp_with, Param_new.
  destruct (decide (t = BOOL)); [done|].
  destruct (Z.eqb_spec arity 1) as [->|Hx].
  - destruct (decide (default = "")) as [->|Hdefault].
    + rewrite bool_decide_eq_false_2 by tauto. reflexivity.
    + rewrite bool_decide_eq_true_2 by done.
      rewrite Param_Set_converts by done. unfold set_converted. simpl.
      by destruct (conversion t default).
  - rewrite bool_decide_eq_false_2 by tauto. reflexivity.
Qed.

End Registering.

Lemma registration_is_found_witness :
  let w := Scenario.name_world in
  let w' := mkWorld (map_assign "--name"
                       (mkParam INT 7%N "--name" "Again." 2 true false "") (params_map w))
                    (memory w) in
  addp_with false INT 7%N "--name" "Again." 2 true "" w = Ok w'
  ∧ map_find "--name" (params_map w')
    = Some (mkParam INT 7%N "--name" "Again." 2
              (if decide (INT = BOOL) then false else true)
              (if decide (INT = BOOL) then true else false) "")
  ∧ (∀ k, k ≠ "--name" → map_find k (params_map w') = map_find k (params_map w))
  ∧ (∀ a, a ≠ 7%N → memory w' !! a = memory w !! a).
Proof.
  intros w w'.
  assert (H1 : addp_with false INT 7%N "--name" "Again." 2 true "" w = Ok w') by run.
  split; [exact H1|].
  exact (registration_is_found false INT 7%N "--name" "Again." 2 true "" w w' H1).
Defined.

Lemma nonboolean_registration_witness :
  INT ≠ BOOL
  ∧ addp_with false INT 1%N "--count" "How many." 1 true "many" Scenario.empty = Uncaught
  ∧ addp_with false INT 1%N "--count" "How many." 3 true "5" Scenario.empty
    = Ok (mkWorld (map_assign "--count"
                     (mkParam INT 1%N "--count" "How many." 3 true false "5") [])
                  ∅).
Proof.
  assert (H1 : INT ≠ BOOL) by discriminate.
  split; [exact H1|]. split.
  - rewrite (nonboolean_registration false INT 1%N "--count" "How many." 1 true "many"
               Scenario.empty H1).
    reflexivity.
  - rewrite (nonboolean_registration false INT 1%N "--count" "How many." 3 true "5"
               Scenario.empty H1).
    reflexivity.
Defined.

(** ** Reading the values of an option *)


Section Values.

Context `{StdConv}.

(** One turn of the reading loop on a value word that [Param::Set]
    accepts: the counter goes down by one, the entry is marked once the
    counter is at or below zero, and an option is read next exactly when
    it is at zero. *)
Lemma read_value_word (args : list ascii) (range : Z * Z) (r : reader)
    (key word : string) (q : Param) (st' : gmap addr cell) :
  readingAnOption r = false → parameter r = Some key →
  map_find key (params_map (now r)) = Some q →
  substr args range.1 (range.2 - range.1) = Some word →
  Param_Set q word (memory (now r)) = Ok st' →
  read_word args range r
  = Ok (Next (mkReader (parameter_counter r - 1 =? 0) (Some key) (parameter_counter r - 1)
                (mkWorld (if parameter_counter r - 1 <=? 0
                          then map_update key (with_set true) (params_map (now r))
                          else params_map (now r)) st'))).
Proof.
  intros Hmode Hparam Hfind Hword Hset. unfold read_word.
  rewrite Hword, Hmode, Hparam, Hfind, Hset. simpl.
  destruct (Z.eqb_spec (parameter_counter r - 1) 0) as [->|Hne]; [done|].
  destruct (Z.ltb_spec (parameter_counter r - 1) 0),
           (Z.leb_spec (parameter_counter r - 1) 0); try done; lia.
Qed.

Lemma vector_reads_on (args : list ascii) (key : string) (p : Param) :
  type p ≠ BOOL → xargs p ≠ 1 →
  ∀ (rest : list (Z * Z)) (words : list string) (values : list datum)
    (r : reader) (q : Param) (l : list datum),
    readingAnOption r = false → parameter r = Some key →
    parameter_counter r ≤ 0 ∨ Z.of_nat (length rest) ≤ parameter_counter r →
    map_find key (params_map (now r)) = Some q → q = p ∨ q = with_set true p →
    memory (now r) !! destination p = Some (Vector l) →
    words_at args rest = Some <$> words →
    Forall2 (λ word v, conversion (type p) word = Some v) (bound_words words) values →
    ∃ r', read_words args rest r = Ok (Next r')
      ∧ readingAnOption r'
        = bool_decide (rest ≠ [] ∧ parameter_counter r = Z.of_nat (length rest))
      ∧ parameter r' = Some key
      ∧ parameter_counter r' = parameter_counter r - Z.of_nat (length rest)
      ∧ memory (now r') = <[destination p := Vector (l ++ values)]> (memory (now r))
      ∧ map_find key (params_map (now r'))
        = Some (if bool_decide (rest = [] ∨ Z.of_nat (length rest) < parameter_counter r)
                then q else with_set true p)
      ∧ ∀ k, k ≠ key → map_find k (params_map (now r')) = map_find k (params_map (now r)).
Proof.
  intros Hbool Hx. induction rest as [|range rest IH];
    intros words values r q l Hmode Hparam Hcount Hfind Hq Hcell Hwords Hvalues.
  - destruct words; [|done]. apply Forall2_nil_inv_l in Hvalues as ->.
    exists r. simpl. rewrite app_nil_r, insert_id by done.
    split; [done|]. split; [done|]. split; [done|]. split; [lia|]. done.
  - apply words_at_cons_inv in Hwords as (word & words' & -> & Hword & Hwords).
    assert (Hsame : ∀ value st, Param_Set q value st = Param_Set p value st).
    { intros value st. destruct Hq as [->| ->]; reflexivity. }
    assert (Hset : ∃ l1 values1,
              Param_Set q word (memory (now r))
              = Ok (<[destination p := Vector l1]> (memory (now r)))
              ∧ l ++ values = l1 ++ values1
              ∧ Forall2 (λ word v, conversion (type p) word = Some v)
                        (bound_words words') values1).
    { destruct (decide (word = "")) as [->|Hne].
      - unfold bound_words in Hvalues. rewrite filter_cons_False in Hvalues by tauto.
        exists l, values. rewrite Param_Set_empty, insert_id by done. done.
      - unfold bound_words in Hvalues. rewrite filter_cons_True in Hvalues by done.
        apply Forall2_cons_inv_l in Hvalues as (v & values' & Hv & Hvalues & ->).
        exists (l ++ [v]), values'. rewrite Hsame.
        rewrite (Param_Set_appends p word v l) by done.
        by rewrite <- app_assoc. }
    destruct Hset as (l1 & values1 & Hset & Happ & Hvalues1).
    pose proof (read_value_word args range r key word q _ Hmode Hparam Hfind Hword Hset)
      as Hturn.
    set (c := parameter_counter r) in *.
    change (length (range :: rest)) with (S (length rest)) in *.
    set (n := length rest) in *.
    simpl read_words. rewrite Hturn. simpl bind. rewrite Happ. clear Hturn.
    destruct (Z.eqb_spec (c - 1) 0) as [Hzero|Hnonzero].
    + assert (rest = []) as -> by (destruct rest; [done|simpl in *; lia]).
      destruct words'; [|done]. apply Forall2_nil_inv_l in Hvalues1 as ->.
      eexists. split; [reflexivity|]. simpl.
      replace (c - 1 <=? 0) with true by (symmetry; apply Z.leb_le; lia).
      rewrite bool_decide_eq_true_2 by (split; [done|unfold n; simpl; lia]).
      rewrite bool_decide_eq_false_2 by (intros [|]; [done|unfold n in *; simpl in *; lia]).
      rewrite app_nil_r, map_find_update, decide_True, Hfind by done.
      split; [done|]. split; [done|]. split; [unfold n; simpl; lia|]. split; [done|].
      split; [destruct Hq as [->| ->]; reflexivity|].
      intros k Hk. by rewrite map_find_update, decide_False.
    + set (m1 := if c - 1 <=? 0
                 then map_update key (with_set true) (params_map (now r))
                 else params_map (now r)).
      set (q1 := if c - 1 <=? 0 then with_set true p else q).
      assert (Hq1 : map_find key m1 = Some q1).
      { unfold m1, q1. destruct (c - 1 <=? 0); [|done].
        rewrite map_find_update, decide_True, Hfind by done.
        destruct Hq as [->| ->]; reflexivity. }
      assert (Hq1' : q1 = p ∨ q1 = with_set true p).
      { unfold q1. destruct (c - 1 <=? 0); [by right|done]. }
      assert (Hothers : ∀ k, k ≠ key → map_find k m1 = map_find k (params_map (now r))).
      { intros k Hk. unfold m1. destruct (c - 1 <=? 0); [|done].
        by rewrite map_find_update, decide_False. }
      destruct (IH words' values1
                  (mkReader false (Some key) (c - 1)
                     (mkWorld m1 (<[destination p := Vector l1]> (memory (now r)))))
                  q1 l1)
        as (r' & Hr' & Hmode' & Hparam' & Hcount' & Hmem' & Hkey' & Hothers');
        simpl; try done; [fold n; lia | by rewrite lookup_insert_eq |].
      simpl in Hmode', Hcount', Hmem', Hkey', Hothers'. fold n in Hmode', Hcount', Hkey'.
      exists r'. split; [exact Hr'|]. split.
      { rewrite Hmode'. apply bool_decide_ext. split.
        - intros [_ ?]. split; [done|lia].
        - intros [_ ?]. split; [|lia]. intros ->. unfold n in *. simpl in *. lia. }
      split; [done|]. split; [lia|]. split.
      { rewrite Hmem'. by rewrite insert_insert_eq. }
      split; [|intros k Hk; by rewrite Hothers', Hothers].
      rewrite Hkey'. f_equal. unfold q1.
      destruct (Z.leb_spec (c - 1) 0) as [Hle|Hgt].
      * rewrite (bool_decide_eq_false_2 (_ :: _ = [] ∨ _)) by (intros [|]; [done|lia]).
        by case_bool_decide.
      * destruct (decide (rest = [])) as [->|Hrest].
        { rewrite bool_decide_eq_true_2 by tauto.
          rewrite bool_decide_eq_true_2; [done|]. right. unfold n. simpl. lia. }
        apply (f_equal (λ b : bool, if b then q else with_set true p)).
        apply bool_decide_ext. split; (intros [|]; [done|right; lia]).
Qed.


Lemma read_option_word (args : list ascii) (range : Z * Z) (r : reader)
    (key : string) (p : Param) :
  readingAnOption r = true →
  substr args range.1 (range.2 - range.1) = Some key →
  map_find key (params_map (now r)) = Some p →
  type p ≠ BOOL →
  read_word args range r = Ok (Next (mkReader false (Some key) (xargs p) (now r))).
Proof.
  intros Hmode Hword Hfind Hbool. unfold read_word.
  rewrite Hword, Hmode, Hfind. by rewrite bool_decide_eq_true_2.
Qed.

(** X6: an option of arity [n], two or more, followed by [n] words takes
    exactly these: each word that is not empty is converted and appended,
    in order, to the vector it is bound to, the entry is set, and the
    next word is read as an option again.  The words are not looked up:
    one that is the name of an option is a value all the same. *)
Theorem fixed_arity_takes_its_words (args : list ascii) (r : reader)
    (range : Z * Z) (rest : list (Z * Z)) (key : string) (p : Param)
    (l : list datum) (words : list string) (values : list datum) :
  readingAnOption r = true →
  substr args range.1 (range.2 - range.1) = Some key →
  map_find key (params_map (now r)) = Some p →
  type p ≠ BOOL → 2 ≤ xargs p → Z.of_nat (length rest) = xargs p →
  memory (now r) !! destination p = Some (Vector l) →
  words_at args rest = Some <$> words →
  Forall2 (λ word v, conversion (type p) word = Some v) (bound_words words) values →
  ∃ r', read_words args (range :: rest) r = Ok (Next r')
    ∧ readingAnOption r' = true
    ∧ memory (now r') = <[destination p := Vector (l ++ values)]> (memory (now r))
    ∧ map_find key (params_map (now r')) = Some (with_set true p)
    ∧ ∀ k, k ≠ key → map_find k (params_map (now r')) = map_find k (params_map (now r)).
Proof.
  intros Hmode Hword Hfind Hbool Hx Hlen Hcell Hwords Hvalues.
  destruct (vector_reads_on args key p Hbool ltac:(lia) rest words values
              (mkReader false (Some key) (xargs p) (now r)) p l)
    as (r' & Hr' & Hmode' & _ & _ & Hmem & Hkey & Hothers);
    simpl; try done; [right; lia | by left |].
  simpl in *. exists r'.
  rewrite (read_option_word args range r key p) by done. simpl.
  split; [exact Hr'|]. split.
  { rewrite Hmode'. apply bool_decide_eq_true_2. split; [|lia].
    intros ->. simpl in Hlen. lia. }
  split; [done|]. split; [|done].
  rewrite Hkey. by rewrite bool_decide_eq_false_2 by (intros [->|]; simpl in *; lia).
Qed.

(** While the counter asks for more words than follow, the map is not
    touched. *)
Lemma waiting_reads_on (args : list ascii) (key : string) (p : Param) :
  type p ≠ BOOL → xargs p ≠ 1 →
  ∀ (rest : list (Z * Z)) (words : list string) (values : list datum)
    (r : reader) (l : list datum),
    readingAnOption r = false → parameter r = Some key →
    Z.of_nat (length rest) < parameter_counter r →
    map_find key (params_map (now r)) = Some p →
    memory (now r) !! destination p = Some (Vector l) →
    words_at args rest = Some <$> words →
    Forall2 (λ word v, conversion (type p) word = Some v) (bound_words words) values →
    ∃ r', read_words args rest r = Ok (Next r')
      ∧ readingAnOption r' = false
      ∧ parameter_counter r' = parameter_counter r - Z.of_nat (length rest)
      ∧ memory (now r') = <[destination p := Vector (l ++ values)]> (memory (now r))
      ∧ params_map (now r') = params_map (now r).
Proof.
  intros Hbool Hx. induction rest as [|value_range rest IH];
    intros words values r l Hmode Hparam Hcount Hfind Hcell Hwords Hvalues.
  - destruct words; [|done]. apply Forall2_nil_inv_l in Hvalues as ->.
    exists r. simpl. rewrite app_nil_r, insert_id by done.
    split; [done|]. split; [done|]. split; [lia|]. done.
  - apply words_at_cons_inv in Hwords as (word & words' & -> & Hw & Hwords).
    change (length (value_range :: rest)) with (S (length rest)) in *.
    assert (Hset : ∃ l1 values1,
              Param_Set p word (memory (now r))
              = Ok (<[destination p := Vector l1]> (memory (now r)))
              ∧ l ++ values = l1 ++ values1
              ∧ Forall2 (λ word v, conversion (type p) word = Some v)
                        (bound_words words') values1).
    { destruct (decide (word = "")) as [->|Hne].
      - unfold bound_words in Hvalues. rewrite filter_cons_False in Hvalues by tauto.
        exists l, values. rewrite Param_Set_empty, insert_id by done. done.
      - unfold bound_words in Hvalues. rewrite filter_cons_True in Hvalues by done.
        apply Forall2_cons_inv_l in Hvalues as (v & values' & Hv & Hvalues & ->).
        exists (l ++ [v]), values'.
        rewrite (Param_Set_appends p word v l) by done.
        by rewrite <- app_assoc. }
    destruct Hset as (l1 & values1 & Hset & -> & Hvalues1).
    simpl read_words.
    rewrite (read_value_word args value_range r key word p _ Hmode Hparam Hfind Hw Hset).
    simpl bind.
    replace (parameter_counter r - 1 =? 0) with false by (symmetry; apply Z.eqb_neq; lia).
    replace (parameter_counter r - 1 <=? 0) with false by (symmetry; apply Z.leb_gt; lia).
    destruct (IH words' values1
                (mkReader false (Some key) (parameter_counter r - 1)
                   (mkWorld (params_map (now r))
                            (<[destination p := Vector l1]> (memory (now r)))))
                l1)
      as (r' & Hr' & Hmode' & Hcount' & Hmem' & Hmap');
      simpl; try done; [lia | by rewrite lookup_insert_eq |].
    simpl in Hcount', Hmem', Hmap'.
    exists r'. split; [exact Hr'|]. split; [done|]. split; [lia|]. split; [|done].
    rewrite Hmem'. by rewrite insert_insert_eq.
Qed.

(** X7: an option of arity [n], two or more, followed by fewer than [n]
    words before the input ends: the words that are there are appended
    all the same, but the entry is not marked as set, and the reader is
    still waiting for values when the loop ends. *)
Theorem incomplete_option_is_not_marked (args : list ascii) (r : reader)
    (range : Z * Z) (rest : list (Z * Z)) (key : string) (p : Param)
    (l : list datum) (words : list string) (values : list datum) :
  readingAnOption r = true →
  substr args range.1 (range.2 - range.1) = Some key →
  map_find key (params_map (now r)) = Some p →
  type p ≠ BOOL → 2 ≤ xargs p → Z.of_nat (length rest) < xargs p →
  memory (now r) !! destination p = Some (Vector l) →
  words_at args rest = Some <$> words →
  Forall2 (λ word v, conversion (type p) word = Some v) (bound_words words) values →
  ∃ r', read_words args (range :: rest) r = Ok (Next r')
    ∧ readingAnOption r' = false
    ∧ parameter_counter r' = xargs p - Z.of_nat (length rest)
    ∧ memory (now r') = <[destination p := Vector (l ++ values)]> (memory (now r))
    ∧ params_map (now r') = params_map (now r).
Proof.
  intros Hmode Hword Hfind Hbool Hx Hlen Hcell Hwords Hvalues.
  destruct (waiting_reads_on args key p Hbool ltac:(lia) rest words values
              (mkReader false (Some key) (xargs p) (now r)) l)
    as (r' & Hr' & Hrest); simpl; try done.
  exists r'. simpl read_words.
  rewrite (read_option_word args range r key p) by done. simpl bind.
  split; [exact Hr'|exact Hrest].
Qed.

(** X8: an option of arity 1 followed by a word takes that word, whatever
    it looks like, marks its entry as set and has the next word read as an
    option.  A word that is not empty is converted and assigned to the
    variable; an empty one is skipped by [Param::Set], so the entry counts
    as set although nothing was written. *)
Theorem scalar_option_takes_one_word (args : list ascii) (r : reader)
    (range value_range : Z * Z) (rest : list (Z * Z)) (key word : string)
    (p : Param) (v : datum) :
  readingAnOption r = true →
  substr args range.1 (range.2 - range.1) = Some key →
  map_find key (params_map (now r)) = Some p →
  type p ≠ BOOL → xargs p = 1 →
  substr args value_range.1 (value_range.2 - value_range.1) = Some word →
  (word ≠ "" → conversion (type p) word = Some v) →
  read_words args (range :: value_range :: rest) r
  = read_words args rest
      (mkReader true (Some key) 0
         (mkWorld (map_update key (with_set true) (params_map (now r)))
                  (if decide (word = "") then memory (now r)
                   else <[destination p := Scalar v]> (memory (now r))))).
Proof.
  intros Hmode Hkey Hfind Hbool Hx Hword Hconv. simpl read_words.
  rewrite (read_option_word args range r key p) by done. simpl bind.
  assert (Hset : Param_Set p word (memory (now r))
                 = Ok (if decide (word = "") then memory (now r)
                       else <[destination p := Scalar v]> (memory (now r)))).
  { destruct (decide (word = "")) as [->|Hne]; [apply Param_Set_empty|].
    rewrite Param_Set_converts by done. unfold set_converted.
    by rewrite Hx, (Hconv Hne). }
  rewrite (read_value_word args value_range
             (mkReader false (Some key) (xargs p) (now r)) key word p _
             eq_refl eq_refl Hfind Hword Hset).
  simpl. by rewrite Hx.
Qed.

(** X9: an arity of zero, or a negative one, works like the arity [-1] as
    long as the counter, an [int] that goes down by one with every word,
    stays at or above [INT_MIN]: the counter is below zero after the
    first word and never comes back to it, so the option takes every word
    up to the end of the input, and its entry is set as soon as one word
    has followed.  (Below [INT_MIN] the decrement has no meaning in the
    language; with the arity [INT_MIN] itself that is at the first
    word.) *)
Theorem nonpositive_arity_reads_to_the_end (args : list ascii) (r : reader)
    (range : Z * Z) (rest : list (Z * Z)) (key : string) (p : Param)
    (l : list datum) (words : list string) (values : list datum) :
  readingAnOption r = true →
  substr args range.1 (range.2 - range.1) = Some key →
  map_find key (params_map (now r)) = Some p →
  type p ≠ BOOL → xargs p ≤ 0 →
  INT_MIN ≤ xargs p - Z.of_nat (length rest) →
  memory (now r) !! destination p = Some (Vector l) →
  words_at args rest = Some <$> words →
  Forall2 (λ word v, conversion (type p) word = Some v) (bound_words words) values →
  ∃ r', read_words args (range :: rest) r = Ok (Next r')
    ∧ readingAnOption r' = false
    ∧ parameter_counter r' = xargs p - Z.of_nat (length rest)
    ∧ INT_MIN ≤ parameter_counter r'
    ∧ memory (now r') = <[destination p := Vector (l ++ values)]> (memory (now r))
    ∧ map_find key (params_map (now r'))
      = Some (if decide (rest = []) then p else with_set true p).
Proof.
  intros Hmode Hword Hfind Hbool Hx Hint Hcell Hwords Hvalues.
  destruct (vector_reads_on args key p Hbool ltac:(lia) rest words values
              (mkReader false (Some key) (xargs p) (now r)) p l)
    as (r' & Hr' & Hmode' & _ & Hcounter & Hmem & Hkey & _);
    simpl; try done; [left; lia | by left |].
  simpl in *. exists r'.
  rewrite (read_option_word args range r key p) by done. simpl.
  split; [exact Hr'|]. split.
  { rewrite Hmode'. apply bool_decide_eq_false_2. intros [Hne Heq].
    destruct rest; [done|]. simpl in Heq. lia. }
  split; [exact Hcounter|]. split; [by rewrite Hcounter|].
  split; [done|]. rewrite Hkey.
  destruct (decide (rest = [])) as [->|Hrest].
  - by rewrite bool_decide_eq_true_2 by tauto.
  - rewrite bool_decide_eq_false_2; [done|]. intros [|]; [done|lia].
Qed.

End Values.

Lemma fixed_arity_takes_its_words_witness :
  let args := list_ascii_of_string "--seeds 1.0 2.0 3.0 " in
  let r := start Sample.flags_world in
  let p := mkParam FLOAT 2%N "--seeds" "The seeds." 3 true false "" in
  let rest := [(8, 11); (12, 15); (16, 19)] in
  let words := ["1.0"; "2.0"; "3.0"] in
  let values := [VFloat 1%Q; VFloat 2%Q; VFloat 3%Q] in
  (readingAnOption r = true
   ∧ substr args (0, 7).1 ((0, 7).2 - (0, 7).1) = Some "--seeds"
   ∧ map_find "--seeds" (params_map (now r)) = Some p
   ∧ type p ≠ BOOL ∧ 2 ≤ xargs p ∧ Z.of_nat (length rest) = xargs p
   ∧ memory (now r) !! destination p = Some (Vector [])
   ∧ words_at args rest = Some <$> words
   ∧ Forall2 (λ word v, conversion (type p) word = Some v) (bound_words words) values)
  ∧ ∃ r', read_words args ((0, 7) :: rest) r = Ok (Next r')
      ∧ readingAnOption r' = true
      ∧ memory (now r') = <[destination p := Vector ([] ++ values)]> (memory (now r))
      ∧ map_find "--seeds" (params_map (now r')) = Some (with_set true p)
      ∧ ∀ k, k ≠ "--seeds" →
             map_find k (params_map (now r')) = map_find k (params_map (now r)).
Proof.
  intros args r p rest words values.
  assert (H1 : readingAnOption r = true) by reflexivity.
  assert (H2 : substr args (0, 7).1 ((0, 7).2 - (0, 7).1) = Some "--seeds") by run.
  assert (H3 : map_find "--seeds" (params_map (now r)) = Some p) by run.
  assert (H4 : type p ≠ BOOL) by discriminate.
  assert (H5 : 2 ≤ xargs p) by (simpl; lia).
  assert (H6 : Z.of_nat (length rest) = xargs p) by reflexivity.
  assert (H7 : memory (now r) !! destination p = Some (Vector [])) by run.
  assert (H8 : words_at args rest = Some <$> words) by run.
  assert (H9 : Forall2 (λ word v, conversion (type p) word = Some v)
                       (bound_words words) values)
    by (replace (bound_words _) with ["1.0"; "2.0"; "3.0"] by run;
        repeat (constructor; [run|]); constructor).
  split; [by repeat split|].
  exact (fixed_arity_takes_its_words args r (0, 7) rest "--seeds" p [] words values
           H1 H2 H3 H4 H5 H6 H7 H8 H9).
Defined.

Lemma incomplete_option_is_not_marked_witness :
  let args := list_ascii_of_string "--seeds 1.0 " in
  let r := start Sample.flags_world in
  let p := mkParam FLOAT 2%N "--seeds" "The seeds." 3 true false "" in
  (readingAnOption r = true
   ∧ substr args (0, 7).1 ((0, 7).2 - (0, 7).1) = Some "--seeds"
   ∧ map_find "--seeds" (params_map (now r)) = Some p
   ∧ type p ≠ BOOL ∧ 2 ≤ xargs p ∧ Z.of_nat (length [(8, 11)]) < xargs p
   ∧ memory (now r) !! destination p = Some (Vector [])
   ∧ words_at args [(8, 11)] = Some <$> ["1.0"]
   ∧ Forall2 (λ word v, conversion (type p) word = Some v) (bound_words ["1.0"])
             [VFloat 1%Q])
  ∧ ∃ r', read_words args [(0, 7); (8, 11)] r = Ok (Next r')
      ∧ readingAnOption r' = false
      ∧ parameter_counter r' = xargs p - Z.of_nat (length [(8, 11)])
      ∧ memory (now r') = <[destination p := Vector ([] ++ [VFloat 1%Q])]> (memory (now r))
      ∧ params_map (now r') = params_map (now r).
Proof.
  intros args r p.
  assert (H1 : readingAnOption r = true) by reflexivity.
  assert (H2 : substr args (0, 7).1 ((0, 7).2 - (0, 7).1) = Some "--seeds") by run.
  assert (H3 : map_find "--seeds" (params_map (now r)) = Some p) by run.
  assert (H4 : type p ≠ BOOL) by discriminate.
  assert (H5 : 2 ≤ xargs p) by (simpl; lia).
  assert (H6 : Z.of_nat (length [(8, 11)]) < xargs p) by (simpl; lia).
  assert (H7 : memory (now r) !! destination p = Some (Vector [])) by run.
  assert (H8 : words_at args [(8, 11)] = Some <$> ["1.0"]) by run.
  assert (H9 : Forall2 (λ word v, conversion (type p) word = Some v)
                       (bound_words ["1.0"]) [VFloat 1%Q])
    by (replace (bound_words _) with ["1.0"] by run;
        repeat (constructor; [run|]); constructor).
  split; [by repeat split|].
  exact (incomplete_option_is_not_marked args r (0, 7) _ "--seeds" p [] ["1.0"]
           [VFloat 1%Q] H1 H2 H3 H4 H5 H6 H7 H8 H9).
Defined.

Lemma scalar_option_takes_one_word_witness :
  let args := list_ascii_of_string "--name --fast " in
  let r := start Sample.flags_world in
  let p := mkParam STRING 3%N "--name" "The name." 1 true false "" in
  (readingAnOption r = true
   ∧ substr args (0, 6).1 ((0, 6).2 - (0, 6).1) = Some "--name"
   ∧ map_find "--name" (params_map (now r)) = Some p
   ∧ type p ≠ BOOL ∧ xargs p = 1
   ∧ substr args (7, 13).1 ((7, 13).2 - (7, 13).1) = Some "--fast"
   ∧ ("--fast" ≠ "" → conversion (type p) "--fast" = Some (VString "--fast")))
  ∧ read_words args [(0, 6); (7, 13)] r
    = Ok (Next (mkReader true (Some "--name") 0
                  (mkWorld (map_update "--name" (with_set true) (params_map (now r)))
                           (<[3%N := Scalar (VString "--fast")]> (memory (now r)))))).
Proof.
  intros args r p.
  assert (H1 : readingAnOption r = true) by reflexivity.
  assert (H2 : substr args (0, 6).1 ((0, 6).2 - (0, 6).1) = Some "--name") by run.
  assert (H3 : map_find "--name" (params_map (now r)) = Some p) by run.
  assert (H4 : type p ≠ BOOL) by discriminate.
  assert (H5 : xargs p = 1) by reflexivity.
  assert (H6 : substr args (7, 13).1 ((7, 13).2 - (7, 13).1) = Some "--fast") by run.
  assert (H7 : "--fast" ≠ "" → conversion (type p) "--fast" = Some (VString "--fast"))
    by (intros _; reflexivity).
  split; [by repeat split|].
  exact (scalar_option_takes_one_word args r (0, 6) (7, 13) [] "--name" "--fast" p
           (VString "--fast") H1 H2 H3 H4 H5 H6 H7).
Defined.

Lemma nonpositive_arity_reads_to_the_end_witness :
  let args := list_ascii_of_string "--rest a b " in
  let r := start Sample.rest_world in
  let p := mkParam STRING 1%N "--rest" "The rest." 0 true false "" in
  let values := [VString "a"; VString "b"] in
  (readingAnOption r = true
   ∧ substr args (0, 6).1 ((0, 6).2 - (0, 6).1) = Some "--rest"
   ∧ map_find "--rest" (params_map (now r)) = Some p
   ∧ type p ≠ BOOL ∧ xargs p ≤ 0
   ∧ INT_MIN ≤ xargs p - Z.of_nat (length [(7, 8); (9, 10)])
   ∧ memory (now r) !! destination p = Some (Vector [])
   ∧ words_at args [(7, 8); (9, 10)] = Some <$> ["a"; "b"]
   ∧ Forall2 (λ word v, conversion (type p) word = Some v) (bound_words ["a"; "b"]) values)
  ∧ ∃ r', read_words args [(0, 6); (7, 8); (9, 10)] r = Ok (Next r')
      ∧ readingAnOption r' = false
      ∧ parameter_counter r' = xargs p - Z.of_nat (length [(7, 8); (9, 10)])
      ∧ INT_MIN ≤ parameter_counter r'
      ∧ memory (now r') = <[destination p := Vector ([] ++ values)]> (memory (now r))
      ∧ map_find "--rest" (params_map (now r'))
        = Some (if decide ([(7, 8); (9, 10)] = []) then p else with_set true p).
Proof.
  intros args r p values.
  assert (H1 : readingAnOption r = true) by reflexivity.
  assert (H2 : substr args (0, 6).1 ((0, 6).2 - (0, 6).1) = Some "--rest") by run.
  assert (H3 : map_find "--rest" (params_map (now r)) = Some p) by run.
  assert (H4 : type p ≠ BOOL) by discriminate.
  assert (H5 : xargs p ≤ 0) by (simpl; lia).
  assert (Hint : INT_MIN ≤ xargs p - Z.of_nat (length [(7, 8); (9, 10)]))
    by (unfold INT_MIN; simpl; lia).
  assert (H6 : memory (now r) !! destination p = Some (Vector [])) by run.
  assert (H7 : words_at args [(7, 8); (9, 10)] = Some <$> ["a"; "b"]) by run.
  assert (H8 : Forall2 (λ word v, conversion (type p) word = Some v)
                       (bound_words ["a"; "b"]) values)
    by (replace (bound_words _) with ["a"; "b"] by run;
        repeat (constructor; [run|]); constructor).
  split; [by repeat split|].
  exact (nonpositive_arity_reads_to_the_end args r (0, 6) _ "--rest" p [] ["a"; "b"]
           values H1 H2 H3 H4 H5 Hint H6 H7 H8).
Defined.

(** ** What a parse leaves alone *)

Lemma marked_refl (m : registry) : marked m m.
Proof. apply Forall2_same_length_lookup_2; [done|]. intros i x y -> [= <-]. by left. Qed.

Lemma with_set_idem (p : Param) : with_set true (with_set true p) = with_set true p.
Proof. reflexivity. Qed.

Lemma marked_trans (m1 m2 m3 : registry) : marked m1 m2 → marked m2 m3 → marked m1 m3.
Proof.
  unfold marked. intros H12. revert m3.
  induction H12 as [|e1 e2 m1 m2 He _ IH]; intros m3 H23.
  - by apply Forall2_nil_inv_l in H23 as ->.
  - apply Forall2_cons_inv_l in H23 as (e3 & m3' & He' & H23 & ->).
    constructor; [|by apply IH].
    destruct He as [->| ->], He' as [->| ->]; auto.
Qed.

Lemma marked_update (key : string) (m : registry) :
  marked m (map_update key (with_set true) m).
Proof.
  induction m as [|[k p] m IH]; simpl; [constructor|].
  destruct (decide (k = key)).
  - constructor; [by right | apply marked_refl].
  - constructor; [by left | done].
Qed.

Lemma block_with_set (b : bool) (p : Param) : block (with_set b p) = block p.
Proof. reflexivity. Qed.

Lemma blocks_marked (m m' : registry) : marked m m' → blocks m' = blocks m.
Proof.
  induction 1 as [|e e' m m' He _ IH]; [reflexivity|]. simpl. rewrite IH.
  by destruct He as [->| ->].
Qed.

Lemma marked_find (m m' : registry) (key : string) :
  marked m m' →
  map_find key m' = map_find key m ∨ map_find key m' = with_set true <$> map_find key m.
Proof.
  induction 1 as [|[k p] e' m m' He _ IH]; [by left|].
  destruct He as [->| ->]; simpl; destruct (decide (k = key)); auto.
Qed.

Section Framing.

Context `{StdConv}.

Lemma read_word_marked (args : list ascii) (range : Z * Z) (r : reader) (f : flow) :
  read_word args range r = Ok f →
  marked (params_map (now r)) (params_map (world_of f)).
Proof.
  unfold read_word. intros Hread.
  destruct (substr args range.1 (range.2 - range.1)) as [key|]; [|done].
  destruct (readingAnOption r).
  - destruct (map_find key (params_map (now r))) as [param|]; [|done].
    case_bool_decide.
    + injection Hread as <-. apply marked_refl.
    + destruct (Param_Set param "true" (memory (now r))); simpl in Hread; try done.
      case_bool_decide; injection Hread as <-; apply marked_refl.
  - destruct (parameter r) as [at_key|]; [|done].
    destruct (map_find at_key (params_map (now r))) as [param|]; [|done].
    destruct (Param_Set param key (memory (now r))); simpl in Hread; try done.
    destruct (parameter_counter r - 1 =? 0);
      [|destruct (parameter_counter r - 1 <? 0)];
      injection Hread as <-; simpl;
      auto using marked_refl, marked_update.
Qed.

Lemma read_words_marked (args : list ascii) (pos : list (Z * Z)) (r : reader) (f : flow) :
  read_words args pos r = Ok f →
  marked (params_map (now r)) (params_map (world_of f)).
Proof.
  revert r. induction pos as [|range pos IH]; intros r; simpl.
  - intros [= <-]. apply marked_refl.
  - destruct (read_word args range r) as [g| | | |] eqn:Hword; simpl; try done.
    apply read_word_marked in Hword.
    destruct g as [r'|w']; simpl in *.
    + intros Hrest. eapply marked_trans; [exact Hword | by apply IH].
    + by intros [= <-].
Qed.

Lemma argparse_marked (argv : list string) (w w' : world) :
  argparse argv w = Ok w' → marked (params_map w) (params_map w').
Proof.
  unfold argparse, word_pass.
  destruct (working_string argv) as [args|]; [|done].
  destruct (word_positions args) as [pos|]; [|done].
  destruct (read_words args pos (start w)) as [f| | | |] eqn:Hread; simpl; try done.
  apply read_words_marked in Hread.
  destruct f as [r|w'']; simpl in *.
  - destruct (check_required (params_map (now r))); simpl; try done.
    by intros [= <-].
  - by intros [= <-].
Qed.

(** X10: a parse that returns leaves the map with the keys it had, in the
    order they had, and every descriptor as it was but for the member
    [set], which it may have turned to true and never to false. *)
Theorem parse_only_marks_entries (argv : list string) (w w' : world) :
  argparse argv w = Ok w' →
  marked (params_map w) (params_map w')
  ∧ map fst (params_map w') = map fst (params_map w)
  ∧ ∀ key p, map_find key (params_map w) = Some p →
      ∃ p', map_find key (params_map w') = Some p'
            ∧ with_set (set p') p = p' ∧ (set p = true → set p' = true).
Proof.
  intros Hparse. apply argparse_marked in Hparse. split; [done|]. split.
  - induction Hparse as [|e e' m m' He _ IH]; [reflexivity|]. simpl. rewrite IH.
    by destruct He as [->| ->].
  - intros key p Hp. destruct (marked_find _ _ key Hparse) as [E|E]; rewrite Hp in E.
    + exists p. split; [done|]. by destruct p.
    + exists (with_set true p). done.
Qed.

(** X11: the help text is the same after a parse that returns as it was
    before. *)
Theorem help_text_survives_a_parse (argv : list string) (w w' : world) :
  argparse argv w = Ok w' → argdetails (params_map w') = argdetails (params_map w).
Proof.
  intros Hparse. apply argparse_marked in Hparse.
  unfold argdetails. rewrite !argdetails_from. by rewrite (blocks_marked _ _ Hparse).
Qed.

Lemma read_word_frame (args : list ascii) (range : Z * Z) (r : reader) (f : flow)
    (d : addr) :
  (∀ key p, map_find key (params_map (now r)) = Some p → destination p ≠ d) →
  read_word args range r = Ok f →
  memory (world_of f) !! d = memory (now r) !! d.
Proof.
  intros Hfree. unfold read_word.
  destruct (substr args range.1 (range.2 - range.1)) as [key|]; [|done].
  destruct (readingAnOption r).
  - destruct (map_find key (params_map (now r))) as [param|] eqn:Hfind; [|done].
    case_bool_decide.
    + by intros [= <-].
    + destruct (Param_Set param "true" (memory (now r))) as [st'| | | |] eqn:Hset;
        simpl; try done.
      assert (st' !! d = memory (now r) !! d) as Hst'.
      { eapply Param_Set_other; [done|]. intros ->. by eapply Hfree. }
      case_bool_decide; by intros [= <-].
  - destruct (parameter r) as [at_key|]; [|done].
    destruct (map_find at_key (params_map (now r))) as [param|] eqn:Hfind; [|done].
    destruct (Param_Set param key (memory (now r))) as [st'| | | |] eqn:Hset;
      simpl; try done.
    assert (st' !! d = memory (now r) !! d) as Hst'.
    { eapply Param_Set_other; [done|]. intros ->. by eapply Hfree. }
    destruct (parameter_counter r - 1 =? 0);
      [|destruct (parameter_counter r - 1 <? 0)]; by intros [= <-].
Qed.

Lemma read_words_frame (args : list ascii) (d : addr) (pos : list (Z * Z)) :
  ∀ (r : reader) (f : flow),
    (∀ key p, map_find key (params_map (now r)) = Some p → destination p ≠ d) →
    read_words args pos r = Ok f →
    memory (world_of f) !! d = memory (now r) !! d.
Proof.
  induction pos as [|range pos IH]; intros r f Hfree; simpl.
  - by intros [= <-].
  - destruct (read_word args range r) as [g| | | |] eqn:Hword; simpl; try done.
    pose proof (read_word_frame _ _ _ _ d Hfree Hword) as Hstep.
    pose proof (read_word_evolves _ _ _ _ Hword) as Hev.
    destruct g as [r'|w'']; simpl in *.
    + intros Hrest. rewrite <- Hstep. apply IH; [|done].
      intros key p' Hp'.
      destruct (evolves_find_inv _ _ _ _ Hev Hp') as (p & Hp & _ & -> & _).
      by eapply Hfree.
    + by intros [= <-].
Qed.

(** X12: [argparse] writes through the destinations of the registered
    options and nowhere else: a variable that no descriptor of the map
    points at holds after a parse that returns what it held before. *)
Theorem parse_writes_destinations_only (argv : list string) (w w' : world) (d : addr) :
  (∀ key p, map_find key (params_map w) = Some p → destination p ≠ d) →
  argparse argv w = Ok w' →
  memory w' !! d = memory w !! d.
Proof.
  intros Hfree. unfold argparse, word_pass.
  destruct (working_string argv) as [args|]; [|done].
  destruct (word_positions args) as [pos|]; [|done].
  destruct (read_words args pos (start w)) as [f| | | |] eqn:Hread; simpl; try done.
  apply (read_words_frame args d) in Hread; [|done].
  destruct f as [r|w'']; simpl in *.
  - destruct (check_required (params_map (now r))); simpl; try done.
    by intros [= <-].
  - by intros [= <-].
Qed.

Lemma read_word_returns (args : list ascii) (range : Z * Z) (r : reader) (w' : world) :
  read_word args range r = Ok (Return w') →
  ∃ p, map_find "--help" (params_map (now r)) = Some p ∧ type p = BOOL.
Proof.
  unfold read_word.
  destruct (substr args range.1 (range.2 - range.1)) as [key|]; [|done].
  destruct (readingAnOption r).
  - destruct (map_find key (params_map (now r))) as [param|] eqn:Hfind; [|done].
    case_bool_decide as Hbool; [done|].
    destruct (Param_Set param "true" (memory (now r))); simpl; try done.
    case_bool_decide as Hkey; [|done]. subst key. intros _.
    exists param. split; [done|]. by destruct (decide (type param = BOOL)); [|tauto].
  - destruct (parameter r) as [at_key|]; [|done].
    destruct (map_find at_key (params_map (now r))) as [param|]; [|done].
    destruct (Param_Set param key (memory (now r))); simpl; try done.
    destruct (parameter_counter r - 1 =? 0);
      [|destruct (parameter_counter r - 1 <? 0)]; done.
Qed.

Lemma read_words_returns (args : list ascii) (pos : list (Z * Z)) :
  ∀ (r : reader) (w' : world),
    read_words args pos r = Ok (Return w') →
    ∃ p, map_find "--help" (params_map (now r)) = Some p ∧ type p = BOOL.
Proof.
  induction pos as [|range pos IH]; intros r w'; simpl; [done|].
  destruct (read_word args range r) as [g| | | |] eqn:Hword; simpl; try done.
  destruct g as [r'|w''].
  - intros Hrest. pose proof (read_word_evolves _ _ _ _ Hword) as Hev.
    destruct (IH _ _ Hrest) as (p' & Hp' & Hbool).
    destruct (evolves_find_inv _ _ _ _ Hev Hp') as (p & Hp & Htype & _).
    exists p. split; [done|]. congruence.
  - intros _. by eapply read_word_returns.
Qed.

(** X13: in a program that registers no boolean option [--help], a parse
    that returns has found every required option: each entry of the map
    that is required is set. *)
Theorem returned_parse_has_the_required_options (argv : list string) (w w' : world) :
  (∀ p, map_find "--help" (params_map w) = Some p → type p ≠ BOOL) →
  argparse argv w = Ok w' →
  ∀ entry, entry ∈ params_map w' → required entry.2 = true → set entry.2 = true.
Proof.
  intros Hhelp. unfold argparse, word_pass.
  destruct (working_string argv) as [args|]; [|done].
  destruct (word_positions args) as [pos|]; [|done].
  destruct (read_words args pos (start w)) as [f| | | |] eqn:Hread; simpl; try done.
  destruct f as [r|w'']; simpl.
  - destruct (check_required (params_map (now r))) as [[]| | | |] eqn:Hcheck;
      simpl; try done.
    intros [= <-]. by apply check_required_passes.
  - apply read_words_returns in Hread as (p & Hp & Hbool). by apply Hhelp in Hp.
Qed.

End Framing.

Lemma parse_only_marks_entries_witness :
  let w := Scenario.name_world in
  let w' := mkWorld (map_update "--name" (with_set true) (params_map w))
                    (<[1%N := Scalar (VString "x")]> (memory w)) in
  argparse ["prog"; "--name"; "x"] w = Ok w'
  ∧ marked (params_map w) (params_map w')
  ∧ map fst (params_map w') = map fst (params_map w)
  ∧ ∀ key p, map_find key (params_map w) = Some p →
      ∃ p', map_find key (params_map w') = Some p'
            ∧ with_set (set p') p = p' ∧ (set p = true → set p' = true).
Proof.
  intros w w'.
  assert (Hparse : argparse ["prog"; "--name"; "x"] w = Ok w') by run.
  split; [exact Hparse|].
  exact (parse_only_marks_entries ["prog"; "--name"; "x"] w w' Hparse).
Defined.

Lemma help_text_survives_a_parse_witness :
  let w := Scenario.name_world in
  let w' := mkWorld (map_update "--name" (with_set true) (params_map w))
                    (<[1%N := Scalar (VString "x")]> (memory w)) in
  argparse ["prog"; "--name"; "x"] w = Ok w'
  ∧ argdetails (params_map w') = argdetails (params_map w).
Proof.
  intros w w'.
  assert (Hparse : argparse ["prog"; "--name"; "x"] w = Ok w') by run.
  split; [exact Hparse|].
  exact (help_text_survives_a_parse ["prog"; "--name"; "x"] w w' Hparse).
Defined.

Lemma parse_writes_destinations_only_witness :
  let w := mkWorld (params_map Scenario.name_world)
                   (<[7%N := Scalar (VInt 42)]> (memory Scenario.name_world)) in
  let w' := mkWorld (map_update "--name" (with_set true) (params_map w))
                    (<[1%N := Scalar (VString "x")]> (memory w)) in
  ((∀ key p, map_find key (params_map w) = Some p → destination p ≠ 7%N)
   ∧ argparse ["prog"; "--name"; "x"] w = Ok w')
  ∧ memory w' !! 7%N = memory w !! 7%N.
Proof.
  intros w w'.
  assert (Hfree : ∀ key p, map_find key (params_map w) = Some p → destination p ≠ 7%N).
  { intros key p.
    replace (params_map w)
      with [("--name", mkParam STRING 1%N "--name" "The name of the run." 1 true false "")]
      by run.
    simpl. case_decide; [|done]. by intros [= <-]. }
  assert (Hparse : argparse ["prog"; "--name"; "x"] w = Ok w') by run.
  split; [by split|].
  exact (parse_writes_destinations_only ["prog"; "--name"; "x"] w w' 7%N Hfree Hparse).
Defined.

Lemma returned_parse_has_the_required_options_witness :
  let w := Scenario.name_world in
  let w' := mkWorld (map_update "--name" (with_set true) (params_map w))
                    (<[1%N := Scalar (VString "x")]> (memory w)) in
  ((∀ p, map_find "--help" (params_map w) = Some p → type p ≠ BOOL)
   ∧ argparse ["prog"; "--name"; "x"] w = Ok w')
  ∧ ∀ entry, entry ∈ params_map w' → required entry.2 = true → set entry.2 = true.
Proof.
  intros w w'.
  assert (Hhelp : ∀ p, map_find "--help" (params_map w) = Some p → type p ≠ BOOL).
  { intros p. replace (map_find "--help" (params_map w)) with (@None Param) by run. done. }
  assert (Hparse : argparse ["prog"; "--name"; "x"] w = Ok w') by run.
  split; [by split|].
  exact (returned_parse_has_the_required_options ["prog"; "--name"; "x"] w w' Hhelp Hparse).
Defined.

(** ** The working string, character by character *)

Lemma working_string_lookup (argv : list string) (args : list ascii) (i : nat) :
  let joined := join_args (tail argv) in
  working_string argv = Some args →
  args !! i
  = if decide (joined !! i = Some chr_equals
               ∧ 0 ≤ find chr_space 0 joined < Z.of_nat i
               ∧ joined !! (i - 1)%nat ≠ Some chr_backslash)
    then Some chr_space else joined !! i.
Proof.
  intros joined Hargs. unfold working_string in Hargs. fold joined in Hargs.
  set (p0 := find chr_space 0 joined) in *.
  pose proof (equals_loop_length _ _ _ _ Hargs) as Hlen.
  assert (Hp0 : p0 = npos ∨ 0 ≤ p0).
  { destruct (find_range chr_space 0 joined) as [|[? _]]; [by left|right; lia]. }
  assert (Hhere : p0 ≠ npos → joined !! Z.to_nat p0 = Some chr_space).
  { intros Hne. by destruct (find_found chr_space 0 joined p0 eq_refl Hne) as (_ & ? & _). }
  destruct (equals_loop_spec _ p0 joined args Hargs Hp0
              ltac:(intros Hne; by rewrite Hhere)) with (i := i) as [Hblank Hkeep].
  destruct (decide _) as [(Heq & Hfirst & Hback)|Hnot].
  - apply Hblank; [|by eapply lookup_lt_Some].
    repeat split; try done; [unfold npos; lia | lia | by right | lia].
  - destruct (decide (blanked joined p0 i)) as [Hb|Hnb]; [|by apply Hkeep].
    pose proof Hb as (Hne & Hle & Hor & Hpos & Hback).
    specialize (Hhere Hne).
    assert (Hi : Z.of_nat i = p0).
    { destruct Hor as [|Heq]; [done|].
      destruct (decide (Z.of_nat i = p0)) as [|Hne']; [done|].
      exfalso. apply Hnot. repeat split; try done; unfold npos in *; lia. }
    rewrite <- Hi, Nat2Z.id in Hhere. rewrite Hhere.
    apply Hblank; [done|]. by eapply lookup_lt_Some.
Qed.

(** X15: the working string always exists and is the joined arguments,
    character by character, but for the [=] signs that stand after the
    first space with no backslash right before them: these are spaces.
    Nothing else is changed, added or removed. *)
Theorem working_string_is_the_joined_arguments (argv : list string) :
  let joined := join_args (tail argv) in
  ∃ args, working_string argv = Some args
    ∧ length args = length joined
    ∧ ∀ i : nat,
        args !! i
        = if decide (joined !! i = Some chr_equals
                     ∧ 0 ≤ find chr_space 0 joined < Z.of_nat i
                     ∧ joined !! (i - 1)%nat ≠ Some chr_backslash)
          then Some chr_space else joined !! i.
Proof.
  intros joined. destruct (working_string_total argv) as [args Hargs].
  exists args. split; [done|]. split.
  - unfold working_string in Hargs. by apply equals_loop_length in Hargs.
  - intros i. by apply working_string_lookup.
Qed.

(** ** The words the scan records *)

Lemma scan_loop_records (args : list ascii) (fuel : nat) :
  ∀ (p : Z) (pos pos' : list (Z * Z)),
    p = npos ∨ 0 ≤ p →
    scan_loop fuel args p pos = Some pos' →
    ∃ suffix, pos' = pos ++ suffix
      ∧ ((Forall (in_bounds args) suffix
          ∧ Forall (λ range, p ≠ npos ∧ p ≤ range.1) suffix
          ∧ StronglySorted (λ a b, a.2 < b.1) suffix)
         ∨ ∃ k, restarts args k p).
Proof.
  induction fuel as [|fuel IH]; intros p pos pos' Hp Hscan.
  - destruct (decide (scanning args p)) as [Hs|Hs].
    + by rewrite scan_loop_out_of_fuel in Hscan.
    + rewrite scan_loop_done in Hscan by done. injection Hscan as <-.
      exists []. rewrite app_nil_r. split; [done|]. left. repeat constructor.
  - destruct (decide (scanning args p)) as [Hs|Hs].
    2: { rewrite scan_loop_done in Hscan by done. injection Hscan as <-.
         exists []. rewrite app_nil_r. split; [done|]. left. repeat constructor. }
    rewrite scan_loop_turn in Hscan by done.
    assert (Hnext : next_word args p = npos
                    ∨ word_end args p + 1 ≤ next_word args p).
    { unfold next_word.
      destruct (find_first_not_of_range chr_space (word_end args p + 1) args)
        as [|[? _]]; [by left|right; lia]. }
    destruct (decide (word_end args p = npos)) as [Hend|Hend].
    { apply IH in Hscan as (suffix & -> & _).
      - exists (word_range args p :: suffix). rewrite <- app_assoc. split; [done|].
        right. exists 0%nat. by split.
      - unfold next_word. rewrite Hend.
        destruct (find_first_not_of_range chr_space (npos + 1) args)
          as [|[? ?]]; [by left | right; lia]. }
    destruct Hs as [Hne Hlast]. destruct Hp as [|Hp]; [done|].
    assert (Hafter : p + 1 ≤ word_end args p < Z.of_nat (length args)).
    { unfold word_end in *. destruct (bool_decide _).
      - by apply (find_found chr_quote (p + 1) args).
      - by apply (find_found chr_space (p + 1) args). }
    apply IH in Hscan as (suffix & -> & Hcases).
    2: { destruct Hnext as [|Hnext]; [by left|right; lia]. }
    exists (word_range args p :: suffix). rewrite <- app_assoc. split; [done|].
    destruct Hcases as [(Hin & Hfrom & Hsorted)|[k Hk]].
    2: { right. exists (S k). by split. }
    left.
    assert (Hfrom' : Forall (λ range, word_end args p < range.1) suffix).
    { eapply Forall_impl; [exact Hfrom|]. intros range [Hn Hle]. simpl in *.
      destruct Hnext as [|Hnext]; [done|]. lia. }
    assert (Hrange : (word_range args p).1 = p ∨ (word_range args p).1 = p + 1).
    { unfold word_range. destruct (bool_decide _); simpl; auto. }
    assert (Hrange2 : (word_range args p).2 = word_end args p).
    { unfold word_range. by destruct (bool_decide _). }
    split; [|split].
    + constructor; [|done]. unfold in_bounds. rewrite Hrange2. lia.
    + constructor; [split; [done|lia]|].
      eapply Forall_impl; [exact Hfrom'|]. intros range Hr. simpl in *. split; [done|lia].
    + constructor; [done|]. by rewrite Hrange2.
Qed.

Lemma length_string_of_list_ascii (l : list ascii) :
  String.length (string_of_list_ascii l) = length l.
Proof. induction l as [|c l IH]; simpl; [done | by rewrite IH]. Qed.

Lemma length_list_ascii_of_string (s : string) :
  length (list_ascii_of_string s) = String.length s.
Proof. induction s as [|c s IH]; simpl; [done | by rewrite IH]. Qed.

Lemma substr_in_bounds (args : list ascii) (range : Z * Z) :
  in_bounds args range →
  ∃ word, substr args range.1 (range.2 - range.1) = Some word
          ∧ Z.of_nat (String.length word) = range.2 - range.1.
Proof.
  intros (H0 & H1 & H2). unfold substr.
  destruct (Z.ltb_spec range.1 0); [lia|].
  destruct (Z.ltb_spec (Z.of_nat (length args)) range.1); [lia|]. simpl.
  destruct (Z.ltb_spec (range.2 - range.1) 0); [lia|].
  eexists. split; [done|].
  rewrite length_string_of_list_ascii, length_take, length_drop. lia.
Qed.

(** X16: when the scan of the working string ends, every word it has
    recorded lies inside the string, the words follow one another without
    overlap in the order they were recorded, and each can be cut out: the
    reading loop gets a word, of the length its two positions tell, for
    every pair of positions. *)
Theorem recorded_words_lie_in_the_string (args : list ascii) (pos : list (Z * Z)) :
  word_positions args = Some pos →
  Forall (in_bounds args) pos
  ∧ StronglySorted (λ a b, a.2 < b.1) pos
  ∧ ∃ words, words_at args pos = Some <$> words
             ∧ Forall2 (λ range word, Z.of_nat (String.length word) = range.2 - range.1)
                       pos words.
Proof.
  unfold word_positions. intros Hscan.
  destruct (scan_loop_records args _ _ [] pos
              ltac:(destruct (find_first_not_of_range chr_space 0 args) as [|[? _]];
                    [by left | right; lia]) Hscan)
    as (suffix & -> & [(Hin & _ & Hsorted)|[k Hk]]).
  2: { by rewrite (restarts_forever args k Hk) in Hscan. }
  simpl. split; [done|]. split; [done|].
  clear Hscan Hsorted. induction Hin as [|range suffix Hrange _ (words & Hwords & Hlens)].
  - exists []. split; [done | constructor].
  - destruct (substr_in_bounds args range Hrange) as (word & Hword & Hlen).
    exists (word :: words). split; [|by constructor].
    unfold words_at in *. simpl. by rewrite Hword, Hwords.
Qed.

Lemma recorded_words_lie_in_the_string_witness :
  let args := list_ascii_of_string "--name  x " in
  word_positions args = Some [(0, 6); (8, 9)]
  ∧ Forall (in_bounds args) [(0, 6); (8, 9)]
  ∧ StronglySorted (λ a b, a.2 < b.1) [(0, 6); (8, 9)]
  ∧ ∃ words, words_at args [(0, 6); (8, 9)] = Some <$> words
             ∧ Forall2 (λ range word, Z.of_nat (String.length word) = range.2 - range.1)
                       [(0, 6); (8, 9)] words.
Proof.
  intros args.
  assert (Hpos : word_positions args = Some [(0, 6); (8, 9)]) by run.
  split; [exact Hpos|].
  exact (recorded_words_lie_in_the_string args _ Hpos).
Defined.

(** ** Plain and quoted words come through the tokenizer *)

Lemma find_first_not_of_here (c x : ascii) (from : Z) (s : list ascii) :
  0 ≤ from → s !! Z.to_nat from = Some x → x ≠ c →
  find_first_not_of c from s = from.
Proof.
  intros Hfrom Hx Hne. unfold find_first_not_of.
  destruct (Z.ltb_spec from 0); [lia|].
  rewrite (drop_S _ _ _ Hx). simpl. rewrite decide_True by done. lia.
Qed.

Lemma find_first_not_of_skip (c : ascii) (from : Z) (s : list ascii) :
  0 ≤ from → s !! Z.to_nat from = Some c →
  find_first_not_of c from s = find_first_not_of c (from + 1) s.
Proof.
  intros Hfrom Hc. unfold find_first_not_of.
  destruct (Z.ltb_spec from 0); [lia|].
  destruct (Z.ltb_spec (from + 1) 0); [lia|].
  rewrite (drop_S _ _ _ Hc). simpl. rewrite decide_False by tauto.
  replace (Z.to_nat (from + 1)) with (S (Z.to_nat from)) by lia.
  destruct (list_find _ _) as [[i y]|]; simpl; [lia|done].
Qed.

Lemma find_first_not_of_end (c : ascii) (from : Z) (s : list ascii) :
  Z.of_nat (length s) ≤ from → find_first_not_of c from s = npos.
Proof.
  intros Hfrom. unfold find_first_not_of.
  destruct (Z.ltb_spec from 0); [done|].
  by rewrite drop_ge by lia.
Qed.

Lemma length_join_args (ws : list string) : (length ws ≤ length (join_args ws))%nat.
Proof.
  induction ws as [|w ws IH]; simpl; [done|]. rewrite length_app. simpl. lia.
Qed.

Lemma length_bound_words (ws : list string) : (length (bound_words ws) ≤ length ws)%nat.
Proof. apply length_filter. Qed.

Ltac lengths :=
  repeat first [rewrite length_app | rewrite length_list_ascii_of_string
               | progress cbn [length String.length]];
  try lia.

(** One turn of the scan at a word between spaces. *)
Lemma scan_loop_plain_turn (args pre cs rest : list ascii) (c : ascii)
    (fuel : nat) (pos : list (Z * Z)) :
  args = pre ++ (c :: cs) ++ chr_space :: rest →
  Forall (λ x, x ≠ chr_space ∧ x ≠ chr_quote) (c :: cs) →
  let p := Z.of_nat (length pre) in
  find_first_not_of chr_space p args = p
  ∧ scan_loop (S fuel) args p pos
    = scan_loop fuel args
        (find_first_not_of chr_space (p + Z.of_nat (length (c :: cs)) + 1) args)
        (pos ++ [(p, p + Z.of_nat (length (c :: cs)))]).
Proof.
  intros -> Hword p.
  set (args := pre ++ (c :: cs) ++ chr_space :: rest).
  assert (Hlen : Z.of_nat (length args)
                 = p + 1 + Z.of_nat (length cs) + 1 + Z.of_nat (length rest)).
  { unfold args, p. lengths. }
  assert (Hat : ∀ i : nat, (i < S (length cs))%nat →
                           args !! (length pre + i)%nat = (c :: cs) !! i).
  { intros i Hi. unfold args. rewrite lookup_app_r by lia.
    replace (length pre + i - length pre)%nat with i by lia.
    by rewrite lookup_app_l by (simpl; lia). }
  assert (Hspace : args !! (length pre + S (length cs))%nat = Some chr_space).
  { unfold args. rewrite lookup_app_r by lia.
    replace (length pre + S (length cs) - length pre)%nat with (length (c :: cs))
      by (simpl; lia).
    by apply list_lookup_middle. }
  assert (Hfirst : args !! length pre = Some c).
  { specialize (Hat 0%nat ltac:(lia)). by rewrite Nat.add_0_r in Hat. }
  pose proof Hword as [Hc Hcs]%Forall_cons.
  split.
  { apply (find_first_not_of_here chr_space c); [lia| |tauto].
    unfold p. by rewrite Nat2Z.id. }
  assert (Hscan : scanning args p) by (split; [unfold npos; lia | lia]).
  assert (Hchar : char_at args p ≠ chr_quote).
  { unfold char_at, p. rewrite Nat2Z.id, Hfirst. simpl. tauto. }
  assert (Hend : word_end args p = p + Z.of_nat (length (c :: cs))).
  { unfold word_end. rewrite bool_decide_eq_false_2 by done.
    apply find_is; [simpl length; lia| |].
    - replace (Z.to_nat (p + Z.of_nat (length (c :: cs))))
        with (length pre + S (length cs))%nat by (simpl length; lia).
      done.
    - intros i Hi. simpl length in Hi.
      replace i with (length pre + (i - length pre))%nat by lia.
      rewrite Hat by lia. intros Hlook.
      apply list_elem_of_lookup_2 in Hlook.
      rewrite Forall_forall in Hword. apply Hword in Hlook. tauto. }
  rewrite scan_loop_turn by done.
  unfold next_word, word_range. rewrite bool_decide_eq_false_2 by done.
  by rewrite Hend.
Qed.

(** One turn of the scan at a word between quotes. *)
Lemma scan_loop_quoted_turn (args pre body rest : list ascii)
    (fuel : nat) (pos : list (Z * Z)) :
  args = pre ++ chr_quote :: body ++ chr_quote :: rest →
  Forall (λ x, x ≠ chr_quote) body →
  let p := Z.of_nat (length pre) in
  find_first_not_of chr_space p args = p
  ∧ scan_loop (S fuel) args p pos
    = scan_loop fuel args
        (find_first_not_of chr_space (p + Z.of_nat (length body) + 2) args)
        (pos ++ [(p + 1, p + 1 + Z.of_nat (length body))]).
Proof.
  intros -> Hbody p.
  set (args := pre ++ chr_quote :: body ++ chr_quote :: rest).
  assert (Hlen : Z.of_nat (length args)
                 = p + 1 + Z.of_nat (length body) + 1 + Z.of_nat (length rest)).
  { unfold args, p. lengths. }
  assert (Hfirst : args !! length pre = Some chr_quote).
  { unfold args. by apply list_lookup_middle. }
  assert (Hat : ∀ i : nat, (i < length body)%nat →
                           args !! (length pre + 1 + i)%nat = body !! i).
  { intros i Hi. unfold args. rewrite lookup_app_r by lia.
    replace (length pre + 1 + i - length pre)%nat with (S i) by lia.
    simpl. by rewrite lookup_app_l by lia. }
  assert (Hclose : args !! (length pre + 1 + length body)%nat = Some chr_quote).
  { unfold args. rewrite lookup_app_r by lia.
    replace (length pre + 1 + length body - length pre)%nat with (S (length body)) by lia.
    simpl. by apply list_lookup_middle. }
  split.
  { apply (find_first_not_of_here chr_space chr_quote); [lia| |done].
    unfold p. by rewrite Nat2Z.id. }
  assert (Hscan : scanning args p) by (split; [unfold npos; lia | lia]).
  assert (Hchar : char_at args p = chr_quote).
  { unfold char_at, p. by rewrite Nat2Z.id, Hfirst. }
  assert (Hend : word_end args p = p + 1 + Z.of_nat (length body)).
  { unfold word_end. rewrite bool_decide_eq_true_2 by done.
    apply find_is; [lia| |].
    - replace (Z.to_nat (p + 1 + Z.of_nat (length body)))
        with (length pre + 1 + length body)%nat by lia.
      done.
    - intros i Hi.
      replace i with (length pre + 1 + (i - length pre - 1))%nat by lia.
      rewrite Hat by lia. intros Hlook.
      apply list_elem_of_lookup_2 in Hlook.
      rewrite Forall_forall in Hbody. by apply Hbody in Hlook. }
  rewrite scan_loop_turn by done.
  unfold next_word, word_range. rewrite bool_decide_eq_true_2 by done.
  rewrite Hend. do 2 f_equal. lia.
Qed.

Lemma plain_not_space_or_quote (w : string) :
  plain w → Forall (λ x, x ≠ chr_space ∧ x ≠ chr_quote) (list_ascii_of_string w).
Proof. intros Hw. eapply Forall_impl; [exact Hw|]. intros x. simpl. tauto. Qed.

(** The scan over plain words, with whatever follows them. *)
Lemma scan_loop_plain_then (ws : list string) (rest : list ascii) :
  ∀ (args pre : list ascii) (pos : list (Z * Z)) (fuel : nat),
    args = pre ++ join_args ws ++ rest → Forall plain ws →
    scan_loop (length (bound_words ws) + fuel) args
              (find_first_not_of chr_space (Z.of_nat (length pre)) args) pos
    = scan_loop fuel args
        (find_first_not_of chr_space (Z.of_nat (length (pre ++ join_args ws))) args)
        (pos ++ ranges_of (Z.of_nat (length pre)) ws).
Proof.
  induction ws as [|w ws IH]; intros args pre pos fuel Hargs Hplain.
  - simpl. by rewrite !app_nil_r.
  - apply Forall_cons in Hplain as [Hw Hws].
    simpl join_args in *. simpl ranges_of. unfold bound_words.
    destruct (decide (w = "")) as [->|Hne].
    + rewrite filter_cons_False by tauto. simpl in Hargs.
      rewrite find_first_not_of_skip; [|lia|].
      2: { rewrite Nat2Z.id, Hargs. by apply list_lookup_middle. }
      replace (Z.of_nat (length pre) + 1) with (Z.of_nat (length (pre ++ [chr_space])))
        by lengths.
      replace (Z.of_nat (length pre) + Z.of_nat (String.length "") + 1)
        with (Z.of_nat (length (pre ++ [chr_space]))) by lengths.
      replace (pre ++ list_ascii_of_string "" ++ chr_space :: join_args ws)
        with ((pre ++ [chr_space]) ++ join_args ws) by (by rewrite <- app_assoc).
      apply IH; [|done]. rewrite Hargs. by rewrite <- app_assoc.
    + rewrite filter_cons_True by done.
      destruct w as [|c w]; [done|].
      change (list_ascii_of_string (String c w)) with (c :: list_ascii_of_string w) in *.
      destruct (scan_loop_plain_turn args pre (list_ascii_of_string w)
                  (join_args ws ++ rest) c (length (bound_words ws) + fuel) pos)
        as [Hhere Hturn].
      { rewrite Hargs. by rewrite <- !app_assoc. }
      { by apply plain_not_space_or_quote in Hw. }
      rewrite Hhere. change (length (String c w :: filter _ ws))
        with (S (length (bound_words ws))).
      change (S (length (bound_words ws)) + fuel)%nat
        with (S (length (bound_words ws) + fuel)).
      rewrite Hturn.
      replace (Z.of_nat (length pre) + Z.of_nat (length (c :: list_ascii_of_string w)) + 1)
        with (Z.of_nat (length (pre ++ (c :: list_ascii_of_string w) ++ [chr_space])))
        by lengths.
      rewrite (IH args (pre ++ (c :: list_ascii_of_string w) ++ [chr_space])); [|..|done].
      2: { rewrite Hargs. by rewrite <- !app_assoc. }
      replace ((pre ++ (c :: list_ascii_of_string w) ++ [chr_space]) ++ join_args ws)
        with (pre ++ (c :: list_ascii_of_string w) ++ chr_space :: join_args ws)
        by (by rewrite <- !app_assoc).
      f_equal. rewrite <- app_assoc. simpl. repeat f_equal; lengths.
Qed.

Lemma scan_loop_plain (ws : list string) (args pre : list ascii) (pos : list (Z * Z))
    (fuel : nat) :
  args = pre ++ join_args ws → Forall plain ws → (length ws ≤ fuel)%nat →
  scan_loop fuel args (find_first_not_of chr_space (Z.of_nat (length pre)) args) pos
  = Some (pos ++ ranges_of (Z.of_nat (length pre)) ws).
Proof.
  intros Hargs Hplain Hfuel. pose proof (length_bound_words ws).
  replace fuel with (length (bound_words ws) + (fuel - length (bound_words ws)))%nat by lia.
  rewrite (scan_loop_plain_then ws [] args pre) by (by rewrite ?app_nil_r).
  rewrite find_first_not_of_end by (rewrite Hargs; lia).
  by rewrite scan_loop_done by (by intros [? _]).
Qed.

(** The words cut out at the places of plain words. *)
Lemma words_at_plain (ws : list string) (rest : list ascii) :
  ∀ args pre : list ascii,
    args = pre ++ join_args ws ++ rest →
    words_at args (ranges_of (Z.of_nat (length pre)) ws) = Some <$> bound_words ws.
Proof.
  induction ws as [|w ws IH]; intros args pre Hargs; [done|].
  simpl join_args in Hargs. simpl ranges_of. unfold bound_words.
  replace (Z.of_nat (length pre) + Z.of_nat (String.length w) + 1)
    with (Z.of_nat (length (pre ++ list_ascii_of_string w ++ [chr_space])))
    by lengths.
  assert (Hargs' : args = (pre ++ list_ascii_of_string w ++ [chr_space])
                          ++ join_args ws ++ rest).
  { rewrite Hargs. by rewrite <- !app_assoc. }
  destruct (decide (w = "")) as [->|Hne].
  - rewrite filter_cons_False by tauto. by apply IH.
  - rewrite filter_cons_True by done.
    unfold words_at in *. simpl. rewrite (IH _ _ Hargs'). f_equal.
    unfold substr.
    destruct (Z.ltb_spec (Z.of_nat (length pre)) 0); [lia|].
    destruct (Z.ltb_spec (Z.of_nat (length args)) (Z.of_nat (length pre))) as [Hlt|_].
    { revert Hlt. rewrite Hargs. lengths. }
    simpl.
    match goal with |- context [?n <? 0] => destruct (Z.ltb_spec n 0); [lia|] end.
    rewrite Nat2Z.id, Hargs, drop_app_length.
    replace (Z.to_nat _) with (length (list_ascii_of_string w))
      by (rewrite length_list_ascii_of_string; lia).
    rewrite <- app_assoc, take_app_length.
    by rewrite string_of_list_ascii_of_string.
Qed.

(** With no [=] sign in the arguments the working string is the joined
    string. *)
Lemma working_string_without_equals (prog : string) (ws : list string) :
  chr_equals ∉ join_args ws → working_string (prog :: ws) = Some (join_args ws).
Proof.
  intros Hnone.
  destruct (working_string_total (prog :: ws)) as [args Hargs]. rewrite Hargs. f_equal.
  apply list_eq. intros i.
  rewrite (working_string_lookup (prog :: ws) args i Hargs). simpl.
  rewrite decide_False; [done|]. intros (Heq & _).
  by apply list_elem_of_lookup_2 in Heq.
Qed.

Lemma join_args_plain (ws : list string) : Forall plain ws → chr_equals ∉ join_args ws.
Proof.
  induction 1 as [|w ws Hw _ IH]; simpl.
  - apply not_elem_of_nil.
  - intros [Heq|Heq]%elem_of_app.
    + unfold plain in Hw. rewrite Forall_forall in Hw. apply Hw in Heq. tauto.
    + apply elem_of_cons in Heq as [Heq|Heq]; [done | by apply IH].
Qed.

(** X17: argument words that hold no space, no quote and no [=] sign
    come through the tokenizer as they are and in their order, but for
    the empty ones, which are dropped: these are the words the reading
    loop gets, whatever the program name is. *)
Theorem plain_words_come_through (prog : string) (ws : list string) :
  Forall plain ws →
  working_string (prog :: ws) = Some (join_args ws)
  ∧ word_positions (join_args ws) = Some (ranges_of 0 ws)
  ∧ words_of (prog :: ws) = Some (Some <$> bound_words ws).
Proof.
  intros Hplain.
  assert (Hargs : working_string (prog :: ws) = Some (join_args ws)).
  { by apply working_string_without_equals, join_args_plain. }
  assert (Hpos : word_positions (join_args ws) = Some (ranges_of 0 ws)).
  { unfold word_positions.
    apply (scan_loop_plain ws _ [] [] _ eq_refl Hplain).
    pose proof (length_join_args ws). lia. }
  split; [done|]. split; [done|].
  unfold words_of. rewrite Hargs. simpl. rewrite Hpos. simpl.
  f_equal. apply (words_at_plain ws [] _ []). by rewrite app_nil_r.
Qed.

(** X18: an argument that stands between two quotes and holds no further
    quote and no [=] sign comes through as one word without the quotes,
    spaces and all, and also when it is empty; the plain words around it
    come through as they do without it. *)
Theorem quoted_word_comes_through_whole (prog body : string) (ws1 ws2 : list string) :
  Forall plain ws1 → quotable body → Forall plain ws2 →
  words_of (prog :: ws1 ++ quoted body :: ws2)
  = Some (Some <$> bound_words ws1 ++ body :: bound_words ws2).
Proof.
  intros Hws1 Hbody Hws2.
  set (B := list_ascii_of_string body).
  set (J1 := join_args ws1). set (J2 := join_args ws2).
  assert (Hjoin : join_args (ws1 ++ quoted body :: ws2)
                  = J1 ++ chr_quote :: B ++ chr_quote :: chr_space :: J2).
  { rewrite join_args_app. simpl join_args. unfold quoted.
    change (list_ascii_of_string (String chr_quote (body +:+ String chr_quote "")))
      with (chr_quote :: list_ascii_of_string (body +:+ String chr_quote "")).
    rewrite list_ascii_of_string_app. simpl. by rewrite <- app_assoc. }
  set (args := J1 ++ chr_quote :: B ++ chr_quote :: chr_space :: J2) in *.
  assert (Hargs : working_string (prog :: ws1 ++ quoted body :: ws2) = Some args).
  { rewrite working_string_without_equals; [by rewrite Hjoin|].
    rewrite Hjoin. unfold args. intros Hin.
    apply elem_of_app in Hin as [Hin|Hin]; [by apply (join_args_plain ws1)|].
    apply elem_of_cons in Hin as [Hin|Hin]; [done|].
    apply elem_of_app in Hin as [Hin|Hin].
    { unfold quotable in Hbody. rewrite Forall_forall in Hbody.
      apply Hbody in Hin. tauto. }
    apply elem_of_cons in Hin as [Hin|Hin]; [done|].
    apply elem_of_cons in Hin as [Hin|Hin]; [done|].
    by apply (join_args_plain ws2). }
  set (o := Z.of_nat (length J1)).
  set (pre3 := J1 ++ chr_quote :: B ++ [chr_quote; chr_space]).
  assert (Hargs3 : args = pre3 ++ J2).
  { unfold args, pre3. rewrite <- !app_assoc. simpl. by rewrite <- !app_assoc. }
  assert (Hlen3 : Z.of_nat (length pre3) = o + Z.of_nat (length B) + 3).
  { unfold pre3, o. lengths. }
  assert (Hpos : word_positions args
                 = Some (ranges_of 0 ws1
                         ++ (o + 1, o + 1 + Z.of_nat (length B))
                         :: ranges_of (Z.of_nat (length pre3)) ws2)).
  { unfold word_positions.
    pose proof (length_bound_words ws1).
    pose proof (length_join_args ws1 : (length ws1 ≤ length J1)%nat).
    pose proof (length_join_args ws2 : (length ws2 ≤ length J2)%nat).
    assert (Hlen : length args = (length J1 + length B + 3 + length J2)%nat).
    { unfold args. lengths. }
    replace (S (length args))
      with (length (bound_words ws1) + S (length args - length (bound_words ws1)))%nat
      by lia.
    rewrite (scan_loop_plain_then ws1 (chr_quote :: B ++ chr_quote :: chr_space :: J2)
               args [] [] _ eq_refl Hws1).
    simpl app.
    destruct (scan_loop_quoted_turn args J1 B (chr_space :: J2)
                (length args - length (bound_words ws1)) (ranges_of 0 ws1) eq_refl)
      as [Hhere Hturn].
    { eapply Forall_impl; [exact Hbody|]. intros x. simpl. tauto. }
    fold o in Hhere, Hturn.
    change (Z.of_nat (length (join_args ws1))) with o. change (Z.of_nat 0) with 0.
    rewrite Hhere, Hturn.
    rewrite find_first_not_of_skip; [|lia|].
    2: { replace (Z.to_nat (o + Z.of_nat (length B) + 2))
           with (length (J1 ++ chr_quote :: B ++ [chr_quote])) by (unfold o; lengths).
         unfold args.
         replace (J1 ++ chr_quote :: B ++ chr_quote :: chr_space :: J2)
           with ((J1 ++ chr_quote :: B ++ [chr_quote]) ++ chr_space :: J2)
           by (rewrite <- !app_assoc; simpl; by rewrite <- !app_assoc).
         by apply list_lookup_middle. }
    replace (o + Z.of_nat (length B) + 2 + 1) with (Z.of_nat (length pre3)) by lia.
    rewrite (scan_loop_plain ws2 args pre3 _ _ Hargs3 Hws2) by lia.
    by rewrite <- app_assoc. }
  unfold words_of. rewrite Hargs. simpl. rewrite Hpos. simpl. f_equal.
  unfold words_at. rewrite map_app, fmap_app. simpl. f_equal; [|f_equal].
  - apply (words_at_plain ws1 (chr_quote :: B ++ chr_quote :: chr_space :: J2) args []).
    done.
  - unfold substr.
    destruct (Z.ltb_spec (o + 1) 0); [lia|].
    destruct (Z.ltb_spec (Z.of_nat (length args)) (o + 1)) as [Hlt|_].
    { revert Hlt. unfold args, o. lengths. }
    simpl.
    match goal with |- context [?n <? 0] => destruct (Z.ltb_spec n 0); [lia|] end.
    replace (Z.to_nat (o + 1)) with (length (J1 ++ [chr_quote])) by (unfold o; lengths).
    replace args with ((J1 ++ [chr_quote]) ++ B ++ chr_quote :: chr_space :: J2)
      by (unfold args; by rewrite <- !app_assoc).
    rewrite drop_app_length.
    replace (Z.to_nat _) with (length B) by lia.
    rewrite take_app_length. unfold B. by rewrite string_of_list_ascii_of_string.
  - apply (words_at_plain ws2 [] args pre3). by rewrite app_nil_r.
Qed.

Lemma plain_words_come_through_witness :
  Forall plain ["--name"; ""; "x"]
  ∧ working_string ["prog"; "--name"; ""; "x"] = Some (join_args ["--name"; ""; "x"])
  ∧ word_positions (join_args ["--name"; ""; "x"]) = Some (ranges_of 0 ["--name"; ""; "x"])
  ∧ words_of ["prog"; "--name"; ""; "x"] = Some (Some <$> bound_words ["--name"; ""; "x"]).
Proof.
  assert (Hplain : Forall plain ["--name"; ""; "x"]).
  { repeat constructor; discriminate. }
  split; [exact Hplain|].
  exact (plain_words_come_through "prog" ["--name"; ""; "x"] Hplain).
Defined.

Lemma quoted_word_comes_through_whole_witness :
  (Forall plain ["--name"] ∧ quotable "John Smith" ∧ Forall plain ["--fast"])
  ∧ words_of ("prog" :: ["--name"] ++ quoted "John Smith" :: ["--fast"])
    = Some (Some <$> bound_words ["--name"] ++ "John Smith" :: bound_words ["--fast"]).
Proof.
  assert (H1 : Forall plain ["--name"]) by (repeat constructor; discriminate).
  assert (H2 : quotable "John Smith") by (repeat constructor; discriminate).
  assert (H3 : Forall plain ["--fast"]) by (repeat constructor; discriminate).
  split; [by repeat split|].
  exact (quoted_word_comes_through_whole "prog" "John Smith" ["--name"] ["--fast"]
           H1 H2 H3).
Defined.

(** ** A scan that does not end by itself *)

Section Ending.

Context `{StdConv}.





(** Every time the scan comes back to its start the vector [pos] is
    longer. *)
Lemma restarts_grows (args : list ascii) (k : nat) :
  ∀ (p : Z) (pos : list (Z * Z)),
    restarts args k p →
    ∃ pos', length pos' = (length pos + S k)%nat
            ∧ ∀ fuel, scan_loop (S k + fuel) args p pos
                      = scan_loop fuel args (find_first_not_of chr_space 0 args) pos'.
Proof.
  induction k as [|k IH]; intros p pos [Hscan Hrest].
  - exists (pos ++ [word_range args p]). split; [rewrite length_app; simpl; lia|].
    intros fuel. simpl Nat.add. rewrite scan_loop_turn by done.
    unfold next_word. by rewrite Hrest.
  - destruct (IH (next_word args p) (pos ++ [word_range args p]) Hrest)
      as (pos' & Hlen & Hturns).
    exists pos'. split; [rewrite Hlen, length_app; simpl; lia|].
    intros fuel. change (S (S k) + fuel)%nat with (S (S k + fuel)).
    rewrite scan_loop_turn by done. apply Hturns.
Qed.

Lemma restarts_grows_without_bound (args : list ascii) (k : nat) :
  restarts args k (find_first_not_of chr_space 0 args) →
  ∀ (n : nat) (pos : list (Z * Z)),
    ∃ turns pos', (length pos + n ≤ length pos')%nat
                  ∧ ∀ fuel, scan_loop (turns + fuel) args
                                      (find_first_not_of chr_space 0 args) pos
                            = scan_loop fuel args
                                        (find_first_not_of chr_space 0 args) pos'.
Proof.
  intros Hk n pos. induction n as [|n (turns & pos1 & Hlen & Hturns)].
  - exists 0%nat, pos. split; [lia|done].
  - destruct (restarts_grows args k _ pos1 Hk) as (pos2 & Hlen2 & Hturns2).
    exists (turns + S k)%nat, pos2. split; [lia|].
    intros fuel. rewrite <- Nat.add_assoc, Hturns. apply Hturns2.
Qed.

(** X19: the scan of the working string fails to end by itself exactly
    when, some turns after its start, it stands at a word with no end:
    the search for the end answers [npos], the next word is looked for
    from position 0, and the scan is where it began.  Then it comes back
    to its start again and again with [pos] longer every time, beyond
    every length, so no number of turns ends it, and [argparse] is left by
    the exception of [push_back], with no word read. *)
Theorem endless_scan_ends_in_an_exception (argv : list string) (w : world)
    (args : list ascii) :
  working_string argv = Some args →
  let p0 := find_first_not_of chr_space 0 args in
  (word_positions args = None ↔ ∃ k, restarts args k p0)
  ∧ (word_positions args = None →
     (∀ n : nat, ∃ turns pos',
         (n ≤ length pos')%nat
         ∧ ∀ fuel, scan_loop (turns + fuel) args p0 [] = scan_loop fuel args p0 pos')
     ∧ (∀ fuel pos, scan_loop fuel args p0 pos = None)
     ∧ argparse argv w = Uncaught).
Proof.
  intros Hargs p0.
  assert (Hiff : word_positions args = None ↔ ∃ k, restarts args k p0).
  { split.
    - intros Hpos. unfold word_positions in Hpos.
      destruct (scan_loop_ends_or_restarts args (S (length args)) p0 [])
        as [Hsome|Hk]; [| |done].
      + destruct (find_first_not_of_range chr_space 0 args) as [|[? _]];
          [by left|right; fold p0; lia].
      + fold p0 in Hpos. rewrite Hpos in Hsome. by destruct Hsome.
    - intros [k Hk]. unfold word_positions. by apply (restarts_forever args k). }
  split; [exact Hiff|].
  intros Hpos. destruct (proj1 Hiff Hpos) as [k Hk]. split; [|split].
  - intros n. destruct (restarts_grows_without_bound args k Hk n []) as (turns & pos' & ? & ?).
    by exists turns, pos'.
  - by apply (restarts_forever args k).
  - unfold argparse, word_pass. by rewrite Hargs, Hpos.
Qed.

(** X20: a value word that does not convert, read for an option bound to
    a vector (an arity other than 1), ends [argparse] with the diagnostic
    of [Param::Set] that names the type and quotes the word; the
    exception goes no further. *)
Theorem unconvertible_vector_value_exits (argv : list string) (w : world)
    (args : list ascii) (pre post : list (Z * Z)) (range : Z * Z) (r : reader)
    (key word : string) (p : Param) :
  working_string argv = Some args →
  word_positions args = Some (pre ++ range :: post) →
  read_words args pre (start w) = Ok (Next r) →
  readingAnOption r = false → parameter r = Some key →
  map_find key (params_map (now r)) = Some p →
  type p ≠ BOOL → xargs p ≠ 1 →
  substr args range.1 (range.2 - range.1) = Some word →
  word ≠ "" → conversion (type p) word = None →
  argparse argv w = Exit (conversion_error (diagnostic_name (type p)) word).
Proof.
  intros Hargs Hpos Hpre Hmode Hparam Hfind Hbool Hx Hword Hne Hconv.
  unfold argparse, word_pass. rewrite Hargs, Hpos, read_words_app, Hpre. simpl.
  unfold read_word. rewrite Hword, Hmode, Hparam, Hfind.
  by rewrite vector_conversion_failure_exits.
Qed.

Lemma read_word_parameter (args : list ascii) (range : Z * Z) (r r' : reader) :
  (readingAnOption r = false →
   ∃ key p, parameter r = Some key ∧ map_find key (params_map (now r)) = Some p
            ∧ type p ≠ BOOL) →
  read_word args range r = Ok (Next r') →
  readingAnOption r' = false →
  ∃ key p, parameter r' = Some key ∧ map_find key (params_map (now r')) = Some p
           ∧ type p ≠ BOOL.
Proof.
  intros Hinv. unfold read_word.
  destruct (substr args range.1 (range.2 - range.1)) as [word|]; [|done].
  destruct (readingAnOption r) eqn:Hmode.
  - destruct (map_find word (params_map (now r))) as [param|] eqn:Hfind; [|done].
    case_bool_decide as Hbool.
    + intros [= <-] _. by exists word, param.
    + destruct (Param_Set param "true" (memory (now r))); simpl; try done.
      case_bool_decide; [done|]. by intros [= <-].
  - destruct (Hinv eq_refl) as (key & p & -> & Hfind & Hbool). rewrite Hfind.
    destruct (Param_Set p word (memory (now r))); simpl; try done.
    destruct (parameter_counter r - 1 =? 0); [by intros [= <-]|].
    destruct (parameter_counter r - 1 <? 0); intros [= <-] _; simpl.
    + exists key, (with_set true p). split; [done|].
      rewrite map_find_update, decide_True by done. by rewrite Hfind.
    + by exists key, p.
Qed.

(** X21: whenever the reading loop expects a value, [parameter] is not
    the null pointer it was initialised to: it points at the entry of the
    option read last, which is in the map and is not boolean.  The branch
    that calls [parameter->Set] is entered with no other state. *)
Theorem value_is_read_for_an_option (args : list ascii) (pos : list (Z * Z))
    (w : world) (r : reader) :
  read_words args pos (start w) = Ok (Next r) →
  readingAnOption r = false →
  ∃ key p, parameter r = Some key ∧ map_find key (params_map (now r)) = Some p
           ∧ type p ≠ BOOL.
Proof.
  assert (Hstart : readingAnOption (start w) = false →
                   ∃ key p, parameter (start w) = Some key
                            ∧ map_find key (params_map (now (start w))) = Some p
                            ∧ type p ≠ BOOL) by done.
  revert Hstart. generalize (start w) as r0. revert r.
  induction pos as [|range pos IH]; intros r r0 Hinv; simpl.
  - intros [= <-]. exact Hinv.
  - destruct (read_word args range r0) as [[r1|w1]| | | |] eqn:Hword; simpl; try done.
    apply IH. by apply (read_word_parameter args range r0 r1).
Qed.

End Ending.

Lemma endless_scan_ends_in_an_exception_witness :
  let argv := ["prog"; "--name"; Scenario.quote +:+ "ab"] in
  let args := list_ascii_of_string ("--name " +:+ Scenario.quote +:+ "ab ") in
  let p0 := find_first_not_of chr_space 0 args in
  working_string argv = Some args
  ∧ (word_positions args = None ↔ ∃ k, restarts args k p0)
  ∧ (word_positions args = None →
     (∀ n : nat, ∃ turns pos',
         (n ≤ length pos')%nat
         ∧ ∀ fuel, scan_loop (turns + fuel) args p0 [] = scan_loop fuel args p0 pos')
     ∧ (∀ fuel pos, scan_loop fuel args p0 pos = None)
     ∧ argparse argv Scenario.name_world = Uncaught).
Proof.
  intros argv args p0.
  assert (Hargs : working_string argv = Some args) by run.
  split; [exact Hargs|].
  exact (endless_scan_ends_in_an_exception argv Scenario.name_world args Hargs).
Defined.

Lemma unconvertible_vector_value_exits_witness :
  let argv := ["prog"; "--seeds"; "1.0"; "abc"] in
  let w := Sample.flags_world in
  let args := list_ascii_of_string "--seeds 1.0 abc " in
  let p := mkParam FLOAT 2%N "--seeds" "The seeds." 3 true false "" in
  let r := mkReader false (Some "--seeds") 2
             (mkWorld (params_map w) (<[2%N := Vector [VFloat 1%Q]]> (memory w))) in
  (working_string argv = Some args
   ∧ word_positions args = Some ([(0, 7); (8, 11)] ++ (12, 15) :: [])
   ∧ read_words args [(0, 7); (8, 11)] (start w) = Ok (Next r)
   ∧ readingAnOption r = false ∧ parameter r = Some "--seeds"
   ∧ map_find "--seeds" (params_map (now r)) = Some p
   ∧ type p ≠ BOOL ∧ xargs p ≠ 1
   ∧ substr args (12, 15).1 ((12, 15).2 - (12, 15).1) = Some "abc"
   ∧ "abc" ≠ "" ∧ conversion (type p) "abc" = None)
  ∧ argparse argv w = Exit (conversion_error (diagnostic_name (type p)) "abc").
Proof.
  intros argv w args p r.
  assert (H1 : working_string argv = Some args) by run.
  assert (H2 : word_positions args = Some ([(0, 7); (8, 11)] ++ (12, 15) :: [])) by run.
  assert (H3 : read_words args [(0, 7); (8, 11)] (start w) = Ok (Next r)) by run.
  assert (H4 : readingAnOption r = false) by reflexivity.
  assert (H5 : parameter r = Some "--seeds") by reflexivity.
  assert (H6 : map_find "--seeds" (params_map (now r)) = Some p) by run.
  assert (H7 : type p ≠ BOOL) by discriminate.
  assert (H8 : xargs p ≠ 1) by (simpl; lia).
  assert (H9 : substr args (12, 15).1 ((12, 15).2 - (12, 15).1) = Some "abc") by run.
  assert (H10 : "abc" ≠ "") by discriminate.
  assert (H11 : conversion (type p) "abc" = None) by run.
  split; [by repeat split|].
  exact (unconvertible_vector_value_exits argv w args _ _ _ r "--seeds" "abc" p
           H1 H2 H3 H4 H5 H6 H7 H8 H9 H10 H11).
Defined.

Lemma value_is_read_for_an_option_witness :
  let w := Sample.flags_world in
  let args := list_ascii_of_string "--seeds 1.0 " in
  let r := mkReader false (Some "--seeds") 2
             (mkWorld (params_map w) (<[2%N := Vector [VFloat 1%Q]]> (memory w))) in
  (read_words args [(0, 7); (8, 11)] (start w) = Ok (Next r)
   ∧ readingAnOption r = false)
  ∧ ∃ key p, parameter r = Some key ∧ map_find key (params_map (now r)) = Some p
             ∧ type p ≠ BOOL.
Proof.
  intros w args r.
  assert (H1 : read_words args [(0, 7); (8, 11)] (start w) = Ok (Next r)) by run.
  assert (H2 : readingAnOption r = false) by reflexivity.
  split; [by split|].
  exact (value_is_read_for_an_option args _ w r H1 H2).
Defined.

(** ** Arguments without quotes *)






Section Quotes.

Context `{StdConv}.


End Quotes.

